(** * oi.h: scanner, verdict reporters and random sampling

    A shallow embedding of the library part of [src/oi.h] (namespace [oi]):
    the two verdict reporters, the [Scanner] with its three modes, and
    [Random::operator()] on integral types.  Every definition is a
    transcription of the C++ function of the same name; the statements
    proved about them follow the definitions. *)

From Stdlib Require Import ZArith List String Ascii Bool Lia DecimalString.
From Stdlib Require Import Strings.Byte.
From Stdlib Require Import Sorting.Permutation.
Import ListNotations.
Local Open Scope string_scope.
Local Open Scope Z_scope.

(** ** Text helpers *)

(** The one-character string ["\n"]. *)
Definition LF : string := String (ascii_of_nat 10) EmptyString.

(** [std::cout << n] for an integer [n] (decimal, with a sign when negative). *)
Definition show_int (n : Z) : string := NilZero.string_of_int (Z.to_int n).

(** [(std::cout << ... << msg)]: a parameter pack, one rendered piece per
    argument, printed left to right. *)
Definition print_all (msg : list string) : string := String.concat "" msg.

Definition is_empty (s : string) : bool :=
  match s with EmptyString => true | String _ _ => false end.

(** ** How a process ends *)

(** Where the text goes: [std::cout], or the stream chosen by
    [detail::get_error_ostream()] ([std::cerr] unless a checker switched it). *)
Inductive Sink := Cout | ErrorOstream.

(** [_exit(code)] after writing [text], or an abort ([assert],
    [std::terminate]). *)
Inductive Ending :=
| Exits (code : Z) (sink : Sink) (text : string)
| Crashes.

(** The result of running library code: it returns, it ends the process, or
    the model's loop bound was too small (shown never to happen where a result
    is claimed). *)
Inductive Res (A : Type) :=
| Ret (a : A)
| Stop (e : Ending)
| OutOfFuel.
Arguments Ret {A} a.
Arguments Stop {A} e.
Arguments OutOfFuel {A}.

Definition bind {A B} (r : Res A) (k : A -> Res B) : Res B :=
  match r with
  | Ret a => k a
  | Stop e => Stop e
  | OutOfFuel => OutOfFuel
  end.

Notation "x <- r ;; k" := (bind r (fun x => k))
  (at level 61, r at next level, right associativity).
Notation "' p <- r ;; k" := (bind r (fun x => let 'p := x in k))
  (at level 61, p pattern, r at next level, right associativity).

(** [detail::exit_with_error_msg]. *)
Definition exit_with_error_msg (exit_code : Z) (msg : list string) : Ending :=
  Exits exit_code ErrorOstream (print_all msg ++ LF).

(** [oi::bug]. *)
Definition bug (msg : list string) : Ending :=
  exit_with_error_msg 2 ("BUG: " :: msg).

(** ** CheckerVerdict *)

Record CheckerVerdict := mkCheckerVerdict {
  partial_score : option Z;
  partial_score_msg : string
}.

(** The process-scoped [checker_verdict] object as constructed. *)
Definition checker_verdict : CheckerVerdict :=
  {| partial_score := None; partial_score_msg := "" |}.

(** [CheckerVerdict::set_partial_score]: the [assert] aborts the process. *)
Definition set_partial_score (score : Z) (msg : list string)
    (cv : CheckerVerdict) : Res CheckerVerdict :=
  if (0 <=? score) && (score <? 100) then
    Ret {| partial_score := Some score; partial_score_msg := print_all msg |}
  else Stop Crashes.

(** [CheckerVerdict::exit_wrong]: [sizeof...(msg)] is the number of
    arguments. *)
Definition exit_wrong (msg : list string) (cv : CheckerVerdict) : Ending :=
  match partial_score cv with
  | Some score =>
      Exits 0 Cout
        ("OK" ++ LF ++
         partial_score_msg cv ++
         (if negb (is_empty (partial_score_msg cv)) && negb (Nat.eqb (List.length msg) 0)
          then "; " else "") ++
         print_all msg ++ LF ++
         show_int score ++ LF)
  | None =>
      Exits 0 Cout ("WRONG" ++ LF ++ print_all msg ++ LF ++ "0" ++ LF)
  end.

(** What the specification says [reject(msg)] prints, word for word: the
    separator is left out when either side is empty. *)
Definition spec_reject_text (partial : option (Z * string)) (msg : string) : string :=
  match partial with
  | Some (score, partial_msg) =>
      "OK" ++ LF ++ partial_msg ++
      (if is_empty partial_msg || is_empty msg then "" else "; ") ++
      msg ++ LF ++ show_int score ++ LF
  | None => "WRONG" ++ LF ++ msg ++ LF ++ "0" ++ LF
  end.

(** ** InwerVerdict *)

(** [InwerVerdict::Stream::StreamImpl]: every [<<] prints one piece and sets
    [printed]; the destructor adds the newline when something was printed and
    calls [_exit(exit_code)]. *)
Definition StreamImpl_end (exit_code : Z) (printed : list string) : Ending :=
  Exits exit_code Cout
    (print_all printed ++
     (if Nat.eqb (List.length printed) 0 then "" else LF)).

(** ** Characters *)

(** [EOF] of <cstdio>. *)
Definition EOF : Z := -1.

(** The value [getc_unlocked] returns for a byte: [unsigned char] as [int]. *)
Definition int_of_byte (b : byte) : Z := Z.of_N (Byte.to_N b).

(** [static_cast<char>(ch)], as the byte stored in a [std::string]. *)
Definition char_of_int (ch : Z) : byte :=
  match Byte.of_N (Z.to_N (ch mod 256)) with
  | Some b => b
  | None => x00
  end.

(** <cctype> in the "C" locale. *)
Definition isspace (ch : Z) : bool := (ch =? 32) || ((9 <=? ch) && (ch <=? 13)).
Definition isdigit (ch : Z) : bool := (48 <=? ch) && (ch <=? 57).
Definition isgraph (ch : Z) : bool := (33 <=? ch) && (ch <=? 126).

(** One element of [constexpr char digits[] = "0123456789abcdef"]; the source
    only indexes it with [ch >> 4] and [ch & 15] of a byte. *)
Definition digits_at (i : Z) : string :=
  match (if i <? 0 then None else String.get (Z.to_nat i) "0123456789abcdef") with
  | Some a => String a EmptyString
  | None => ""
  end.

(** [Scanner::char_description]. *)
Definition char_description (ch : Z) : string :=
  if isgraph ch then "'" ++ String (ascii_of_byte (char_of_int ch)) EmptyString ++ "'"
  else if ch =? 32 then "' '"
  else if ch =? 10 then "'\n'"
  else if ch =? 13 then "'\r'"
  else if ch =? 9 then "'\t'"
  else if ch =? 0 then "'\0'"
  else "'\x" ++ digits_at (Z.shiftr ch 4) ++ digits_at (Z.land ch 15) ++ "'".

(** ** Scanner state *)

Inductive Mode := UserOutput | Lax | TestInput.
Inductive Lang := EN | PL.

(** [Scanner::Pos]; both fields are [size_t]. *)
Record Pos := mkPos { line : Z; pos : Z }.

Inductive DelayedUnreadChars := WHITESPACE | NEWLINE.

(** The fields of [class Scanner]; [file] is what [getc_unlocked] has not
    delivered yet. *)
Record Scanner := mkScanner {
  file : list byte;
  mode : Mode;
  lang : Lang;
  next_char_pos : Pos;
  last_char_pos : Pos;
  prev_last_char_pos : Pos;
  eofed : bool;
  next_char : option Z;
  delayed_unread_chars : list DelayedUnreadChars
}.

(** [Scanner::Scanner(FILE*, Mode, Lang)] with the default member
    initialisers. *)
Definition Scanner_new (contents : list byte) (mode_ : Mode) (lang_ : Lang) : Scanner :=
  {| file := contents; mode := mode_; lang := lang_;
     next_char_pos := mkPos 1 1;
     last_char_pos := mkPos 1 1;
     prev_last_char_pos := mkPos 1 1;
     eofed := false;
     next_char := None;
     delayed_unread_chars := [] |}.

(** [++x] on a [size_t]. *)
Definition size_incr (n : Z) : Z := (n + 1) mod 2 ^ 64.

(** The update of [next_char_pos] at the end of [getchar]. *)
Definition advance (ch : Z) (p : Pos) : Pos :=
  if ch =? 10 then mkPos (size_incr (line p)) 1
  else mkPos (line p) (size_incr (pos p)).

(** [Scanner::getchar(int& ch)]: the reference parameter is passed in and
    handed back. *)
Definition getchar (ch : Z) (s : Scanner) : bool * Z * Scanner :=
  if eofed s then (false, ch, s)
  else
    let '(ch', file') :=
      match next_char s with
      | Some c => (c, file s)
      | None =>
          match file s with
          | [] => (EOF, [])
          | b :: rest => (int_of_byte b, rest)
          end
      end in
    let eofed' := ch' =? EOF in
    (negb eofed', ch',
     {| file := file'; mode := mode s; lang := lang s;
        next_char_pos := advance ch' (next_char_pos s);
        last_char_pos := next_char_pos s;
        prev_last_char_pos := last_char_pos s;
        eofed := eofed';
        next_char := None;
        delayed_unread_chars := delayed_unread_chars s |}).

(** [Scanner::ungetchar(int ch)]; the [assert] aborts. *)
Definition ungetchar (ch : Z) (s : Scanner) : Res Scanner :=
  match next_char s with
  | Some _ => Stop Crashes
  | None =>
      Ret {| file := file s; mode := mode s; lang := lang s;
             next_char_pos := last_char_pos s;
             last_char_pos := prev_last_char_pos s;
             prev_last_char_pos := prev_last_char_pos s;
             eofed := false;
             next_char := Some ch;
             delayed_unread_chars := delayed_unread_chars s |}
  end.

Definition set_delayed (q : list DelayedUnreadChars) (s : Scanner) : Scanner :=
  {| file := file s; mode := mode s; lang := lang s;
     next_char_pos := next_char_pos s;
     last_char_pos := last_char_pos s;
     prev_last_char_pos := prev_last_char_pos s;
     eofed := eofed s;
     next_char := next_char s;
     delayed_unread_chars := q |}.

(** Enough iterations for any loop that consumes one unread item per round:
    the pushed-back item, the bytes of the file, the end of the stream. *)
Definition fuel_of (s : Scanner) : nat := S (S (List.length (file s))).

(** The message tables indexed by [static_cast<int>(lang)]. *)
Definition read_eof_expected_a_string (l : Lang) : string :=
  match l with EN => "Read EOF, expected a string" | PL => "Wczytano EOF, oczekiwano napisu" end.
Definition too_long_string (l : Lang) : string :=
  match l with EN => "Too long string" | PL => "Zbyt dlugi napis" end.
Definition read_eof_expected_a_number (l : Lang) : string :=
  match l with EN => "Read EOF, expected a number" | PL => "Wczytano EOF, oczekiwano liczby" end.
Definition read_minus_expected_a_positive_number (l : Lang) : string :=
  match l with
  | EN => "Read '-', expected a non-negative number"
  | PL => "Wczytano '-', oczekiwano nieujemnej liczby"
  end.
Definition integer_value_out_of_range (l : Lang) : string :=
  match l with EN => "Integer value out of range" | PL => "Liczba calkowita spoza zakresu" end.

(** ** Integral target types of [Num<T>] and [Random::operator()] *)

Record IntTy := mkIntTy { is_signed : bool; bits : Z }.

Definition int32_t : IntTy := mkIntTy true 32.
Definition uint32_t : IntTy := mkIntTy false 32.
Definition uint8_t : IntTy := mkIntTy false 8.
Definition int8_t : IntTy := mkIntTy true 8.
Definition uint64_t : IntTy := mkIntTy false 64.
Definition int64_t : IntTy := mkIntTy true 64.

(** [std::numeric_limits<T>::min()] and [max()]. *)
Definition T_min (t : IntTy) : Z := if is_signed t then - 2 ^ (bits t - 1) else 0.
Definition T_max (t : IntTy) : Z :=
  if is_signed t then 2 ^ (bits t - 1) - 1 else 2 ^ bits t - 1.

Definition fits (t : IntTy) (v : Z) : bool := (T_min t <=? v) && (v <=? T_max t).

(** Conversion of a mathematical integer to [T] (two's complement). *)
Definition wrap (t : IntTy) (v : Z) : Z :=
  if is_signed t
  then (v + 2 ^ (bits t - 1)) mod 2 ^ bits t - 2 ^ (bits t - 1)
  else v mod 2 ^ bits t.

(** [__builtin_mul_overflow], [__builtin_add_overflow],
    [__builtin_sub_overflow] with a result of type [T]: the flag and the
    stored value. *)
Definition builtin_mul_overflow (t : IntTy) (a b : Z) : bool * Z :=
  (negb (fits t (a * b)), wrap t (a * b)).
Definition builtin_add_overflow (t : IntTy) (a b : Z) : bool * Z :=
  (negb (fits t (a + b)), wrap t (a + b)).
Definition builtin_sub_overflow (t : IntTy) (a b : Z) : bool * Z :=
  (negb (fits t (a - b)), wrap t (a - b)).

(** ** Scanner operations *)

Section ScannerOps.

(** The state of the process-wide [checker_verdict] while the scanner runs;
    a failing UserOutput scanner reports through it. *)
Variable cv : CheckerVerdict.

(** [do_error]. *)
Definition do_error (m : Mode) (msg : list string) : Ending :=
  match m with
  | UserOutput => exit_wrong msg cv
  | Lax => exit_with_error_msg 4 ("Lax scanner: " :: msg)
  | TestInput => StreamImpl_end 1 msg
  end.

(** [Scanner::error]. *)
Definition error (s : Scanner) (msg : list string) : Ending :=
  match lang s with
  | EN =>
      do_error (mode s)
        ("Line " :: show_int (line (last_char_pos s)) ::
         ", position " :: show_int (pos (last_char_pos s)) :: ": " :: msg)
  | PL =>
      do_error (mode s)
        ("Wiersz " :: show_int (line (last_char_pos s)) ::
         ", pozycja " :: show_int (pos (last_char_pos s)) :: ": " :: msg)
  end.

(** The lambda [do_read_char] of [read_delayed_unread_chars]. *)
Definition do_read_char (char_description_str : string) (s : Scanner) : Res (Z * Scanner) :=
  let '(ok, ch, s1) := getchar 0 s in
  if negb ok then
    match lang s1 with
    | EN => Stop (error s1 ["Read EOF, expected "; char_description_str])
    | PL => Stop (error s1 ["Wczytano EOF, oczekiwano "; char_description_str])
    end
  else Ret (ch, s1).

(** The lambda [unexpected_char_error]. *)
Definition unexpected_char_error (s : Scanner) (ch : Z)
    (expected_char_description_str : string) : Ending :=
  match lang s with
  | EN => error s ["Read "; char_description ch; ", expected "; expected_char_description_str]
  | PL => error s ["Wczytano "; char_description ch; ", oczekiwano "; expected_char_description_str]
  end.

(** The inner [for (;;)] of the NEWLINE case: read a newline, ignoring
    whitespace before it. *)
Fixpoint read_newline_loop (fuel : nat) (s : Scanner) : Res Scanner :=
  match fuel with
  | O => OutOfFuel
  | S fuel' =>
      '(ch, s1) <- do_read_char "'\n'" s ;;
      if ch =? 10 then Ret s1
      else if isspace ch then read_newline_loop fuel' s1
      else Stop (unexpected_char_error s1 ch "'\n'")
  end.

(** One round of [for (auto delayed_unread_char : delayed_unread_chars)]. *)
Definition read_delayed_one (d : DelayedUnreadChars) (s : Scanner) : Res Scanner :=
  match d with
  | WHITESPACE =>
      match mode s with
      | UserOutput | Lax =>
          '(ch, s1) <- do_read_char "' '" s ;;
          if negb (isspace ch) || (ch =? 10)
          then Stop (unexpected_char_error s1 ch "' '")
          else Ret s1
      | TestInput => Stop Crashes
      end
  | NEWLINE =>
      match mode s with
      | UserOutput | Lax => read_newline_loop (fuel_of s) s
      | TestInput => Stop Crashes
      end
  end.

Fixpoint read_delayed_each (q : list DelayedUnreadChars) (s : Scanner) : Res Scanner :=
  match q with
  | [] => Ret s
  | d :: q' => s1 <- read_delayed_one d s ;; read_delayed_each q' s1
  end.

(** [Scanner::read_delayed_unread_chars]. *)
Definition read_delayed_unread_chars (s : Scanner) : Res Scanner :=
  s1 <- read_delayed_each (delayed_unread_chars s) s ;;
  Ret (set_delayed [] s1).

(** The [for (;;)] of [operator>>(IgnoreWsType)]. *)
Fixpoint ignore_ws_loop (fuel : nat) (ch : Z) (s : Scanner) : Res Scanner :=
  match fuel with
  | O => OutOfFuel
  | S fuel' =>
      let '(ok, ch1, s1) := getchar ch s in
      if negb ok then ungetchar EOF s1
      else if (ch1 =? 10) || negb (isspace ch1) then ungetchar ch1 s1
      else ignore_ws_loop fuel' ch1 s1
  end.

(** [Scanner::operator>>(IgnoreWsType)]. *)
Definition op_ignore_ws (s : Scanner) : Res Scanner :=
  s1 <- read_delayed_unread_chars s ;;
  ignore_ws_loop (fuel_of s1) 0 s1.

(** The second [switch (mode)] shared by the extraction operators. *)
Definition skip_ws_if_lenient (s : Scanner) : Res Scanner :=
  match mode s with
  | UserOutput | Lax => op_ignore_ws s
  | TestInput => Ret s
  end.

(** [Scanner::operator>>(const char& c)]; [c] is the [char] as an [int]. *)
Definition op_char (c : Z) (s : Scanner) : Res Scanner :=
  let delayed :=
    match mode s with
    | UserOutput | Lax => isspace c
    | TestInput => false
    end in
  if delayed then
    if c =? 10
    then Ret (set_delayed (delayed_unread_chars s ++ [NEWLINE])%list s)
    else Ret (set_delayed (delayed_unread_chars s ++ [WHITESPACE])%list s)
  else
    s1 <- read_delayed_unread_chars s ;;
    s2 <- skip_ws_if_lenient s1 ;;
    let '(ok, ch, s3) := getchar 0 s2 in
    if negb ok then
      match lang s3 with
      | EN => Stop (error s3 ["Read EOF, expected "; char_description c])
      | PL => Stop (error s3 ["Wczytano EOF, oczekiwano "; char_description c])
      end
    else if negb (ch =? c) then
      match lang s3 with
      | EN => Stop (error s3 ["Read "; char_description ch; ", expected "; char_description c])
      | PL => Stop (error s3 ["Wczytano "; char_description ch; ", oczekiwano "; char_description c])
      end
    else Ret s3.

(** [Scanner::operator>>(NlType)]. *)
Definition op_nl (s : Scanner) : Res Scanner := op_char 10 s.

(** How the whitespace-skipping [for (;;)] of [operator>>(EofType)] is left. *)
Inductive LoopExit := Returned | Broke.

Fixpoint eof_skip_loop (fuel : nat) (ch : Z) (s : Scanner) : Res (LoopExit * Z * Scanner) :=
  match fuel with
  | O => OutOfFuel
  | S fuel' =>
      let '(ok, ch1, s1) := getchar ch s in
      if negb ok then Ret (Returned, ch1, s1)
      else if negb (isspace ch1) then
        s2 <- ungetchar ch1 s1 ;; Ret (Broke, ch1, s2)
      else eof_skip_loop fuel' ch1 s1
  end.

(** The final [if (getchar(ch))] of [operator>>(EofType)]. *)
Definition expect_eof (ch : Z) (s : Scanner) : Res Scanner :=
  let '(ok, ch1, s1) := getchar ch s in
  if ok then
    match lang s1 with
    | EN => Stop (error s1 ["Read "; char_description ch1; ", expected EOF"])
    | PL => Stop (error s1 ["Wczytano "; char_description ch1; ", oczekiwano EOF"])
    end
  else Ret s1.

(** [Scanner::operator>>(EofType)]. *)
Definition op_eof (s : Scanner) : Res Scanner :=
  match mode s with
  | UserOutput | Lax =>
      let s0 := set_delayed [] s in
      '(how, ch, s1) <- eof_skip_loop (fuel_of s0) 0 s0 ;;
      match how with
      | Returned => Ret s1
      | Broke => expect_eof ch s1
      end
  | TestInput => expect_eof 0 s
  end.

(** The [for (;;)] of [operator>>(Line)]; [var] is [line.var]. *)
Fixpoint line_loop (fuel : nat) (var : list byte) (ch : Z) (s : Scanner)
    : Res (list byte * Scanner) :=
  match fuel with
  | O => OutOfFuel
  | S fuel' =>
      let '(ok, ch1, s1) := getchar ch s in
      if negb ok then s2 <- ungetchar EOF s1 ;; Ret (var, s2)
      else if ch1 =? 10 then s2 <- ungetchar ch1 s1 ;; Ret (var, s2)
      else line_loop fuel' (var ++ [char_of_int ch1])%list ch1 s1
  end.

(** [Scanner::operator>>(Line line)]: returns the new [line.var]; [max_size]
    is the second field of [Line]. *)
Definition op_Line (max_size : Z) (s : Scanner) : Res (list byte * Scanner) :=
  s1 <- read_delayed_unread_chars s ;;
  line_loop (fuel_of s1) [] 0 s1.

(** The [for (;;)] of [operator>>(Str)]. *)
Fixpoint str_loop (fuel : nat) (max_size : Z) (var : list byte) (ch : Z) (s : Scanner)
    : Res (list byte * Scanner) :=
  match fuel with
  | O => OutOfFuel
  | S fuel' =>
      let var1 := (var ++ [char_of_int ch])%list in
      if Z.of_nat (List.length var1) >? max_size then
        Stop (error s [too_long_string (lang s)])
      else
        let '(ok, ch1, s1) := getchar ch s in
        if negb ok then s2 <- ungetchar EOF s1 ;; Ret (var1, s2)
        else if isspace ch1 then s2 <- ungetchar ch1 s1 ;; Ret (var1, s2)
        else str_loop fuel' max_size var1 ch1 s1
  end.

(** [Scanner::operator>>(Str str)]; the constructor of [Str] asserts
    [max_size > 0]. *)
Definition op_Str (max_size : Z) (s : Scanner) : Res (list byte * Scanner) :=
  if negb (max_size >? 0) then Stop Crashes
  else
    s1 <- read_delayed_unread_chars s ;;
    s2 <- skip_ws_if_lenient s1 ;;
    let '(ok, ch, s3) := getchar 0 s2 in
    if negb ok then Stop (error s3 [read_eof_expected_a_string (lang s3)])
    else if isspace ch then
      match lang s3 with
      | EN => Stop (error s3 ["Read "; char_description ch; ", expected a string"])
      | PL => Stop (error s3 ["Wczytano "; char_description ch; ", oczekiwano napisu"])
      end
    else str_loop (fuel_of s3) max_size [] ch s3.

(** The [for (;;)] of [scan_integer]. *)
Fixpoint scan_integer_loop (fuel : nat) (t : IntTy) (minus : bool) (val : Z) (ch : Z)
    (s : Scanner) : Res (Z * Scanner) :=
  match fuel with
  | O => OutOfFuel
  | S fuel' =>
      let '(ok, ch1, s1) := getchar ch s in
      if negb ok then s2 <- ungetchar EOF s1 ;; Ret (val, s2)
      else if negb (isdigit ch1) then s2 <- ungetchar ch1 s1 ;; Ret (val, s2)
      else
        let '(o1, v1) := builtin_mul_overflow t val 10 in
        if o1 then Stop (error s1 [integer_value_out_of_range (lang s1)])
        else
          let '(o2, v2) :=
            if negb minus then builtin_add_overflow t v1 (ch1 - 48) else (false, v1) in
          if o2 then Stop (error s1 [integer_value_out_of_range (lang s1)])
          else
            let '(o3, v3) :=
              if minus then builtin_sub_overflow t v2 (ch1 - 48) else (false, v2) in
            if o3 then Stop (error s1 [integer_value_out_of_range (lang s1)])
            else scan_integer_loop fuel' t minus v3 ch1 s1
  end.

(** [Scanner::scan_integer<T>]; returns the new [val]. *)
Definition scan_integer (t : IntTy) (s : Scanner) : Res (Z * Scanner) :=
  let '(ok, ch, s1) := getchar 0 s in
  if negb ok then Stop (error s1 [read_eof_expected_a_number (lang s1)])
  else
    '(minus, ch2, s2) <-
      (if ch =? 45 then
         if negb (is_signed t)
         then Stop (error s1 [read_minus_expected_a_positive_number (lang s1)])
         else
           let '(ok', ch', s') := getchar ch s1 in
           if negb ok' then Stop (error s' [read_eof_expected_a_number (lang s')])
           else Ret (true, ch', s')
       else Ret (false, ch, s1)) ;;
    if (ch2 <? 48) || (57 <? ch2) then
      match lang s2 with
      | EN => Stop (error s2 ["Read "; char_description ch2; ", expected a number"])
      | PL => Stop (error s2 ["Wczytano "; char_description ch2; ", oczekiwano liczby"])
      end
    else
      let val := wrap t (if minus then 48 - ch2 else ch2 - 48) in
      scan_integer_loop (fuel_of s2) t minus val ch2 s2.

(** [Scanner::operator>>(Num<T> num)] for an integral [T]; the constructor of
    [Num] asserts [min <= max]. *)
Definition op_Num (t : IntTy) (min max : Z) (s : Scanner) : Res (Z * Scanner) :=
  if negb (min <=? max) then Stop Crashes
  else
    s1 <- read_delayed_unread_chars s ;;
    s2 <- skip_ws_if_lenient s1 ;;
    '(var, s3) <- scan_integer t s2 ;;
    if (var <? min) || (var >? max)
    then Stop (error s3 [integer_value_out_of_range (lang s3)])
    else Ret (var, s3).

(** [Scanner::do_destructor_checks]. *)
Definition do_destructor_checks (s : Scanner) : Res Scanner :=
  match mode s with
  | UserOutput | TestInput => op_eof s
  | Lax => Ret s
  end.

(** [Scanner::~Scanner]: the checks, then the scanner leaves the registry. *)
Definition Scanner_delete (s : Scanner) : Res unit :=
  _ <- do_destructor_checks s ;; Ret tt.

(** The loop [for (auto* scanner : get_all_scanners())] of the success
    verdicts; the registry in iteration order. *)
Fixpoint check_all_scanners (scanners : list Scanner) : Res (list Scanner) :=
  match scanners with
  | [] => Ret []
  | s :: rest =>
      s1 <- do_destructor_checks s ;;
      rest1 <- check_all_scanners rest ;;
      Ret (s1 :: rest1)%list
  end.

(** [CheckerVerdict::exit_ok]. *)
Definition exit_ok (scanners : list Scanner) : Res Empty_set :=
  _ <- check_all_scanners scanners ;;
  Stop (Exits 0 Cout ("OK" ++ LF ++ LF ++ "100" ++ LF)).

(** [CheckerVerdict::exit_ok_with_score]. *)
Definition exit_ok_with_score (score : Z) (msg : list string) (scanners : list Scanner)
    : Res Empty_set :=
  if negb ((0 <=? score) && (score <=? 100)) then Stop Crashes
  else
    _ <- (if score =? 100 then check_all_scanners scanners else Ret scanners) ;;
    Stop (Exits 0 Cout ("OK" ++ LF ++ print_all msg ++ LF ++ show_int score ++ LF)).

(** [inwer_verdict.exit_ok() << ...]: [Stream::operator()] with
    [exit_code == 0], then the printed pieces. *)
Definition inwer_exit_ok (msg : list string) (scanners : list Scanner) : Res Empty_set :=
  _ <- check_all_scanners scanners ;;
  Stop (StreamImpl_end 0 msg).

End ScannerOps.

(** ** Random *)

Section RandomOps.

(** [__FILE__] and [__PRETTY_FUNCTION__] as the compiler expands them inside
    [oi_assert]; they depend on the build and on the instantiation. *)
Variable file_name : string.
Variable pretty_function : IntTy -> string.

(** The failing branch of [oi_assert(condition)] used without a message. *)
Definition oi_assert_failed (line_ : Z) (func condition : string) : Ending :=
  exit_with_error_msg 3
    [file_name ++ ":"; show_int line_; ": "; func;
     ": Assertion `" ++ condition ++ "` failed"; "."].

(** [std::mt19937_64::min()], [max()], and
    [generator_range_len = max() - min()]. *)
Definition generator_min : Z := 0.
Definition generator_max : Z := 2 ^ 64 - 1.
Definition generator_range_len : Z := generator_max - generator_min.

(** Arithmetic on [uint_fast64_t]. *)
Definition u64 (v : Z) : Z := v mod 2 ^ 64.

(** The rejection loop; the generator is the list of the raw values it will
    produce, and running out of them stands for a loop still running. *)
Fixpoint sample_loop (t : IntTy) (min range_len limit : Z) (draws : list Z)
    : Res (Z * list Z) :=
  match draws with
  | [] => OutOfFuel
  | d :: rest =>
      let val := u64 (d - generator_min) in
      if val >=? limit then sample_loop t min range_len limit rest
      else Ret (wrap t (wrap t (val mod range_len) + min), rest)
  end.

(** [Random::operator()<T>] for an unsigned [T]. *)
Definition Random_unsigned (t : IntTy) (min max : Z) (draws : list Z) : Res (Z * list Z) :=
  if negb (min <=? max) then Stop (oi_assert_failed 988 (pretty_function t) "min <= max")
  else
    let range_len := u64 (u64 (u64 max - u64 min) + 1) in
    if range_len =? 0 then
      match draws with
      | [] => OutOfFuel
      | d :: rest => Ret (wrap t d, rest)
      end
    else
      let limit := u64 (generator_range_len - generator_range_len mod range_len) in
      sample_loop t min range_len limit draws.

(** [std::make_unsigned_t<T>]. *)
Definition make_unsigned (t : IntTy) : IntTy := mkIntTy false (bits t).

(** [Random::operator()<T>] for an integral [T]. *)
Definition Random_call (t : IntTy) (min max : Z) (draws : list Z) : Res (Z * list Z) :=
  if is_signed t then
    if negb (min <=? max) then Stop (oi_assert_failed 988 (pretty_function t) "min <= max")
    else
      let ut := make_unsigned t in
      let umin := wrap ut (wrap ut min - wrap ut (T_min t)) in
      let umax := wrap ut (wrap ut max - wrap ut (T_min t)) in
      '(r, rest) <- Random_unsigned ut umin umax draws ;;
      let val := wrap ut (r + wrap ut (T_min t)) in
      Ret (wrap t val, rest)
  else Random_unsigned t min max draws.

(** One raw draw is accepted by the rejection loop. *)
Definition accepted (range_len : Z) (val : Z) : bool :=
  val <? u64 (generator_range_len - generator_range_len mod range_len).

End RandomOps.

(** A raw value of the generator. *)
Definition raw_draw (d : Z) : Prop := 0 <= d < 2 ^ 64.

(** ** Reading the input *)

(** The bytes of a string literal. *)
Definition bytes (s : string) : list byte := list_byte_of_string s.

(** What the scanner has not consumed: the pushed-back item, then the file. *)
Definition unread (s : Scanner) : list byte :=
  if eofed s then []
  else
    match next_char s with
    | None => file s
    | Some c => if c <? 0 then [] else (char_of_int c :: file s)%list
    end.

(** States the scanner can be in: a pushed-back item is a byte or [EOF], and
    nothing is pushed back once the end was delivered. *)
Definition wf (s : Scanner) : Prop :=
  (eofed s = true -> next_char s = None) /\
  (forall c, next_char s = Some c -> c = EOF \/ 0 <= c < 256).

(** The position of the byte that follows [consumed] at the start of a
    stream. *)
Definition pos_after (consumed : list byte) : Pos :=
  fold_left (fun p b => advance (int_of_byte b) p) consumed (mkPos 1 1).

(** [n] calls of [getchar] in a row. *)
Fixpoint getchar_n (n : nat) (s : Scanner) : Scanner :=
  match n with
  | O => s
  | S n' => getchar_n n' (snd (getchar 0 s))
  end.

Definition is_digit_byte (b : byte) : bool := isdigit (int_of_byte b).
Definition is_space_byte (b : byte) : bool := isspace (int_of_byte b).

(** The run stops at [rest]: the end, or a byte that is not a digit. *)
Definition no_digit_ahead (rest : list byte) : bool :=
  match rest with
  | [] => true
  | b :: _ => negb (is_digit_byte b)
  end.

Definition not_newline (b : byte) : bool := negb (int_of_byte b =? 10).

(** The longest prefix whose bytes satisfy [p], and what follows it. *)
Fixpoint take_while (p : byte -> bool) (l : list byte) : list byte :=
  match l with
  | [] => []
  | b :: r => if p b then b :: take_while p r else []
  end.
Fixpoint drop_while (p : byte -> bool) (l : list byte) : list byte :=
  match l with
  | [] => []
  | b :: r => if p b then drop_while p r else l
  end.

(** A chain [s >> c1 >> c2 >> ...] of literal matches. *)
Fixpoint op_chars (cv : CheckerVerdict) (cs : list Z) (s : Scanner) : Res Scanner :=
  match cs with
  | [] => Ret s
  | c :: cs' => s1 <- op_char cv c s ;; op_chars cv cs' s1
  end.

(** The pieces [Scanner::error] puts in front of the message for a position. *)
Definition located (l : Lang) (p : Pos) : list string :=
  match l with
  | EN => ["Line "; show_int (line p); ", position "; show_int (pos p); ": "]
  | PL => ["Wiersz "; show_int (line p); ", pozycja "; show_int (pos p); ": "]
  end.

(** The position of the [k]-th unread byte (counting from 0); for [k] the
    number of unread bytes, the position of the end of the stream. *)
Definition byte_pos (s : Scanner) (k : nat) : Pos :=
  fold_left (fun p b => advance (int_of_byte b) p) (firstn k (unread s)) (next_char_pos s).

(** The state [getchar] leaves after delivering the byte [b], with [rest]
    still in the file. *)
Definition consume (b : byte) (rest : list byte) (s : Scanner) : Scanner :=
  {| file := rest; mode := mode s; lang := lang s;
     next_char_pos := advance (int_of_byte b) (next_char_pos s);
     last_char_pos := next_char_pos s;
     prev_last_char_pos := last_char_pos s;
     eofed := false;
     next_char := None;
     delayed_unread_chars := delayed_unread_chars s |}.

(** The state [ungetchar ch] produces when nothing is pushed back yet. *)
Definition pushback (ch : Z) (s : Scanner) : Scanner :=
  {| file := file s; mode := mode s; lang := lang s;
     next_char_pos := last_char_pos s;
     last_char_pos := prev_last_char_pos s;
     prev_last_char_pos := prev_last_char_pos s;
     eofed := false;
     next_char := Some ch;
     delayed_unread_chars := delayed_unread_chars s |}.

(** One round of the digit loop of [scan_integer] on exact integers. *)
Definition accum (minus : bool) (acc : Z) (b : byte) : Z :=
  if minus then acc * 10 - (int_of_byte b - 48) else acc * 10 + (int_of_byte b - 48).

(** The number written by an optional ['-'] and a run of digits. *)
Definition signed_value (minus : bool) (ds : list byte) : Z :=
  fold_left (accum minus) ds 0.

(** The bytes of the optional sign. *)
Definition sign_bytes (minus : bool) : list byte :=
  if minus then ["-"%byte] else [].

(** What the specification names as the position of a failure: that of the
    last byte of [consumed], the bytes taken from the stream so far. *)
Definition spec_failure_pos (consumed : list byte) : Pos :=
  pos_after (removelast consumed).

Definition lenient (m : Mode) : bool :=
  match m with UserOutput | Lax => true | TestInput => false end.

(** The tag [operator>>(const char&)] enqueues for a whitespace literal. *)
Definition delayed_tag (c : Z) : DelayedUnreadChars :=
  if c =? 10 then NEWLINE else WHITESPACE.

(** No round of the digit loop overflows [T] on the digits [ds], starting
    from the value [val]: neither the multiplication nor the addition or
    subtraction. *)
Fixpoint all_fit (t : IntTy) (minus : bool) (val : Z) (ds : list byte) : bool :=
  match ds with
  | [] => true
  | b :: ds' =>
      fits t (val * 10) && fits t (accum minus val b) &&
      all_fit t minus (accum minus val b) ds'
  end.

(** The digit [d] is the first to overflow after the digits [ds]. *)
Definition overflows_at (t : IntTy) (minus : bool) (val : Z) (ds : list byte) (d : byte) : Prop :=
  all_fit t minus val ds = true /\
  fits t (fold_left (accum minus) ds val * 10) &&
  fits t (accum minus (fold_left (accum minus) ds val) d) = false.

(** The integral types of the source have at least the eight bits of [char]. *)
Definition valid_ty (t : IntTy) : Prop := 8 <= bits t.

(** What the specification says of a range that spans the full width of the
    type: one raw draw, converted to the type. *)
Definition spec_full_width_sample (t : IntTy) (draws : list Z) : Res (Z * list Z) :=
  match draws with
  | [] => OutOfFuel
  | d :: rest => Ret (wrap t d, rest)
  end.

(** ** Further operations and notions *)

(** A whitespace byte other than newline. *)
Definition is_inline_space (b : byte) : bool := is_space_byte b && not_newline b.

(** [strchr(variants, ch) != nullptr]: [ch] is converted to [char], and the
    terminating NUL of the C string [variants] counts as part of it.
    [variants] holds the bytes before the terminator. *)
Definition strchr_found (variants : list byte) (ch : Z) : bool :=
  existsb (Byte.eqb (char_of_int ch)) variants || Byte.eqb (char_of_int ch) x00.

(** [Scanner::operator>>(Char chr)]; returns the new [chr.var]. *)
Definition op_Char (cv : CheckerVerdict) (variants : list byte) (s : Scanner)
    : Res (byte * Scanner) :=
  s1 <- read_delayed_unread_chars cv s ;;
  s2 <- skip_ws_if_lenient cv s1 ;;
  let '(ok, ch, s3) := getchar 0 s2 in
  if negb ok then
    match lang s3 with
    | EN => Stop (error cv s3 ["Read EOF, expected one of characters: ";
                               string_of_list_byte variants])
    | PL => Stop (error cv s3 ["Wczytano EOF, oczekiwano jednego ze znakow: ";
                               string_of_list_byte variants])
    end
  else if negb (strchr_found variants ch) then
    match lang s3 with
    | EN => Stop (error cv s3 ["Read "; char_description ch;
                               ", expected one of characters: ";
                               string_of_list_byte variants])
    | PL => Stop (error cv s3 ["Wczytano "; char_description ch;
                               ", oczekiwano jednego ze znakow: ";
                               string_of_list_byte variants])
    end
  else Ret (char_of_int ch, s3).

(** The states a tool can reach: [wf], and a TestInput scanner never has a
    deferred match queued. *)
Definition inv (s : Scanner) : Prop :=
  wf s /\ (mode s = TestInput -> delayed_unread_chars s = []).

(** The run neither aborts nor outlasts the loop bound of the model; what it
    returns satisfies [P]. *)
Definition safe {A : Type} (P : A -> Prop) (r : Res A) : Prop :=
  match r with
  | Ret a => P a
  | Stop (Exits _ _ _) => True
  | Stop Crashes => False
  | OutOfFuel => False
  end.

(** [s'] is a well-formed state of the same scanner with the same deferred
    matches. *)
Definition keeps (s s' : Scanner) : Prop :=
  wf s' /\ mode s' = mode s /\ lang s' = lang s /\
  delayed_unread_chars s' = delayed_unread_chars s.

(** [s'] is a reachable state of the same scanner. *)
Definition same_scanner (s s' : Scanner) : Prop :=
  inv s' /\ mode s' = mode s /\ lang s' = lang s.

(** What the extraction operators skip first: in UserOutput and Lax mode the
    leading whitespace other than newline, in TestInput mode nothing. *)
Definition skipped_ws (s : Scanner) : list byte :=
  if lenient (mode s) then take_while is_inline_space (unread s) else [].
Definition after_ws (s : Scanner) : list byte :=
  if lenient (mode s) then drop_while is_inline_space (unread s) else unread s.

(** The number of newline bytes of [l], and the number of bytes after the
    last of them. *)
Definition newlines (l : list byte) : nat :=
  List.length (filter (fun b => negb (not_newline b)) l).
Definition column_after (l : list byte) : nat :=
  List.length (take_while not_newline (rev l)).

(** All bytes, in order. *)
Definition all_bytes : list byte := map (fun n => char_of_int (Z.of_nat n)) (seq 0 256).

(** ** Random::shuffle *)

(** [a[i] = x] on a sequence; an index outside it is outside the
    container in the source. *)
Fixpoint set_nth {A : Type} (i : nat) (x : A) (l : list A) : list A :=
  match l, i with
  | [], _ => []
  | _ :: r, O => x :: r
  | a :: r, S i' => a :: set_nth i' x r
  end.

(** [std::swap(begin[i], begin[j])]; [None] when an index is outside the
    sequence, where the source reads outside the container. *)
Definition swap_at {A : Type} (i j : nat) (l : list A) : option (list A) :=
  match nth_error l i, nth_error l j with
  | Some x, Some y => Some (set_nth j x (set_nth i y l))
  | _, _ => None
  end.

(** [decltype(end - begin)], the difference type of the iterators. *)
Definition ptrdiff_t : IntTy := mkIntTy true 64.

Section ShuffleOps.

Variable file_name : string.
Variable pretty_function : IntTy -> string.

(** The loop [for (auto i = end - begin; i > 1;) { --i; ... }] of
    [Random::shuffle], at the value [i] of the counter. *)
Fixpoint shuffle_loop {A : Type} (i : nat) (l : list A) (draws : list Z)
    : Res (list A * list Z) :=
  match i with
  | O => Ret (l, draws)
  | S i' =>
      if Z.of_nat (S i') >? 1 then
        '(j, rest) <- Random_call file_name pretty_function ptrdiff_t 0 (Z.of_nat i') draws ;;
        match swap_at i' (Z.to_nat j) l with
        | Some l' => shuffle_loop i' l' rest
        | None => Stop Crashes
        end
      else Ret (l, draws)
  end.

(** [Random::shuffle(begin, end)] on the sequence [l]. *)
Definition shuffle {A : Type} (l : list A) (draws : list Z) : Res (list A * list Z) :=
  shuffle_loop (List.length l) l draws.

End ShuffleOps.

(** ** touchk.cpp: the check of the cycle the user printed *)

(** An element of [vector<tuple<int, int, int>> edges]. *)
Definition Edge : Type := (Z * Z * Z)%type.

(** [edges[id - 1]]; [None] when the index is outside the vector, where
    the source reads outside the container. *)
Definition edge_at (edges : list Edge) (id : Z) : option Edge :=
  if 1 <=? id then nth_error edges (Z.to_nat (id - 1)) else None.

(** [cycle[i]], likewise. *)
Definition cycle_at (cycle : list Z) (i : Z) : option Z :=
  if 0 <=? i then nth_error cycle (Z.to_nat i) else None.

(** The two edges the round [i] of the loop compares. *)
Definition cycle_link (edges : list Edge) (cycle : list Z) (k i : Z) : option (Edge * Edge) :=
  match cycle_at cycle i, cycle_at cycle ((i + 1) mod k) with
  | Some x, Some y =>
      match edge_at edges x, edge_at edges y with
      | Some e1, Some e2 => Some (e1, e2)
      | _, _ => None
      end
  | _, _ => None
  end.

(** The loop [for (int i = 0; i < k; ++i)] of [checker], with [n] rounds
    left at the counter [i]. *)
Fixpoint cycle_loop (cv : CheckerVerdict) (edges : list Edge) (cycle : list Z) (k : Z)
    (i : Z) (n : nat) : Res unit :=
  match n with
  | O => Ret tt
  | S n' =>
      match cycle_link edges cycle k i with
      | Some ((a, b, c), (d, e, f)) =>
          if negb (b =? d) || (c =? f) then Stop (exit_wrong [] cv)
          else cycle_loop cv edges cycle k (i + 1) n'
      | None => Stop Crashes
      end
  end.

(** The whole loop, for the [k] ids of [cycle]. *)
Definition check_cycle (cv : CheckerVerdict) (edges : list Edge) (cycle : list Z) : Res unit :=
  cycle_loop cv edges cycle (Z.of_nat (List.length cycle)) 0 (List.length cycle).

(** Edge [i] of the cycle ends where the next one (cyclically) starts, with
    another label. *)
Definition link_ok (edges : list Edge) (cycle : list Z) (i : Z) : Prop :=
  match cycle_link edges cycle (Z.of_nat (List.length cycle)) i with
  | Some ((a, b, c), (d, e, f)) => b = d /\ c <> f
  | None => False
  end.

(** ** detail::checker_test: splitting the test description *)

Fixpoint is_prefix (p l : list byte) : bool :=
  match p, l with
  | [], _ => true
  | _ :: _, [] => false
  | x :: p', y :: l' => Byte.eqb x y && is_prefix p' l'
  end.

(** The first index at which [delim] occurs in [l]. *)
Fixpoint find_first (delim l : list byte) : option nat :=
  if is_prefix delim l then Some O
  else
    match l with
    | [] => None
    | _ :: r => option_map S (find_first delim r)
    end.

(** [data.find(delim, start_pos)]; [None] is [string::npos]. *)
Definition string_find (data delim : list byte) (start_pos : nat) : option nat :=
  if Nat.leb start_pos (List.length data)
  then option_map (Nat.add start_pos) (find_first delim (skipn start_pos data))
  else None.

(** The lambda [find_beg_of]. *)
Definition find_beg_of (data delim : list byte) (start_pos : nat) : Res nat :=
  match string_find data delim start_pos with
  | None => Stop (bug ["Could not find "; string_of_list_byte delim; " in the test string"])
  | Some delim_pos => Ret (delim_pos + List.length delim)%nat
  end.

(** [string{data.begin() + from, data.begin() + to}]. *)
Definition substring (data : list byte) (from to : nat) : list byte :=
  firstn (to - from) (skipn from data).

Definition test_in_str : list byte := bytes "@test_in" ++ [x0a].
Definition test_out_str : list byte := bytes "@test_out" ++ [x0a].
Definition user_str : list byte := bytes "@user" ++ [x0a].
Definition checker_str : list byte := bytes "@checker" ++ [x0a].

(** [detail::checker_test(test_name, data)] up to its call of the
    five-argument overload: the test input, the test output, the user output
    and the expected checker output. *)
Definition checker_test_parts (data : list byte)
    : Res (list byte * list byte * list byte * list byte) :=
  test_in_beg <- find_beg_of data test_in_str 0 ;;
  test_out_beg <- find_beg_of data test_out_str test_in_beg ;;
  user_beg <- find_beg_of data user_str test_out_beg ;;
  checker_beg <- find_beg_of data checker_str user_beg ;;
  Ret (substring data test_in_beg (test_out_beg - List.length test_out_str),
       substring data test_out_beg (user_beg - List.length user_str),
       substring data user_beg (checker_beg - List.length checker_str),
       skipn checker_beg data).

(** ** Basic facts *)

Lemma int_of_byte_range (b : byte) : 0 <= int_of_byte b < 256.
Proof.
  unfold int_of_byte. pose proof (Byte.to_N_bounded b) as H.
  split; [apply N2Z.is_nonneg|]. lia.
Qed.

Lemma char_of_int_of_byte (b : byte) : char_of_int (int_of_byte b) = b.
Proof.
  unfold char_of_int. rewrite Z.mod_small by apply int_of_byte_range.
  unfold int_of_byte. rewrite N2Z.id, Byte.of_to_N. reflexivity.
Qed.

Lemma int_of_char_of_int (c : Z) : 0 <= c < 256 -> int_of_byte (char_of_int c) = c.
Proof.
  intros Hc. unfold char_of_int. rewrite Z.mod_small by exact Hc.
  destruct (Byte.of_N (Z.to_N c)) as [b|] eqn:E.
  - apply Byte.to_of_N in E. unfold int_of_byte. rewrite E. lia.
  - apply Byte.of_N_None_iff in E. lia.
Qed.

Lemma append_assoc (a b c : string) : (a ++ b) ++ c = a ++ (b ++ c).
Proof. induction a as [|x a IH]; cbn; [reflexivity|]. rewrite IH. reflexivity. Qed.

Lemma append_nil_r (a : string) : a ++ "" = a.
Proof. induction a as [|x a IH]; cbn; [reflexivity|]. rewrite IH. reflexivity. Qed.

(** Brings printed text to one right-nested chain of pieces. *)
Ltac norm_text :=
  repeat (progress (cbn [app List.length Nat.eqb print_all String.concat append];
                    rewrite ?append_assoc, ?append_nil_r)).

Lemma error_located (cv : CheckerVerdict) (s : Scanner) (msg : list string) :
  error cv s msg = do_error cv (mode s) (located (lang s) (last_char_pos s) ++ msg)%list.
Proof. unfold error, located. destruct (lang s); reflexivity. Qed.

(** ** [getchar] and [ungetchar] on the unread bytes *)

Lemma getchar_cons (ch : Z) (s : Scanner) (b : byte) (r : list byte) :
  wf s -> unread s = (b :: r)%list ->
  getchar ch s = (true, int_of_byte b, consume b r s).
Proof.
  intros [_ Hnc] Hu. unfold unread in Hu. unfold getchar, consume.
  destruct (eofed s); [discriminate|].
  destruct (next_char s) as [c|] eqn:Enc.
  - destruct (c <? 0) eqn:Eneg; [discriminate|].
    apply Z.ltb_ge in Eneg.
    injection Hu as Hb Hr. subst b r.
    assert (Hc : 0 <= c < 256).
    { destruct (Hnc c eq_refl) as [He|Hr]; [unfold EOF in He; lia|exact Hr]. }
    rewrite (int_of_char_of_int c Hc).
    replace (c =? EOF) with false by (symmetry; apply Z.eqb_neq; unfold EOF; lia).
    reflexivity.
  - rewrite Hu.
    pose proof (int_of_byte_range b) as Hb.
    replace (int_of_byte b =? EOF) with false
      by (symmetry; apply Z.eqb_neq; unfold EOF; lia).
    reflexivity.
Qed.

Lemma getchar_nil (ch : Z) (s : Scanner) :
  wf s -> unread s = [] ->
  exists ch1 s1,
    getchar ch s = (false, ch1, s1) /\
    next_char s1 = None /\ eofed s1 = true /\
    mode s1 = mode s /\ lang s1 = lang s /\
    delayed_unread_chars s1 = delayed_unread_chars s /\
    (eofed s = false -> last_char_pos s1 = next_char_pos s).
Proof.
  intros [He Hnc] Hu. unfold unread in Hu. unfold getchar.
  destruct (eofed s) eqn:Ee.
  - exists ch, s. repeat split; auto. discriminate.
  - destruct (next_char s) as [c|] eqn:Enc.
    + destruct (c <? 0) eqn:Eneg; [|discriminate].
      apply Z.ltb_lt in Eneg.
      assert (c = EOF) as -> by (destruct (Hnc c eq_refl); [assumption|lia]).
      eexists _, _. cbn. repeat split; reflexivity.
    + rewrite Hu. eexists _, _. cbn. repeat split; reflexivity.
Qed.

Lemma ungetchar_pushback (ch : Z) (s : Scanner) :
  next_char s = None -> ungetchar ch s = Ret (pushback ch s).
Proof. intros H. unfold ungetchar, pushback. rewrite H. reflexivity. Qed.

Lemma unread_consume (b : byte) (r : list byte) (s : Scanner) : unread (consume b r s) = r.
Proof. reflexivity. Qed.

Lemma wf_consume (b : byte) (r : list byte) (s : Scanner) : wf (consume b r s).
Proof. split; cbn; intros; discriminate. Qed.

Lemma unread_pushback_byte (b : byte) (s : Scanner) :
  unread (pushback (int_of_byte b) s) = (b :: file s)%list.
Proof.
  unfold unread, pushback; cbn.
  pose proof (int_of_byte_range b).
  replace (int_of_byte b <? 0) with false by (symmetry; apply Z.ltb_ge; lia).
  rewrite char_of_int_of_byte. reflexivity.
Qed.

Lemma unread_pushback_EOF (s : Scanner) : unread (pushback EOF s) = [].
Proof. reflexivity. Qed.

Lemma wf_pushback_byte (b : byte) (s : Scanner) : wf (pushback (int_of_byte b) s).
Proof.
  split; cbn; [discriminate|].
  intros c Hc. injection Hc as <-. right. apply int_of_byte_range.
Qed.

Lemma wf_pushback_EOF (s : Scanner) : wf (pushback EOF s).
Proof.
  split; cbn; [discriminate|].
  intros c Hc. injection Hc as <-. left. reflexivity.
Qed.

(** Reading a byte again after pushing it back gives the same state. *)
Lemma consume_pushback_consume (b : byte) (r : list byte) (s : Scanner) :
  consume b r (pushback (int_of_byte b) (consume b r s)) = consume b r s.
Proof. reflexivity. Qed.

Lemma wf_Scanner_new (contents : list byte) (m : Mode) (l : Lang) :
  wf (Scanner_new contents m l).
Proof. split; cbn; intros; discriminate. Qed.

Lemma set_delayed_same (s : Scanner) :
  set_delayed (delayed_unread_chars s) s = s.
Proof. destruct s; reflexivity. Qed.

Lemma read_delayed_nothing (cv : CheckerVerdict) (s : Scanner) :
  delayed_unread_chars s = [] -> read_delayed_unread_chars cv s = Ret s.
Proof.
  intros H. unfold read_delayed_unread_chars. rewrite H. cbn.
  rewrite <- H. rewrite set_delayed_same. reflexivity.
Qed.

(** ** Overflow checks *)

Lemma pow2_split (b : Z) : 0 < b -> 2 ^ b = 2 * 2 ^ (b - 1).
Proof.
  intros Hb. replace b with (Z.succ (b - 1)) at 1 by lia.
  rewrite Z.pow_succ_r by lia. reflexivity.
Qed.

Lemma wrap_fits (t : IntTy) (v : Z) : valid_ty t -> fits t v = true -> wrap t v = v.
Proof.
  unfold valid_ty, fits, wrap, T_min, T_max. intros Hb Hf.
  apply andb_prop in Hf as [H1 H2]. apply Z.leb_le in H1, H2.
  assert (Hp : 2 ^ bits t = 2 * 2 ^ (bits t - 1)) by (apply pow2_split; lia).
  assert (0 < 2 ^ (bits t - 1)) by (apply Z.pow_pos_nonneg; lia).
  destruct (is_signed t).
  - rewrite Z.mod_small by lia. lia.
  - apply Z.mod_small. lia.
Qed.

Lemma digit_byte_range (b : byte) : is_digit_byte b = true -> 0 <= int_of_byte b - 48 <= 9.
Proof.
  unfold is_digit_byte, isdigit. intros H.
  apply andb_prop in H as [H1 H2]. apply Z.leb_le in H1, H2. lia.
Qed.

(** ** The digit loop *)

Section DigitLoop.

Variable cv : CheckerVerdict.
Variable t : IntTy.
Hypothesis Ht : valid_ty t.
Variable minus : bool.

Lemma scan_integer_loop_step (fuel : nat) (val ch : Z) (s : Scanner) (b : byte) (r : list byte) :
  wf s -> unread s = (b :: r)%list -> is_digit_byte b = true ->
  fits t (val * 10) = true -> fits t (accum minus val b) = true ->
  scan_integer_loop cv (S fuel) t minus val ch s =
  scan_integer_loop cv fuel t minus (accum minus val b) (int_of_byte b) (consume b r s).
Proof.
  intros Hwf Hu Hd Hm Ha.
  cbn [scan_integer_loop]. rewrite (getchar_cons ch s b r Hwf Hu).
  cbv beta iota. unfold is_digit_byte in Hd. rewrite Hd.
  unfold builtin_mul_overflow, builtin_add_overflow, builtin_sub_overflow.
  cbn [negb]. rewrite Hm. cbn [negb].
  rewrite (wrap_fits t (val * 10) Ht Hm).
  unfold accum in Ha |- *.
  destruct minus; cbn [negb]; rewrite Ha; cbn [negb];
    rewrite (wrap_fits t _ Ht Ha); reflexivity.
Qed.

Lemma scan_integer_loop_ok (ds rest : list byte) :
  forall (fuel : nat) (val ch : Z) (s : Scanner),
    wf s -> unread s = (ds ++ rest)%list ->
    forallb is_digit_byte ds = true -> no_digit_ahead rest = true ->
    all_fit t minus val ds = true ->
    (List.length (ds ++ rest) < fuel)%nat ->
    exists s',
      scan_integer_loop cv fuel t minus val ch s = Ret (fold_left (accum minus) ds val, s') /\
      wf s' /\ unread s' = rest /\ mode s' = mode s /\ lang s' = lang s /\
      delayed_unread_chars s' = delayed_unread_chars s.
Proof.
  induction ds as [|b ds IH]; intros fuel val ch s Hwf Hu Hds Hrest Hfit Hfuel.
  - cbn [app] in Hu. destruct fuel as [|fuel]; [cbn in Hfuel; lia|].
    cbn [scan_integer_loop fold_left].
    destruct rest as [|c rest'].
    + destruct (getchar_nil ch s Hwf Hu) as (ch1 & s1 & Hg & Hn & _ & Hm & Hl & Hq & _).
      rewrite Hg. cbv beta iota. cbn [negb].
      rewrite (ungetchar_pushback EOF s1 Hn). cbn [bind].
      eexists. split; [reflexivity|].
      split; [apply wf_pushback_EOF|]. split; [reflexivity|].
      cbn. auto.
    + rewrite (getchar_cons ch s c rest' Hwf Hu). cbv beta iota. cbn [negb].
      cbn [no_digit_ahead] in Hrest. unfold is_digit_byte in Hrest. rewrite Hrest.
      rewrite ungetchar_pushback by reflexivity. cbn [bind].
      eexists. split; [reflexivity|].
      split; [apply wf_pushback_byte|]. split; [apply unread_pushback_byte|].
      cbn. auto.
  - cbn [app] in Hu. destruct fuel as [|fuel]; [cbn in Hfuel; lia|].
    cbn [forallb] in Hds. apply andb_prop in Hds as [Hb Hds].
    cbn [all_fit] in Hfit. apply andb_prop in Hfit as [Hfit Hfit'].
    apply andb_prop in Hfit as [Hm Ha].
    rewrite (scan_integer_loop_step fuel val ch s b (ds ++ rest) Hwf Hu Hb Hm Ha).
    cbn [fold_left].
    destruct (IH fuel (accum minus val b) (int_of_byte b) (consume b (ds ++ rest) s))
      as (s' & Hr & Hwf' & Hu' & Hm' & Hl' & Hq'); auto.
    + apply wf_consume.
    + cbn [List.length app] in Hfuel. lia.
    + exists s'. split; [exact Hr|]. split; [exact Hwf'|]. split; [exact Hu'|].
      split; [exact Hm'|]. split; [exact Hl'|exact Hq'].
Qed.

Lemma scan_integer_loop_overflow (ds : list byte) (d : byte) (rest : list byte) :
  forall (fuel : nat) (val ch : Z) (s : Scanner),
    wf s -> unread s = (ds ++ d :: rest)%list ->
    forallb is_digit_byte ds = true -> is_digit_byte d = true ->
    overflows_at t minus val ds d ->
    (List.length (ds ++ d :: rest) < fuel)%nat ->
    scan_integer_loop cv fuel t minus val ch s =
    Stop (error cv (getchar_n (S (List.length ds)) s) [integer_value_out_of_range (lang s)]).
Proof.
  induction ds as [|b ds IH]; intros fuel val ch s Hwf Hu Hds Hd [Hfit Hover] Hfuel.
  - cbn [app] in Hu. destruct fuel as [|fuel]; [cbn in Hfuel; lia|].
    cbn [scan_integer_loop List.length getchar_n fold_left] in *.
    rewrite (getchar_cons ch s d rest Hwf Hu), (getchar_cons 0 s d rest Hwf Hu).
    cbv beta iota. cbn [snd negb]. unfold is_digit_byte in Hd. rewrite Hd.
    unfold builtin_mul_overflow, builtin_add_overflow, builtin_sub_overflow.
    cbn [negb].
    destruct (fits t (val * 10)) eqn:Hm; cbn [negb]; [|reflexivity].
    rewrite (wrap_fits t (val * 10) Ht Hm).
    cbn [andb] in Hover. unfold accum in Hover.
    destruct minus; cbn [negb]; rewrite Hover; cbn [negb]; reflexivity.
  - cbn [app] in Hu. destruct fuel as [|fuel]; [cbn in Hfuel; lia|].
    cbn [forallb] in Hds. apply andb_prop in Hds as [Hb Hds].
    cbn [all_fit] in Hfit. apply andb_prop in Hfit as [Hfit Hfit'].
    apply andb_prop in Hfit as [Hm Ha].
    rewrite (scan_integer_loop_step fuel val ch s b (ds ++ d :: rest) Hwf Hu Hb Hm Ha).
    cbn [fold_left] in Hover.
    rewrite (IH fuel (accum minus val b) (int_of_byte b) (consume b (ds ++ d :: rest) s)); auto.
    + cbn [List.length]. cbn [getchar_n].
      rewrite (getchar_cons 0 s b (ds ++ d :: rest) Hwf Hu). reflexivity.
    + apply wf_consume.
    + split; assumption.
    + cbn [List.length app] in Hfuel. lia.
Qed.

End DigitLoop.

(** ** Positions of the bytes [getchar] delivers *)

Lemma byte_pos_consume (s : Scanner) (b : byte) (r : list byte) (k : nat) :
  unread s = (b :: r)%list -> byte_pos (consume b r s) k = byte_pos s (S k).
Proof. intros Hu. unfold byte_pos. rewrite Hu. reflexivity. Qed.

Lemma getchar_n_consume (s : Scanner) (b : byte) (r : list byte) (k : nat) :
  wf s -> unread s = (b :: r)%list -> getchar_n (S k) s = getchar_n k (consume b r s).
Proof. intros Hwf Hu. cbn [getchar_n]. rewrite (getchar_cons 0 s b r Hwf Hu). reflexivity. Qed.

Lemma getchar_n_byte (k : nat) :
  forall s, wf s -> (k < List.length (unread s))%nat ->
    last_char_pos (getchar_n (S k) s) = byte_pos s k /\
    mode (getchar_n (S k) s) = mode s /\ lang (getchar_n (S k) s) = lang s.
Proof.
  induction k as [|k IH]; intros s Hwf Hk.
  - destruct (unread s) as [|b r] eqn:Hu; [cbn in Hk; lia|].
    rewrite (getchar_n_consume s b r 0 Hwf Hu). cbn [getchar_n].
    unfold byte_pos. cbn. auto.
  - destruct (unread s) as [|b r] eqn:Hu; [cbn in Hk; lia|].
    rewrite (getchar_n_consume s b r (S k) Hwf Hu).
    destruct (IH (consume b r s)) as (Hp & Hm & Hl).
    + apply wf_consume.
    + rewrite unread_consume. cbn in Hk. lia.
    + rewrite Hp, Hm, Hl. rewrite (byte_pos_consume s b r k Hu). cbn. auto.
Qed.

Lemma getchar_n_end (k : nat) :
  forall s, wf s -> eofed s = false -> k = List.length (unread s) ->
    last_char_pos (getchar_n (S k) s) = byte_pos s k.
Proof.
  induction k as [|k IH]; intros s Hwf He Hk.
  - destruct (unread s) as [|b r] eqn:Hu; [|discriminate].
    cbn [getchar_n].
    destruct (getchar_nil 0 s Hwf Hu) as (ch1 & s1 & Hg & _ & _ & _ & _ & _ & Hp).
    rewrite Hg. cbn [snd]. rewrite (Hp He). reflexivity.
  - destruct (unread s) as [|b r] eqn:Hu; [discriminate|].
    rewrite (getchar_n_consume s b r (S k) Hwf Hu).
    rewrite (IH (consume b r s)).
    + apply (byte_pos_consume s b r k Hu).
    + apply wf_consume.
    + reflexivity.
    + rewrite unread_consume. cbn in Hk. lia.
Qed.

Lemma error_at_byte (cv : CheckerVerdict) (s : Scanner) (k : nat) (msg : list string) :
  wf s -> (k < List.length (unread s))%nat ->
  error cv (getchar_n (S k) s) msg =
  do_error cv (mode s) (located (lang s) (byte_pos s k) ++ msg)%list.
Proof.
  intros Hwf Hk. rewrite error_located.
  destruct (getchar_n_byte k s Hwf Hk) as (Hp & Hm & Hl).
  rewrite Hp, Hm, Hl. reflexivity.
Qed.

Lemma byte_pos_Scanner_new (contents : list byte) (m : Mode) (l : Lang) (k : nat) :
  byte_pos (Scanner_new contents m l) k = pos_after (firstn k contents).
Proof. reflexivity. Qed.

(** ** Skipping whitespace in front of a token *)

Lemma skip_ws_nonspace (cv : CheckerVerdict) (s : Scanner) (b : byte) (r : list byte) :
  wf s -> delayed_unread_chars s = [] -> unread s = (b :: r)%list ->
  is_space_byte b = false ->
  exists s2,
    skip_ws_if_lenient cv s = Ret s2 /\
    wf s2 /\ unread s2 = (b :: r)%list /\ consume b r s2 = consume b r s /\
    mode s2 = mode s /\ lang s2 = lang s /\ delayed_unread_chars s2 = [] /\
    next_char_pos s2 = next_char_pos s.
Proof.
  intros Hwf Hq Hu Hsp.
  assert (Hgo : op_ignore_ws cv s = Ret (pushback (int_of_byte b) (consume b r s))).
  { unfold op_ignore_ws. rewrite (read_delayed_nothing cv s Hq). cbn [bind].
    unfold fuel_of. cbn [ignore_ws_loop].
    rewrite (getchar_cons 0 s b r Hwf Hu). cbv beta iota. cbn [negb].
    unfold is_space_byte in Hsp. rewrite Hsp. cbn [negb]. rewrite orb_true_r.
    apply ungetchar_pushback. reflexivity. }
  unfold skip_ws_if_lenient.
  destruct (mode s) eqn:Em.
  1,2: rewrite Hgo; eexists; split; [reflexivity|];
       split; [apply wf_pushback_byte|];
       split; [apply unread_pushback_byte|];
       cbn; auto 10.
  exists s. auto 10.
Qed.

(** ** [scan_integer] and [operator>>(Num<T>)] *)

Lemma pow2_ge_128 (t : IntTy) : valid_ty t -> 128 <= 2 ^ (bits t - 1).
Proof.
  unfold valid_ty. intros H. change 128 with (2 ^ 7).
  apply Z.pow_le_mono_r; lia.
Qed.

Lemma first_digit_fits (t : IntTy) (minus : bool) (b : byte) :
  valid_ty t -> (minus = true -> is_signed t = true) -> is_digit_byte b = true ->
  fits t (accum minus 0 b) = true /\
  wrap t (if minus then 48 - int_of_byte b else int_of_byte b - 48) = accum minus 0 b.
Proof.
  intros Ht Hs Hd. pose proof (digit_byte_range b Hd) as Hr.
  pose proof (pow2_ge_128 t Ht) as Hp.
  assert (Hq : 2 ^ bits t = 2 * 2 ^ (bits t - 1)) by (apply pow2_split; unfold valid_ty in Ht; lia).
  assert (Hf : fits t (accum minus 0 b) = true).
  { unfold fits, accum, T_min, T_max. apply andb_true_intro.
    destruct minus.
    - rewrite (Hs eq_refl). split; apply Z.leb_le; lia.
    - destruct (is_signed t); split; apply Z.leb_le; lia. }
  split; [exact Hf|].
  rewrite <- (wrap_fits t _ Ht Hf). f_equal. unfold accum. destruct minus; lia.
Qed.

Lemma digit_checks (b : byte) :
  is_digit_byte b = true ->
  (int_of_byte b =? 45) = false /\
  ((int_of_byte b <? 48) || (57 <? int_of_byte b)) = false /\
  is_space_byte b = false.
Proof.
  intros Hd. pose proof (digit_byte_range b Hd) as Hr.
  unfold is_space_byte, isspace.
  repeat split.
  - apply Z.eqb_neq. lia.
  - apply orb_false_intro; apply Z.ltb_ge; lia.
  - apply orb_false_intro; [apply Z.eqb_neq; lia|].
    apply andb_false_intro2. apply Z.leb_gt. lia.
Qed.

Lemma byte_pos_ext (s s2 : Scanner) (k : nat) :
  unread s2 = unread s -> next_char_pos s2 = next_char_pos s -> byte_pos s2 k = byte_pos s k.
Proof. intros Hu Hp. unfold byte_pos. rewrite Hu, Hp. reflexivity. Qed.

Section ScanInteger.

Variable cv : CheckerVerdict.
Variable t : IntTy.
Hypothesis Ht : valid_ty t.
Variable minus : bool.
Hypothesis Hsigned : minus = true -> is_signed t = true.

(** The start of [scan_integer]: the sign and the first digit. *)
Lemma scan_integer_start (s : Scanner) (b : byte) (r : list byte) :
  wf s -> unread s = (sign_bytes minus ++ b :: r)%list -> is_digit_byte b = true ->
  exists s1,
    scan_integer cv t s =
    scan_integer_loop cv (S (S (List.length r))) t minus (accum minus 0 b)
      (int_of_byte b) (consume b r s1) /\
    wf s1 /\ unread s1 = (b :: r)%list /\
    mode s1 = mode s /\ lang s1 = lang s /\
    delayed_unread_chars s1 = delayed_unread_chars s /\
    forall k, byte_pos s1 k = byte_pos s (List.length (sign_bytes minus) + k).
Proof.
  intros Hwf Hu Hd.
  destruct (digit_checks b Hd) as (H45 & Hnd & _).
  destruct (first_digit_fits t minus b Ht Hsigned Hd) as (_ & Hw).
  unfold scan_integer. destruct minus eqn:Eminus; cbn [sign_bytes app] in Hu.
  - exists (consume "-"%byte (b :: r) s).
    rewrite (getchar_cons 0 s _ _ Hwf Hu). cbv beta iota. cbn [negb].
    change (int_of_byte "-" =? 45) with true. cbv iota.
    rewrite (Hsigned eq_refl). cbn [negb].
    rewrite (getchar_cons _ _ b r (wf_consume _ _ _) (unread_consume _ _ _)).
    cbv beta iota. cbn [negb bind]. rewrite Hnd. rewrite Hw.
    split; [reflexivity|].
    split; [apply wf_consume|]. split; [reflexivity|].
    split; [reflexivity|]. split; [reflexivity|]. split; [reflexivity|].
    intros k. apply (byte_pos_consume s _ _ k Hu).
  - exists s.
    rewrite (getchar_cons 0 s _ _ Hwf Hu). cbv beta iota. cbn [negb].
    rewrite H45. cbn [bind]. rewrite Hnd. rewrite Hw.
    split; [reflexivity|]. auto 10.
Qed.

Lemma scan_integer_ok (s : Scanner) (b : byte) (ds rest : list byte) :
  wf s -> unread s = (sign_bytes minus ++ (b :: ds) ++ rest)%list ->
  is_digit_byte b = true -> forallb is_digit_byte ds = true ->
  no_digit_ahead rest = true ->
  all_fit t minus (accum minus 0 b) ds = true ->
  exists s',
    scan_integer cv t s = Ret (signed_value minus (b :: ds), s') /\
    wf s' /\ unread s' = rest /\ mode s' = mode s /\ lang s' = lang s /\
    delayed_unread_chars s' = delayed_unread_chars s.
Proof.
  intros Hwf Hu Hb Hds Hrest Hfit.
  destruct (scan_integer_start s b (ds ++ rest) Hwf Hu Hb)
    as (s1 & Hgo & Hwf1 & Hu1 & Hm1 & Hl1 & Hq1 & _).
  rewrite Hgo.
  destruct (scan_integer_loop_ok cv t Ht minus ds rest
              (S (S (List.length (ds ++ rest)))) (accum minus 0 b) (int_of_byte b)
              (consume b (ds ++ rest) s1))
    as (s' & Hr & Hwf' & Hu' & Hm' & Hl' & Hq'); auto.
  - apply wf_consume.
  - exists s'. split; [exact Hr|]. split; [exact Hwf'|]. split; [exact Hu'|].
    split; [rewrite Hm'; exact Hm1|]. split; [rewrite Hl'; exact Hl1|].
    rewrite Hq'. exact Hq1.
Qed.

Lemma scan_integer_overflow (s : Scanner) (b : byte) (ds : list byte) (d : byte)
    (rest : list byte) :
  wf s -> unread s = (sign_bytes minus ++ (b :: ds) ++ d :: rest)%list ->
  is_digit_byte b = true -> forallb is_digit_byte ds = true -> is_digit_byte d = true ->
  overflows_at t minus (accum minus 0 b) ds d ->
  scan_integer cv t s =
  Stop (do_error cv (mode s)
          (located (lang s) (byte_pos s (List.length (sign_bytes minus ++ b :: ds)))
           ++ [integer_value_out_of_range (lang s)])%list).
Proof.
  intros Hwf Hu Hb Hds Hd Hover.
  destruct (scan_integer_start s b (ds ++ d :: rest) Hwf Hu Hb)
    as (s1 & Hgo & Hwf1 & Hu1 & Hm1 & Hl1 & Hq1 & Hpos).
  rewrite Hgo.
  rewrite (scan_integer_loop_overflow cv t Ht minus ds d rest); auto.
  - rewrite error_at_byte.
    + cbn [mode lang consume]. rewrite Hm1, Hl1.
      rewrite (byte_pos_consume s1 b _ _ Hu1). rewrite Hpos.
      rewrite length_app. cbn [List.length].
      reflexivity.
    + apply wf_consume.
    + rewrite unread_consume, length_app. cbn. lia.
  - apply wf_consume.
Qed.

End ScanInteger.

(** ** Exact values of digit runs *)

Lemma fits_iff (t : IntTy) (v : Z) : fits t v = true <-> T_min t <= v <= T_max t.
Proof.
  unfold fits. rewrite andb_true_iff, !Z.leb_le. reflexivity.
Qed.

Lemma T_min_max_sign (t : IntTy) : valid_ty t -> T_min t <= 0 <= T_max t.
Proof.
  intros Ht. pose proof (pow2_ge_128 t Ht) as Hp.
  assert (Hq : 2 ^ bits t = 2 * 2 ^ (bits t - 1)) by (apply pow2_split; unfold valid_ty in Ht; lia).
  unfold T_min, T_max. destruct (is_signed t); lia.
Qed.

Lemma fold_accum_monotone (minus : bool) (ds : list byte) :
  forall v, forallb is_digit_byte ds = true ->
    (if minus then v <= 0 else 0 <= v) ->
    if minus then fold_left (accum minus) ds v <= v else v <= fold_left (accum minus) ds v.
Proof.
  destruct minus.
  - induction ds as [|b ds IH]; intros v Hds Hv; cbn [fold_left]; [lia|].
    cbn [forallb] in Hds. apply andb_prop in Hds as [Hb Hds].
    pose proof (digit_byte_range b Hb) as Hr.
    assert (Hw : accum true v b <= v /\ accum true v b <= 0) by (unfold accum; lia).
    specialize (IH (accum true v b) Hds (proj2 Hw)). lia.
  - induction ds as [|b ds IH]; intros v Hds Hv; cbn [fold_left]; [lia|].
    cbn [forallb] in Hds. apply andb_prop in Hds as [Hb Hds].
    pose proof (digit_byte_range b Hb) as Hr.
    assert (Hw : v <= accum false v b /\ 0 <= accum false v b) by (unfold accum; lia).
    specialize (IH (accum false v b) Hds (proj2 Hw)). lia.
Qed.

Lemma all_fit_of_final (t : IntTy) (minus : bool) (ds : list byte) :
  valid_ty t ->
  forall v, forallb is_digit_byte ds = true ->
    (if minus then v <= 0 else 0 <= v) ->
    fits t (fold_left (accum minus) ds v) = true ->
    all_fit t minus v ds = true.
Proof.
  intros Ht. pose proof (T_min_max_sign t Ht) as Hz.
  induction ds as [|b ds IH]; intros v Hds Hv Hf; [reflexivity|].
  cbn [forallb] in Hds. apply andb_prop in Hds as [Hb Hds].
  pose proof (digit_byte_range b Hb) as Hr.
  cbn [fold_left] in Hf. cbn [all_fit].
  assert (Hv' : if minus then accum minus v b <= 0 else 0 <= accum minus v b).
  { unfold accum. destruct minus; lia. }
  pose proof (fold_accum_monotone minus ds (accum minus v b) Hds Hv') as Hmono.
  apply fits_iff in Hf.
  rewrite (IH (accum minus v b) Hds Hv') by (apply fits_iff; exact Hf).
  rewrite andb_true_r. apply andb_true_intro.
  split; apply fits_iff; unfold accum in *; destruct minus; lia.
Qed.

Lemma accum_first_sign (minus : bool) (b : byte) :
  is_digit_byte b = true ->
  if minus then accum minus 0 b <= 0 else 0 <= accum minus 0 b.
Proof.
  intros Hb. pose proof (digit_byte_range b Hb). unfold accum. destruct minus; lia.
Qed.

Lemma sign_not_space (minus : bool) (b : byte) (r : list byte) :
  is_digit_byte b = true ->
  exists c r', (sign_bytes minus ++ b :: r)%list = (c :: r')%list /\ is_space_byte c = false.
Proof.
  intros Hb. destruct minus; cbn [sign_bytes app].
  - eexists _, _. split; reflexivity.
  - eexists _, _. split; [reflexivity|]. apply (digit_checks b Hb).
Qed.

Section OpNum.

Variable cv : CheckerVerdict.
Variable t : IntTy.
Hypothesis Ht : valid_ty t.
Variable minus : bool.
Hypothesis Hsigned : minus = true -> is_signed t = true.

Lemma op_Num_ok (min max : Z) (s : Scanner) (ds rest : list byte) :
  wf s -> delayed_unread_chars s = [] ->
  unread s = (sign_bytes minus ++ ds ++ rest)%list ->
  ds <> [] -> forallb is_digit_byte ds = true -> no_digit_ahead rest = true ->
  fits t (signed_value minus ds) = true ->
  min <= signed_value minus ds <= max ->
  exists s',
    op_Num cv t min max s = Ret (signed_value minus ds, s') /\
    wf s' /\ unread s' = rest /\ delayed_unread_chars s' = [].
Proof.
  intros Hwf Hq Hu Hne Hds Hrest Hfit Hrange.
  destruct ds as [|b ds]; [contradiction|].
  cbn [forallb] in Hds. apply andb_prop in Hds as [Hb Hds].
  cbn [app] in Hu.
  destruct (sign_not_space minus b (ds ++ rest) Hb) as (c & r' & Hcr & Hc).
  rewrite Hcr in Hu.
  destruct (skip_ws_nonspace cv s c r' Hwf Hq Hu Hc)
    as (s2 & Hskip & Hwf2 & Hu2 & _ & Hm2 & Hl2 & Hq2 & _).
  rewrite <- Hcr in Hu2.
  destruct (scan_integer_ok cv t Ht minus Hsigned s2 b ds rest Hwf2 Hu2 Hb Hds Hrest)
    as (s' & Hr & Hwf' & Hu' & _ & _ & Hq').
  { apply all_fit_of_final; auto. apply accum_first_sign; exact Hb. }
  unfold op_Num.
  replace (min <=? max) with true by (symmetry; apply Z.leb_le; lia).
  cbn [negb]. rewrite (read_delayed_nothing cv s Hq). cbn [bind].
  rewrite Hskip. cbn [bind]. rewrite Hr. cbn [bind].
  replace (signed_value minus (b :: ds) <? min) with false
    by (symmetry; apply Z.ltb_ge; lia).
  replace (signed_value minus (b :: ds) >? max) with false
    by (symmetry; rewrite Z.gtb_ltb; apply Z.ltb_ge; lia).
  cbn [orb]. exists s'. split; [reflexivity|]. split; [exact Hwf'|].
  split; [exact Hu'|]. rewrite Hq'. exact Hq2.
Qed.

Lemma op_Num_overflow (min max : Z) (s : Scanner) (ds : list byte) (d : byte)
    (rest : list byte) :
  min <= max ->
  wf s -> delayed_unread_chars s = [] ->
  unread s = (sign_bytes minus ++ ds ++ d :: rest)%list ->
  ds <> [] -> forallb is_digit_byte ds = true -> is_digit_byte d = true ->
  fits t (signed_value minus ds) = true ->
  fits t (signed_value minus (ds ++ [d])) = false ->
  op_Num cv t min max s =
  Stop (do_error cv (mode s)
          (located (lang s) (byte_pos s (List.length (sign_bytes minus ++ ds)))
           ++ [integer_value_out_of_range (lang s)])%list).
Proof.
  intros Hmm Hwf Hq Hu Hne Hds Hd Hfit Hover.
  destruct ds as [|b ds]; [contradiction|].
  cbn [forallb] in Hds. apply andb_prop in Hds as [Hb Hds].
  cbn [app] in Hu.
  destruct (sign_not_space minus b (ds ++ d :: rest) Hb) as (c & r' & Hcr & Hc).
  rewrite Hcr in Hu.
  destruct (skip_ws_nonspace cv s c r' Hwf Hq Hu Hc)
    as (s2 & Hskip & Hwf2 & Hu2 & _ & Hm2 & Hl2 & Hq2 & Hp2).
  assert (Hpos : forall k, byte_pos s2 k = byte_pos s k).
  { intros k. apply byte_pos_ext; [rewrite Hu2, Hu; reflexivity|exact Hp2]. }
  rewrite <- Hcr in Hu2.
  unfold op_Num.
  replace (min <=? max) with true by (symmetry; apply Z.leb_le; lia).
  cbn [negb]. rewrite (read_delayed_nothing cv s Hq). cbn [bind].
  rewrite Hskip. cbn [bind].
  rewrite (scan_integer_overflow cv t Ht minus Hsigned s2 b ds d rest Hwf2 Hu2 Hb Hds Hd).
  - cbn [bind]. rewrite Hm2, Hl2, Hpos. reflexivity.
  - split.
    + apply all_fit_of_final; auto. apply accum_first_sign; exact Hb.
    + unfold signed_value in Hover. rewrite fold_left_app in Hover.
      cbn [fold_left] in Hover. rewrite Hover. apply andb_false_r.
Qed.

End OpNum.

(** ** The loops of [operator>>(Str)] and [operator>>(Line)] *)

Section TokenLoops.

Variable cv : CheckerVerdict.

Lemma str_loop_too_long (max_size : Z) (k : nat) :
  forall (tok rest var : list byte) (fuel : nat) (ch : Z) (s : Scanner),
    wf s -> unread s = (tok ++ rest)%list ->
    forallb (fun b => negb (is_space_byte b)) tok = true ->
    Z.of_nat (List.length var) + Z.of_nat k = max_size ->
    (k <= List.length tok)%nat ->
    (List.length (tok ++ rest) < fuel)%nat ->
    str_loop cv fuel max_size var ch s =
    Stop (error cv (getchar_n k s) [too_long_string (lang s)]).
Proof.
  induction k as [|k IH]; intros tok rest var fuel ch s Hwf Hu Htok Hlen Hk Hfuel;
    (destruct fuel as [|fuel]; [lia|]); cbn [str_loop getchar_n].
  - rewrite length_app. cbn [List.length].
    replace (Z.of_nat (List.length var + 1) >? max_size) with true
      by (symmetry; rewrite Z.gtb_ltb; apply Z.ltb_lt; lia).
    reflexivity.
  - rewrite length_app. cbn [List.length].
    replace (Z.of_nat (List.length var + 1) >? max_size) with false
      by (symmetry; rewrite Z.gtb_ltb; apply Z.ltb_ge; lia).
    destruct tok as [|b tok]; [cbn in Hk; lia|].
    cbn [app] in Hu. cbn [forallb] in Htok. apply andb_prop in Htok as [Hb Htok].
    rewrite (getchar_cons ch s b _ Hwf Hu), (getchar_cons 0 s b _ Hwf Hu).
    cbv beta iota. cbn [negb snd].
    unfold is_space_byte in Hb. apply negb_true_iff in Hb. rewrite Hb.
    rewrite (IH tok rest); auto.
    + apply wf_consume.
    + rewrite length_app. cbn [List.length]. lia.
    + cbn [List.length] in Hk. lia.
    + cbn [List.length app] in Hfuel. lia.
Qed.

Lemma str_loop_ok (max_size : Z) (tok rest : list byte) :
  forall (var : list byte) (fuel : nat) (ch : Z) (s : Scanner),
    wf s -> unread s = (tok ++ rest)%list ->
    forallb (fun b => negb (is_space_byte b)) tok = true ->
    match rest with [] => true | c :: _ => is_space_byte c end = true ->
    Z.of_nat (List.length var) + 1 + Z.of_nat (List.length tok) <= max_size ->
    (List.length (tok ++ rest) < fuel)%nat ->
    exists s',
      str_loop cv fuel max_size var ch s = Ret ((var ++ char_of_int ch :: tok)%list, s') /\
      wf s' /\ unread s' = rest.
Proof.
  induction tok as [|b tok IH]; intros var fuel ch s Hwf Hu Htok Hrest Hlen Hfuel;
    (destruct fuel as [|fuel]; [cbn in Hfuel; lia|]); cbn [str_loop];
    rewrite length_app; cbn [List.length] in *;
    (replace (Z.of_nat (List.length var + 1) >? max_size) with false
      by (symmetry; rewrite Z.gtb_ltb; apply Z.ltb_ge; lia)).
  - cbn [app] in Hu. destruct rest as [|c rest'].
    + destruct (getchar_nil ch s Hwf Hu) as (ch1 & s1 & Hg & Hn & _).
      rewrite Hg. cbv beta iota. cbn [negb].
      rewrite (ungetchar_pushback EOF s1 Hn). cbn [bind].
      eexists. split; [reflexivity|]. split; [apply wf_pushback_EOF|reflexivity].
    + rewrite (getchar_cons ch s c rest' Hwf Hu). cbv beta iota. cbn [negb].
      unfold is_space_byte in Hrest. rewrite Hrest.
      rewrite ungetchar_pushback by reflexivity. cbn [bind].
      eexists. split; [reflexivity|].
      split; [apply wf_pushback_byte|apply unread_pushback_byte].
  - cbn [app] in Hu. cbn [forallb] in Htok. apply andb_prop in Htok as [Hb Htok].
    rewrite (getchar_cons ch s b _ Hwf Hu). cbv beta iota. cbn [negb].
    pose proof Hb as Hb'. unfold is_space_byte in Hb'. apply negb_true_iff in Hb'.
    rewrite Hb'.
    destruct (IH (var ++ [char_of_int ch])%list fuel (int_of_byte b)
                (consume b (tok ++ rest) s)) as (s' & Hr & Hwf' & Hu'); auto.
    + apply wf_consume.
    + rewrite length_app. cbn [List.length]. lia.
    + cbn [app List.length] in Hfuel. lia.
    + exists s'. rewrite Hr. rewrite char_of_int_of_byte.
      rewrite <- app_assoc. cbn [app]. auto.
Qed.

Lemma line_loop_ok (l : list byte) :
  forall (var : list byte) (fuel : nat) (ch : Z) (s : Scanner),
    wf s -> unread s = l -> (List.length l < fuel)%nat ->
    exists s',
      line_loop fuel var ch s = Ret ((var ++ take_while not_newline l)%list, s') /\
      wf s' /\ unread s' = drop_while not_newline l /\
      mode s' = mode s /\ lang s' = lang s /\
      delayed_unread_chars s' = delayed_unread_chars s.
Proof.
  induction l as [|b l IH]; intros var fuel ch s Hwf Hu Hfuel;
    (destruct fuel as [|fuel]; [cbn in Hfuel; lia|]); cbn [line_loop].
  - destruct (getchar_nil ch s Hwf Hu) as (ch1 & s1 & Hg & Hn & _ & Hm & Hl & Hq & _).
    rewrite Hg. cbv beta iota. cbn [negb].
    rewrite (ungetchar_pushback EOF s1 Hn). cbn [bind take_while drop_while].
    rewrite app_nil_r. eexists. split; [reflexivity|].
    split; [apply wf_pushback_EOF|]. split; [reflexivity|]. cbn. auto.
  - rewrite (getchar_cons ch s b l Hwf Hu). cbv beta iota. cbn [negb].
    cbn [take_while drop_while]. unfold not_newline.
    destruct (int_of_byte b =? 10) eqn:Enl; cbn [negb].
    + rewrite ungetchar_pushback by reflexivity. cbn [bind].
      rewrite app_nil_r. eexists. split; [reflexivity|].
      split; [apply wf_pushback_byte|]. split; [apply unread_pushback_byte|].
      cbn. auto.
    + destruct (IH (var ++ [char_of_int (int_of_byte b)])%list fuel (int_of_byte b)
                  (consume b l s)) as (s' & Hr & Hwf' & Hu' & Hm' & Hl' & Hq').
      * apply wf_consume.
      * reflexivity.
      * cbn [List.length] in Hfuel. lia.
      * exists s'. rewrite Hr. rewrite char_of_int_of_byte.
        rewrite <- app_assoc. cbn [app]. fold not_newline. auto 10.
Qed.

End TokenLoops.

(** ** End of stream *)

Section EndOfStream.

Variable cv : CheckerVerdict.

Lemma expect_eof_byte (ch : Z) (s : Scanner) (b : byte) (r : list byte) :
  wf s -> unread s = (b :: r)%list ->
  expect_eof cv ch s =
  Stop (do_error cv (mode s)
          (located (lang s) (next_char_pos s) ++
           match lang s with
           | EN => ["Read "; char_description (int_of_byte b); ", expected EOF"]
           | PL => ["Wczytano "; char_description (int_of_byte b); ", oczekiwano EOF"]
           end)%list).
Proof.
  intros Hwf Hu. unfold expect_eof.
  rewrite (getchar_cons ch s b r Hwf Hu). cbv beta iota.
  cbn [lang consume]. rewrite !error_located. cbn [mode lang last_char_pos consume].
  destruct (lang s); reflexivity.
Qed.

Lemma expect_eof_end (ch : Z) (s : Scanner) :
  wf s -> unread s = [] ->
  exists s', expect_eof cv ch s = Ret s' /\
             delayed_unread_chars s' = delayed_unread_chars s /\ mode s' = mode s.
Proof.
  intros Hwf Hu. unfold expect_eof.
  destruct (getchar_nil ch s Hwf Hu) as (ch1 & s1 & Hg & _ & _ & Hm & _ & Hq & _).
  rewrite Hg. cbv beta iota. exists s1. auto.
Qed.

Lemma eof_skip_loop_spaces (ws : list byte) :
  forall (fuel : nat) (ch : Z) (s : Scanner),
    wf s -> unread s = ws -> forallb is_space_byte ws = true ->
    (List.length ws < fuel)%nat ->
    exists ch1 s1,
      eof_skip_loop fuel ch s = Ret (Returned, ch1, s1) /\
      delayed_unread_chars s1 = delayed_unread_chars s /\ mode s1 = mode s.
Proof.
  induction ws as [|b ws IH]; intros fuel ch s Hwf Hu Hws Hfuel;
    (destruct fuel as [|fuel]; [cbn in Hfuel; lia|]); cbn [eof_skip_loop].
  - destruct (getchar_nil ch s Hwf Hu) as (ch1 & s1 & Hg & _ & _ & Hm & _ & Hq & _).
    rewrite Hg. cbv beta iota. cbn [negb]. exists ch1, s1. auto.
  - cbn [forallb] in Hws. apply andb_prop in Hws as [Hb Hws].
    rewrite (getchar_cons ch s b ws Hwf Hu). cbv beta iota. cbn [negb].
    unfold is_space_byte in Hb. rewrite Hb. cbn [negb].
    destruct (IH fuel (int_of_byte b) (consume b ws s)) as (ch1 & s1 & Hr & Hq & Hm); auto.
    + apply wf_consume.
    + cbn [List.length] in Hfuel. lia.
    + exists ch1, s1. auto.
Qed.

Lemma unread_set_delayed (q : list DelayedUnreadChars) (s : Scanner) :
  unread (set_delayed q s) = unread s.
Proof. reflexivity. Qed.

Lemma length_unread (s : Scanner) : (List.length (unread s) < fuel_of s)%nat.
Proof.
  unfold unread, fuel_of.
  destruct (eofed s); [cbn; lia|].
  destruct (next_char s) as [c|]; [|lia].
  destruct (c <? 0); cbn; lia.
Qed.

Lemma op_eof_lenient_spaces (s : Scanner) :
  lenient (mode s) = true -> wf s -> forallb is_space_byte (unread s) = true ->
  exists s', op_eof cv s = Ret s' /\ delayed_unread_chars s' = [] /\ mode s' = mode s.
Proof.
  intros Hm Hwf Hws.
  destruct (eof_skip_loop_spaces (unread s) (fuel_of (set_delayed [] s)) 0 (set_delayed [] s))
    as (ch1 & s1 & Hr & Hq & Hm1); auto.
  - apply (length_unread (set_delayed [] s)).
  - cbn [set_delayed delayed_unread_chars mode] in Hq, Hm1.
    unfold op_eof. destruct (mode s) eqn:Em; try discriminate;
      rewrite Hr; cbn [bind]; exists s1; auto.
Qed.

Lemma op_eof_drops_delayed (s : Scanner) :
  lenient (mode s) = true -> op_eof cv s = op_eof cv (set_delayed [] s).
Proof.
  intros Hm. unfold op_eof. cbn [mode set_delayed].
  destruct (mode s); try discriminate; reflexivity.
Qed.

Lemma check_all_scanners_app (before : list Scanner) :
  forall checked s after,
    check_all_scanners cv before = Ret checked ->
    check_all_scanners cv (before ++ s :: after)%list =
    (s1 <- do_destructor_checks cv s ;;
     rest1 <- check_all_scanners cv after ;;
     Ret (checked ++ s1 :: rest1)%list).
Proof.
  induction before as [|s0 before IH]; intros checked s after Hc.
  - cbn in Hc. injection Hc as <-. reflexivity.
  - cbn [check_all_scanners app] in *.
    destruct (do_destructor_checks cv s0) as [s0'| |]; cbn [bind] in *; try discriminate.
    destruct (check_all_scanners cv before) as [c0| |]; cbn [bind] in *; try discriminate.
    injection Hc as <-. rewrite (IH c0 s after eq_refl).
    destruct (do_destructor_checks cv s); cbn [bind]; try reflexivity.
    destruct (check_all_scanners cv after); reflexivity.
Qed.

End EndOfStream.

(** ** Random: the rejection loop *)

Lemma u64_small (v : Z) : 0 <= v < 2 ^ 64 -> u64 v = v.
Proof. intros H. unfold u64. apply Z.mod_small. exact H. Qed.

Lemma range_len_exact (min max : Z) :
  0 <= min <= max -> max < 2 ^ 64 -> max - min + 1 < 2 ^ 64 ->
  u64 (u64 (u64 max - u64 min) + 1) = max - min + 1.
Proof.
  intros H1 H3 H2. rewrite (u64_small max), (u64_small min) by lia.
  rewrite (u64_small (max - min)) by lia. apply u64_small. lia.
Qed.

Lemma limit_exact (L : Z) :
  0 < L < 2 ^ 64 ->
  u64 (generator_range_len - generator_range_len mod L) = L * (generator_range_len / L) /\
  1 <= generator_range_len / L /\
  L * (generator_range_len / L) < 2 ^ 64.
Proof.
  intros HL. unfold generator_range_len, generator_max, generator_min.
  rewrite Z.sub_0_r.
  pose proof (Z.div_mod (2 ^ 64 - 1) L ltac:(lia)) as Hdm.
  pose proof (Z.mod_pos_bound (2 ^ 64 - 1) L ltac:(lia)) as Hmb.
  assert (Hq : 1 <= (2 ^ 64 - 1) / L).
  { apply Z.div_le_lower_bound; lia. }
  split; [|split; [exact Hq|lia]].
  rewrite u64_small by lia. lia.
Qed.

Lemma accepted_spec (L d : Z) :
  0 < L < 2 ^ 64 ->
  accepted L d = true <-> d < L * (generator_range_len / L).
Proof.
  intros HL. unfold accepted. destruct (limit_exact L HL) as (-> & _).
  apply Z.ltb_lt.
Qed.

Lemma unsigned_result_exact (t : IntTy) (min max d : Z) :
  is_signed t = false -> 0 <= min <= max -> max <= T_max t -> 0 <= d ->
  wrap t (wrap t (d mod (max - min + 1)) + min) = d mod (max - min + 1) + min /\
  min <= d mod (max - min + 1) + min <= max.
Proof.
  intros Hs Hmm Hmax Hd.
  pose proof (Z.mod_pos_bound d (max - min + 1) ltac:(lia)) as Hb.
  unfold wrap, T_max in *. rewrite Hs in *.
  rewrite (Z.mod_small (d mod (max - min + 1))) by lia.
  rewrite Z.mod_small by lia. lia.
Qed.

Lemma sample_loop_first (t : IntTy) (min L : Z) (rejected : list Z) (d : Z) (rest : list Z) :
  Forall raw_draw rejected -> raw_draw d ->
  forallb (fun r => negb (accepted L r)) rejected = true -> accepted L d = true ->
  sample_loop t min L (u64 (generator_range_len - generator_range_len mod L))
    (rejected ++ d :: rest) =
  Ret (wrap t (wrap t (d mod L) + min), rest).
Proof.
  intros Hraw Hd Hrej Hacc. unfold accepted in *.
  induction rejected as [|r rejected IH]; cbn [app sample_loop].
  - unfold generator_min. rewrite Z.sub_0_r, (u64_small d Hd).
    rewrite Z.geb_leb. rewrite Z.ltb_antisym in Hacc.
    apply negb_true_iff in Hacc. rewrite Hacc. reflexivity.
  - inversion Hraw as [|? ? Hr Hraw']; subst.
    cbn [forallb] in Hrej. apply andb_prop in Hrej as [Hr1 Hrej].
    unfold generator_min. rewrite Z.sub_0_r, (u64_small r Hr).
    rewrite Z.geb_leb. rewrite Z.ltb_antisym, negb_involutive in Hr1. rewrite Hr1.
    apply IH; assumption.
Qed.

Lemma sample_loop_returns_accepted (t : IntTy) (min L : Z) (draws : list Z) :
  Forall raw_draw draws ->
  forall v rest,
    sample_loop t min L (u64 (generator_range_len - generator_range_len mod L)) draws =
    Ret (v, rest) ->
    exists d, raw_draw d /\ accepted L d = true /\ v = wrap t (wrap t (d mod L) + min).
Proof.
  intros Hraw v rest. induction Hraw as [|d draws Hd Hraw IH]; cbn [sample_loop].
  - discriminate.
  - unfold generator_min. rewrite Z.sub_0_r, (u64_small d Hd).
    destruct (d >=? u64 (generator_range_len - generator_range_len mod L)) eqn:E.
    + exact IH.
    + intros H. injection H as <- _. exists d. split; [exact Hd|]. split; [|reflexivity].
      unfold accepted. rewrite Z.geb_leb in E. rewrite Z.ltb_antisym, E. reflexivity.
Qed.

Lemma fibre_of_value (L q d off : Z) :
  0 < L -> 0 <= off < L ->
  (0 <= d < L * q /\ d mod L = off) <-> (exists k, 0 <= k < q /\ d = k * L + off).
Proof.
  intros HL Hoff. split.
  - intros [Hd Hm]. exists (d / L).
    pose proof (Z.div_mod d L ltac:(lia)) as Hdm.
    split; [|lia]. split.
    + apply Z.div_pos; lia.
    + apply Z.div_lt_upper_bound; lia.
  - intros (k & Hk & ->). split; [nia|].
    rewrite Z.add_comm, Z.mod_add by lia. apply Z.mod_small. exact Hoff.
Qed.

Section RandomFacts.

Variable file_name : string.
Variable pretty_function : IntTy -> string.

Lemma T_max_unsigned (t : IntTy) :
  is_signed t = false -> valid_ty t -> bits t <= 64 ->
  T_max t = 2 ^ bits t - 1 /\ 256 <= 2 ^ bits t <= 2 ^ 64.
Proof.
  intros Hs Ht Hb. unfold T_max. rewrite Hs. split; [reflexivity|].
  unfold valid_ty in Ht. split.
  - change 256 with (2 ^ 8). apply Z.pow_le_mono_r; lia.
  - apply Z.pow_le_mono_r; lia.
Qed.

Lemma Random_unsigned_partial (t : IntTy) (min max : Z) (draws : list Z) :
  0 <= min <= max -> max < 2 ^ 64 -> max - min + 1 < 2 ^ 64 ->
  Random_unsigned file_name pretty_function t min max draws =
  sample_loop t min (max - min + 1)
    (u64 (generator_range_len - generator_range_len mod (max - min + 1))) draws.
Proof.
  intros Hmm Hmax Hlen. unfold Random_unsigned.
  replace (min <=? max) with true by (symmetry; apply Z.leb_le; lia).
  cbn [negb]. rewrite (range_len_exact min max Hmm Hmax Hlen).
  replace (max - min + 1 =? 0) with false by (symmetry; apply Z.eqb_neq; lia).
  reflexivity.
Qed.

Lemma Random_unsigned_full (t : IntTy) (d : Z) (rest : list Z) :
  Random_unsigned file_name pretty_function t 0 (2 ^ 64 - 1) (d :: rest)%list = Ret (wrap t d, rest).
Proof. reflexivity. Qed.

Lemma Random_unsigned_range (t : IntTy) (min max : Z) (draws : list Z) :
  is_signed t = false -> valid_ty t -> bits t <= 64 ->
  0 <= min <= max -> max <= T_max t -> Forall raw_draw draws ->
  forall v rest, Random_unsigned file_name pretty_function t min max draws = Ret (v, rest) -> min <= v <= max.
Proof.
  intros Hs Ht Hb Hmm Hmax Hraw v rest.
  destruct (T_max_unsigned t Hs Ht Hb) as (HT & Hp).
  destruct (Z.eq_dec (max - min + 1) (2 ^ 64)) as [Hfull|Hpart].
  - assert (min = 0) as -> by lia. assert (max = 2 ^ 64 - 1) as -> by lia.
    destruct draws as [|d draws]; [discriminate|].
    rewrite Random_unsigned_full. intros H. injection H as <- _.
    inversion Hraw as [|? ? Hd _]; subst. unfold raw_draw in Hd.
    unfold wrap. rewrite Hs. rewrite Z.mod_small by lia. lia.
  - rewrite Random_unsigned_partial by lia. intros H.
    destruct (sample_loop_returns_accepted t min (max - min + 1) draws Hraw v rest H)
      as (d & Hd & _ & ->).
    unfold raw_draw in Hd.
    destruct (unsigned_result_exact t min max d Hs Hmm Hmax ltac:(lia)) as (-> & Hr).
    exact Hr.
Qed.

Lemma signed_shift (t : IntTy) (v : Z) :
  is_signed t = true -> valid_ty t -> T_min t <= v <= T_max t ->
  wrap (make_unsigned t) (wrap (make_unsigned t) v - wrap (make_unsigned t) (T_min t)) =
  v - T_min t /\
  0 <= v - T_min t <= T_max (make_unsigned t).
Proof.
  intros Hs Ht Hv. unfold wrap, make_unsigned, T_min, T_max in *.
  cbn [is_signed bits]. rewrite Hs in *.
  assert (Hp : 2 ^ bits t = 2 * 2 ^ (bits t - 1)) by (apply pow2_split; unfold valid_ty in Ht; lia).
  pose proof (pow2_ge_128 t Ht) as H128.
  rewrite <- Zminus_mod. split; [apply Z.mod_small|]; lia.
Qed.

Lemma signed_unshift (t : IntTy) (r : Z) :
  is_signed t = true -> valid_ty t -> 0 <= r <= T_max (make_unsigned t) ->
  wrap t (wrap (make_unsigned t) (r + wrap (make_unsigned t) (T_min t))) = r + T_min t.
Proof.
  intros Hs Ht Hr. unfold wrap, make_unsigned, T_min, T_max in *.
  cbn [is_signed bits] in *. rewrite Hs.
  assert (Hp : 2 ^ bits t = 2 * 2 ^ (bits t - 1)) by (apply pow2_split; unfold valid_ty in Ht; lia).
  pose proof (pow2_ge_128 t Ht) as H128.
  rewrite Zplus_mod_idemp_r, Zplus_mod_idemp_l.
  replace (r + - 2 ^ (bits t - 1) + 2 ^ (bits t - 1)) with r by lia.
  rewrite Z.mod_small; lia.
Qed.

Lemma Random_signed_delegates (t : IntTy) (min max : Z) (draws : list Z) :
  is_signed t = true -> valid_ty t -> bits t <= 64 ->
  T_min t <= min -> min <= max -> max <= T_max t -> Forall raw_draw draws ->
  Random_call file_name pretty_function t min max draws =
  ('(r, rest) <- Random_call file_name pretty_function (make_unsigned t) (min - T_min t) (max - T_min t) draws ;;
   Ret (r + T_min t, rest)) /\
  forall v rest, Random_call file_name pretty_function t min max draws = Ret (v, rest) -> min <= v <= max.
Proof.
  intros Hs Ht Hb Hlo Hmm Hhi Hraw.
  destruct (signed_shift t min Hs Ht ltac:(lia)) as (Emin & Rmin).
  destruct (signed_shift t max Hs Ht ltac:(lia)) as (Emax & Rmax).
  assert (Hgo : Random_call file_name pretty_function t min max draws =
    ('(r, rest) <- Random_unsigned file_name pretty_function (make_unsigned t) (min - T_min t) (max - T_min t) draws ;;
     Ret (wrap t (wrap (make_unsigned t) (r + wrap (make_unsigned t) (T_min t))), rest))).
  { unfold Random_call. rewrite Hs.
    replace (min <=? max) with true by (symmetry; apply Z.leb_le; lia).
    cbn [negb]. rewrite Emin, Emax. reflexivity. }
  assert (Hrange : forall r rest,
            Random_unsigned file_name pretty_function (make_unsigned t) (min - T_min t) (max - T_min t) draws = Ret (r, rest) ->
            min - T_min t <= r <= max - T_min t).
  { intros r rest. apply Random_unsigned_range; auto; lia. }
  rewrite Hgo. unfold Random_call at 1. cbn [is_signed make_unsigned].
  fold (make_unsigned t).
  destruct (Random_unsigned file_name pretty_function (make_unsigned t) (min - T_min t) (max - T_min t) draws)
    as [[r rest]| |] eqn:Eu; cbn [bind].
  - pose proof (Hrange r rest eq_refl) as Hr.
    rewrite (signed_unshift t r Hs Ht ltac:(lia)).
    split; [reflexivity|]. intros v rest' H. injection H as <- _. lia.
  - split; [reflexivity|]. discriminate.
  - split; [reflexivity|]. discriminate.
Qed.

End RandomFacts.

(** ** The checker verdict: rejecting after a partial score *)

Lemma is_empty_spec (s : string) : is_empty s = true <-> s = "".
Proof. destruct s; cbn; split; intros H; try reflexivity; discriminate. Qed.

(** C1, as stated, fails.  With the partial message "a" stored,
    [exit_wrong("")] has one argument, so the separator is printed although
    the message of [exit_wrong] is empty: the output is "OK\na; \n42\n", not
    the "OK\na\n42\n" the claim describes. *)
Lemma exit_wrong_empty_argument_counterexample :
  exists cv,
    set_partial_score 42 ["a"] checker_verdict = Ret cv /\
    print_all [""] = "" /\
    exit_wrong [""] cv = Exits 0 Cout ("OK" ++ LF ++ "a; " ++ LF ++ "42" ++ LF) /\
    exit_wrong [""] cv <> Exits 0 Cout (spec_reject_text (Some (42, "a")) (print_all [""])).
Proof.
  eexists. split; [reflexivity|]. split; [reflexivity|]. split; [reflexivity|].
  vm_compute. discriminate.
Qed.

(** C1 (amended).  After [set_partial_score(score, partial_msg)], a call
    [exit_wrong(msg...)] ends the process with exit code 0 and prints exactly
    "OK\n<partial_msg>; <msg>\n<score>\n", where the "; " is left out when the
    stored partial message is empty or [exit_wrong] was called with no
    argument at all (an argument that prints as the empty string keeps the
    separator); this is the text of the specification whenever [msg] has no
    argument or prints as a non-empty string.  With no partial score stored
    it prints exactly "WRONG\n<msg>\n0\n".  [set_partial_score(42, "a")]
    followed by [exit_wrong("b")] prints "OK\na; b\n42\n" with exit code 0. *)
Theorem exit_wrong_after_partial_score
    (cv0 : CheckerVerdict) (score : Z) (partial_msg msg : list string) :
  0 <= score < 100 ->
  (exists cv,
     set_partial_score score partial_msg cv0 = Ret cv /\
     exit_wrong msg cv =
     Exits 0 Cout
       ("OK" ++ LF ++ print_all partial_msg ++
        (if is_empty (print_all partial_msg) || Nat.eqb (List.length msg) 0
         then "" else "; ") ++
        print_all msg ++ LF ++ show_int score ++ LF) /\
     (msg = [] \/ print_all msg <> "" ->
      exit_wrong msg cv =
      Exits 0 Cout (spec_reject_text (Some (score, print_all partial_msg)) (print_all msg)))) /\
  (partial_score cv0 = None ->
   exit_wrong msg cv0 = Exits 0 Cout ("WRONG" ++ LF ++ print_all msg ++ LF ++ "0" ++ LF)) /\
  (exists cv,
     set_partial_score 42 ["a"] checker_verdict = Ret cv /\
     exit_wrong ["b"] cv = Exits 0 Cout ("OK" ++ LF ++ "a; b" ++ LF ++ "42" ++ LF)).
Proof.
  intros Hscore. split; [|split].
  - unfold set_partial_score.
    replace (0 <=? score) with true by (symmetry; apply Z.leb_le; lia).
    replace (score <? 100) with true by (symmetry; apply Z.ltb_lt; lia).
    cbn [andb]. eexists. split; [reflexivity|].
    unfold exit_wrong, spec_reject_text. cbn [partial_score partial_score_msg].
    split.
    + destruct (is_empty (print_all partial_msg)), (Nat.eqb (List.length msg) 0); reflexivity.
    + intros [-> | Hne].
      * cbn. destruct (is_empty (print_all partial_msg)); reflexivity.
      * assert (Hm : is_empty (print_all msg) = false).
        { destruct (is_empty (print_all msg)) eqn:E; [|reflexivity].
          apply is_empty_spec in E. contradiction. }
        assert (Hl : Nat.eqb (List.length msg) 0 = false).
        { destruct msg; [exfalso; apply Hne; reflexivity|reflexivity]. }
        rewrite Hm, Hl.
        destruct (is_empty (print_all partial_msg)); reflexivity.
  - intros Hnone. unfold exit_wrong. rewrite Hnone. reflexivity.
  - eexists. split; reflexivity.
Qed.

Lemma exit_wrong_after_partial_score_witness :
  exists cv,
    set_partial_score 7 ["partial"; " credit"] checker_verdict = Ret cv /\
    exit_wrong ["wrong "; "answer"] cv =
    Exits 0 Cout ("OK" ++ LF ++ "partial credit; wrong answer" ++ LF ++ "7" ++ LF).
Proof.
  destruct (exit_wrong_after_partial_score checker_verdict 7
              ["partial"; " credit"] ["wrong "; "answer"] ltac:(lia))
    as ((cv & Hset & Hout & _) & _).
  exists cv. split; [exact Hset|]. rewrite Hout. reflexivity.
Defined.

(** ** Finalization: the end-of-stream check at release and at success *)

(** C2.  Releasing a TestInput or UserOutput scanner, and every success
    verdict ([CheckerVerdict::exit_ok], [exit_ok_with_score] at 100,
    [inwer_verdict.exit_ok]) for each scanner still registered, runs
    [>> eof] on it: once the scanners before it have passed, its failure is
    how the process ends, and [exit_ok] prints its text once all have
    passed.  A TestInput scanner released with an unread byte ends the process
    with exit code 1 and the message "Line l, position p: Read <byte>,
    expected EOF" (or its Polish rendering), although the tool never matched
    the end of the stream itself. *)
Theorem finalization_runs_eof_check (cv : CheckerVerdict) :
  (forall s, mode s <> Lax ->
     do_destructor_checks cv s = op_eof cv s /\
     Scanner_delete cv s = (_ <- op_eof cv s ;; Ret tt)) /\
  (forall before checked s after e msg,
     check_all_scanners cv before = Ret checked ->
     mode s <> Lax -> op_eof cv s = Stop e ->
     exit_ok cv (before ++ s :: after)%list = Stop e /\
     exit_ok_with_score cv 100 msg (before ++ s :: after)%list = Stop e /\
     inwer_exit_ok cv msg (before ++ s :: after)%list = Stop e) /\
  (forall scanners checked,
     check_all_scanners cv scanners = Ret checked ->
     exit_ok cv scanners = Stop (Exits 0 Cout ("OK" ++ LF ++ LF ++ "100" ++ LF))) /\
  (forall s b rest,
     mode s = TestInput -> wf s -> unread s = (b :: rest)%list ->
     Scanner_delete cv s =
     Stop (Exits 1 Cout
             match lang s with
             | EN =>
                 "Line " ++ show_int (line (next_char_pos s)) ++
                 ", position " ++ show_int (pos (next_char_pos s)) ++
                 ": Read " ++ char_description (int_of_byte b) ++ ", expected EOF" ++ LF
             | PL =>
                 "Wiersz " ++ show_int (line (next_char_pos s)) ++
                 ", pozycja " ++ show_int (pos (next_char_pos s)) ++
                 ": Wczytano " ++ char_description (int_of_byte b) ++ ", oczekiwano EOF" ++ LF
             end)).
Proof.
  assert (Hrel : forall s, mode s <> Lax -> do_destructor_checks cv s = op_eof cv s).
  { intros s Hm. unfold do_destructor_checks. destruct (mode s); [reflexivity|contradiction|reflexivity]. }
  split; [|split; [|split]].
  - intros s Hm. unfold Scanner_delete. rewrite (Hrel s Hm). split; reflexivity.
  - intros before checked s after e msg Hbefore Hm Hfail.
    assert (Hall : check_all_scanners cv (before ++ s :: after)%list = Stop e).
    { rewrite (check_all_scanners_app cv before checked s after Hbefore).
      rewrite (Hrel s Hm), Hfail. reflexivity. }
    unfold exit_ok, exit_ok_with_score, inwer_exit_ok. cbn [Z.leb Z.eqb andb negb].
    change (0 <=? 100) with true. change (100 <=? 100) with true. cbn [andb negb].
    rewrite Hall. auto.
  - intros scanners checked Hall. unfold exit_ok. rewrite Hall. reflexivity.
  - intros s b rest Hm Hwf Hu. unfold Scanner_delete.
    rewrite Hrel by (rewrite Hm; discriminate).
    unfold op_eof. rewrite Hm.
    rewrite (expect_eof_byte cv 0 s b rest Hwf Hu). rewrite Hm.
    cbn [bind do_error]. unfold StreamImpl_end, located.
    destruct (lang s); norm_text; reflexivity.
Qed.

Lemma finalization_runs_eof_check_witness :
  Scanner_delete checker_verdict (Scanner_new (bytes "1 2") TestInput EN) =
  Stop (Exits 1 Cout ("Line 1, position 1: Read '1', expected EOF" ++ LF)).
Proof.
  destruct (finalization_runs_eof_check checker_verdict) as (_ & _ & _ & H).
  rewrite (H (Scanner_new (bytes "1 2") TestInput EN) "1"%byte (bytes " 2")
             eq_refl (wf_Scanner_new _ _ _) eq_refl).
  reflexivity.
Defined.

(** ** Reading integers *)

(** C4.  [Scanner >> Num] over [int32_t] on "2147483648" with bounds
    [INT32_MIN, INT32_MAX] fails "Integer value out of range" at line 1,
    position 10, in every mode and language.  In general the digits are taken
    one by one: when the number written by the sign and the digits [ds] still
    fits [T] and one more digit [d] makes it leave [T], the failure is
    reported at the position of the byte [d]. *)
Theorem read_integer_overflow (cv : CheckerVerdict) :
  (forall m l,
     op_Num cv int32_t (-2147483648) 2147483647 (Scanner_new (bytes "2147483648") m l) =
     Stop (do_error cv m (located l (mkPos 1 10) ++ [integer_value_out_of_range l])%list)) /\
  op_Num cv int32_t (-2147483648) 2147483647 (Scanner_new (bytes "2147483648") TestInput EN) =
  Stop (Exits 1 Cout ("Line 1, position 10: Integer value out of range" ++ LF)) /\
  (forall t minus min max s ds d rest,
     valid_ty t -> (minus = true -> is_signed t = true) -> min <= max ->
     wf s -> delayed_unread_chars s = [] ->
     unread s = (sign_bytes minus ++ ds ++ d :: rest)%list ->
     ds <> [] -> forallb is_digit_byte ds = true -> is_digit_byte d = true ->
     fits t (signed_value minus ds) = true ->
     fits t (signed_value minus (ds ++ [d])) = false ->
     op_Num cv t min max s =
     Stop (do_error cv (mode s)
             (located (lang s) (byte_pos s (List.length (sign_bytes minus ++ ds)))
              ++ [integer_value_out_of_range (lang s)])%list)).
Proof.
  split; [|split].
  - intros m l. destruct m, l; vm_compute; reflexivity.
  - vm_compute. reflexivity.
  - intros t minus min max s ds d rest Ht Hs Hmm Hwf Hq Hu Hne Hds Hd Hfit Hover.
    apply (op_Num_overflow cv t Ht minus Hs min max s ds d rest); assumption.
Qed.

Lemma read_integer_overflow_witness :
  op_Num checker_verdict int8_t (-128) 127 (Scanner_new (bytes "-1290") Lax PL) =
  Stop (Exits 4 ErrorOstream
          ("Lax scanner: Wiersz 1, pozycja 4: Liczba calkowita spoza zakresu" ++ LF)).
Proof.
  destruct (read_integer_overflow checker_verdict) as (_ & _ & H).
  rewrite (H int8_t true (-128) 127 (Scanner_new (bytes "-1290") Lax PL)
             (bytes "12") "9"%byte (bytes "0")).
  - reflexivity.
  - unfold valid_ty. cbn. lia.
  - reflexivity.
  - lia.
  - apply wf_Scanner_new.
  - reflexivity.
  - reflexivity.
  - discriminate.
  - reflexivity.
  - reflexivity.
  - reflexivity.
  - reflexivity.
Defined.

(** C9.  [Scanner >> Num] returns exactly the number written by a run of
    decimal digits (with the optional sign of a signed target) whenever that
    number lies within the bounds, consuming the run and nothing after it;
    leading zeros are accepted.  "2147483647" with bounds
    [INT32_MIN, INT32_MAX] gives 2147483647 and "007" gives 7. *)
Theorem read_integer_exact (cv : CheckerVerdict) :
  (forall t minus min max s ds rest,
     valid_ty t -> (minus = true -> is_signed t = true) ->
     wf s -> delayed_unread_chars s = [] ->
     unread s = (sign_bytes minus ++ ds ++ rest)%list ->
     ds <> [] -> forallb is_digit_byte ds = true -> no_digit_ahead rest = true ->
     T_min t <= min -> max <= T_max t ->
     min <= signed_value minus ds <= max ->
     exists s',
       op_Num cv t min max s = Ret (signed_value minus ds, s') /\ unread s' = rest) /\
  (forall m l, exists s',
     op_Num cv int32_t (-2147483648) 2147483647 (Scanner_new (bytes "2147483647") m l) =
     Ret (2147483647, s') /\ unread s' = []) /\
  (forall m l, exists s',
     op_Num cv int32_t (-2147483648) 2147483647 (Scanner_new (bytes "007") m l) =
     Ret (7, s') /\ unread s' = []).
Proof.
  split; [|split].
  - intros t minus min max s ds rest Ht Hs Hwf Hq Hu Hne Hds Hrest Hlo Hhi Hrange.
    destruct (op_Num_ok cv t Ht minus Hs min max s ds rest) as (s' & Hr & _ & Hu' & _);
      auto.
    + apply fits_iff. lia.
    + exists s'. auto.
  - intros m l. destruct m, l; vm_compute; eexists; split; reflexivity.
  - intros m l. destruct m, l; vm_compute; eexists; split; reflexivity.
Qed.

Lemma read_integer_exact_witness :
  exists s',
    op_Num checker_verdict uint8_t 0 255 (Scanner_new (bytes "0255 7") UserOutput EN) =
    Ret (255, s') /\ unread s' = bytes " 7".
Proof.
  destruct (read_integer_exact checker_verdict) as (H & _).
  apply (H uint8_t false 0 255 (Scanner_new (bytes "0255 7") UserOutput EN)
           (bytes "0255") (bytes " 7")).
  - unfold valid_ty. cbn. lia.
  - discriminate.
  - apply wf_Scanner_new.
  - reflexivity.
  - reflexivity.
  - discriminate.
  - reflexivity.
  - reflexivity.
  - cbn. lia.
  - cbn. lia.
  - cbn. lia.
Defined.

(** ** Reading tokens and lines *)

(** C7.  [Scanner >> Str] fails "Too long string" as soon as the token is
    longer than [max_size]: the failure is reported at the position of the
    byte that makes the length [max_size + 1], and a token of at most
    [max_size] bytes is returned whole.  On "abcefg efg" with [max_size] 5 it
    fails at line 1, position 6, in every mode and language. *)
Theorem read_token_too_long (cv : CheckerVerdict) :
  (forall max_size s tok rest,
     0 < max_size -> wf s -> delayed_unread_chars s = [] ->
     unread s = (tok ++ rest)%list ->
     forallb (fun b => negb (is_space_byte b)) tok = true ->
     max_size < Z.of_nat (List.length tok) ->
     op_Str cv max_size s =
     Stop (do_error cv (mode s)
             (located (lang s) (byte_pos s (Z.to_nat max_size))
              ++ [too_long_string (lang s)])%list)) /\
  (forall max_size s tok rest,
     wf s -> delayed_unread_chars s = [] ->
     unread s = (tok ++ rest)%list -> tok <> [] ->
     forallb (fun b => negb (is_space_byte b)) tok = true ->
     match rest with [] => true | c :: _ => is_space_byte c end = true ->
     Z.of_nat (List.length tok) <= max_size ->
     exists s', op_Str cv max_size s = Ret (tok, s') /\ unread s' = rest) /\
  (forall m l,
     op_Str cv 5 (Scanner_new (bytes "abcefg efg") m l) =
     Stop (do_error cv m (located l (mkPos 1 6) ++ [too_long_string l])%list)) /\
  op_Str cv 5 (Scanner_new (bytes "abcefg efg") TestInput EN) =
  Stop (Exits 1 Cout ("Line 1, position 6: Too long string" ++ LF)).
Proof.
  assert (Hstart : forall max_size s b r,
            0 < max_size -> wf s -> delayed_unread_chars s = [] ->
            unread s = (b :: r)%list -> is_space_byte b = false ->
            op_Str cv max_size s =
            str_loop cv (S (S (List.length r))) max_size [] (int_of_byte b) (consume b r s)).
  { intros max_size s b r Hmax Hwf Hq Hu Hb.
    destruct (skip_ws_nonspace cv s b r Hwf Hq Hu Hb)
      as (s2 & Hskip & Hwf2 & Hu2 & Hc2 & _).
    unfold op_Str.
    replace (max_size >? 0) with true by (symmetry; rewrite Z.gtb_ltb; apply Z.ltb_lt; lia).
    cbn [negb]. rewrite (read_delayed_nothing cv s Hq). cbn [bind].
    rewrite Hskip. cbn [bind].
    rewrite (getchar_cons 0 s2 b r Hwf2 Hu2). cbv beta iota. cbn [negb].
    unfold is_space_byte in Hb. rewrite Hb. rewrite Hc2. reflexivity. }
  split; [|split; [|split]].
  - intros max_size s tok rest Hmax Hwf Hq Hu Htok Hlen.
    destruct tok as [|b tok]; [cbn in Hlen; lia|].
    cbn [forallb] in Htok. apply andb_prop in Htok as [Hb Htok].
    apply negb_true_iff in Hb. cbn [app] in Hu.
    rewrite (Hstart max_size s b (tok ++ rest)%list Hmax Hwf Hq Hu Hb).
    rewrite (str_loop_too_long cv max_size (Z.to_nat max_size) tok rest); auto.
    + rewrite <- (getchar_n_consume s b (tok ++ rest)%list _ Hwf Hu).
      rewrite error_at_byte; [reflexivity|exact Hwf|].
      rewrite Hu. cbn [List.length] in *. rewrite length_app. lia.
    + apply wf_consume.
    + cbn [List.length]. lia.
    + cbn [List.length] in Hlen. lia.
  - intros max_size s tok rest Hwf Hq Hu Hne Htok Hrest Hlen.
    destruct tok as [|b tok]; [contradiction|].
    cbn [forallb] in Htok. apply andb_prop in Htok as [Hb Htok].
    apply negb_true_iff in Hb. cbn [app] in Hu. cbn [List.length] in Hlen.
    rewrite (Hstart max_size s b (tok ++ rest)%list ltac:(lia) Hwf Hq Hu Hb).
    destruct (str_loop_ok cv max_size tok rest [] (S (S (List.length (tok ++ rest)%list)))
                (int_of_byte b) (consume b (tok ++ rest)%list s)) as (s' & Hr & _ & Hu'); auto.
    + apply wf_consume.
    + cbn [List.length]. lia.
    + exists s'. rewrite Hr. cbn [app]. rewrite char_of_int_of_byte. auto.
  - intros m l. destruct m, l; vm_compute; reflexivity.
  - vm_compute. reflexivity.
Qed.

Lemma read_token_too_long_witness :
  op_Str checker_verdict 3 (Scanner_new (bytes "12345 6") TestInput PL) =
  Stop (Exits 1 Cout ("Wiersz 1, pozycja 4: Zbyt dlugi napis" ++ LF)).
Proof.
  destruct (read_token_too_long checker_verdict) as (H & _).
  rewrite (H 3 (Scanner_new (bytes "12345 6") TestInput PL) (bytes "12345") (bytes " 6")).
  - reflexivity.
  - lia.
  - apply wf_Scanner_new.
  - reflexivity.
  - reflexivity.
  - reflexivity.
  - cbn. lia.
Defined.

(** C8.  [Scanner >> Line] makes no use of [max_size]: the result is the
    same for every capacity, and with no obligation pending it always
    returns, with the unread bytes up to (not including) the next newline or
    the end of the stream, leaving the newline unread.  On "abc def" a
    capacity of 2 returns the whole line, where [Scanner >> Str] with the
    same capacity fails. *)
Theorem read_line_capacity_is_advisory (cv : CheckerVerdict) :
  (forall cap1 cap2 s, op_Line cv cap1 s = op_Line cv cap2 s) /\
  (forall cap s,
     wf s -> delayed_unread_chars s = [] ->
     exists s',
       op_Line cv cap s = Ret (take_while not_newline (unread s), s') /\
       unread s' = drop_while not_newline (unread s)) /\
  (forall m l, exists s',
     op_Line cv 2 (Scanner_new (bytes "abc def") m l) = Ret (bytes "abc def", s') /\
     unread s' = []) /\
  (forall m l,
     op_Str cv 2 (Scanner_new (bytes "abc def") m l) =
     Stop (do_error cv m (located l (mkPos 1 3) ++ [too_long_string l])%list)).
Proof.
  split; [|split; [|split]].
  - intros cap1 cap2 s. reflexivity.
  - intros cap s Hwf Hq. unfold op_Line.
    rewrite (read_delayed_nothing cv s Hq). cbn [bind].
    destruct (line_loop_ok (unread s) [] (fuel_of s) 0 s Hwf eq_refl (length_unread s))
      as (s' & Hr & _ & Hu' & _).
    exists s'. rewrite Hr. cbn [app]. auto.
  - intros m l. destruct m, l; vm_compute; eexists; split; reflexivity.
  - intros m l. destruct m, l; vm_compute; reflexivity.
Qed.

Lemma read_line_capacity_is_advisory_witness :
  exists s',
    op_Line checker_verdict 0 (Scanner_new [" "%byte; "a"%byte; x0a; "b"%byte] TestInput EN) =
    Ret ([" "%byte; "a"%byte], s') /\
    unread s' = [x0a; "b"%byte].
Proof.
  destruct (read_line_capacity_is_advisory checker_verdict) as (_ & H & _).
  apply (H 0 (Scanner_new [" "%byte; "a"%byte; x0a; "b"%byte] TestInput EN)).
  - apply wf_Scanner_new.
  - reflexivity.
Defined.

(** ** Whitespace in the lenient modes *)

Lemma op_char_delayed (cv : CheckerVerdict) (c : Z) (s : Scanner) :
  lenient (mode s) = true -> isspace c = true ->
  op_char cv c s = Ret (set_delayed (delayed_unread_chars s ++ [delayed_tag c])%list s).
Proof.
  intros Hm Hc. unfold op_char, delayed_tag. rewrite Hc.
  destruct (mode s); try discriminate; destruct (c =? 10); reflexivity.
Qed.

Lemma op_chars_delayed (cv : CheckerVerdict) (cs : list Z) :
  forall s, lenient (mode s) = true -> forallb isspace cs = true ->
    op_chars cv cs s =
    Ret (set_delayed (delayed_unread_chars s ++ map delayed_tag cs)%list s).
Proof.
  induction cs as [|c cs IH]; intros s Hm Hcs.
  - cbn. rewrite app_nil_r, set_delayed_same. reflexivity.
  - cbn [forallb] in Hcs. apply andb_prop in Hcs as [Hc Hcs].
    cbn [op_chars]. rewrite (op_char_delayed cv c s Hm Hc). cbn [bind].
    rewrite IH by assumption.
    cbn [set_delayed delayed_unread_chars map]. rewrite <- app_assoc. reflexivity.
Qed.

(** C10.  In UserOutput and Lax mode a literal whitespace or newline is only
    enqueued, and [>> eof] clears the queue before it looks at the stream: it
    behaves as if nothing had been enqueued.  So after any chain of
    whitespace and newline literals, on a stream with no byte left, [>> eof]
    succeeds, and so do the release of a UserOutput scanner and
    [CheckerVerdict::exit_ok]; a newline required just before the end of the
    stream is never checked. *)
Theorem eof_discards_deferred_obligations (cv : CheckerVerdict) :
  (forall s c, lenient (mode s) = true -> isspace c = true ->
     op_char cv c s =
     Ret (set_delayed (delayed_unread_chars s ++ [delayed_tag c])%list s)) /\
  (forall s, lenient (mode s) = true -> op_eof cv s = op_eof cv (set_delayed [] s)) /\
  (forall s cs,
     lenient (mode s) = true -> wf s -> unread s = [] -> forallb isspace cs = true ->
     exists s1 s',
       op_chars cv cs s = Ret s1 /\
       delayed_unread_chars s1 = (delayed_unread_chars s ++ map delayed_tag cs)%list /\
       file s1 = file s /\
       op_eof cv s1 = Ret s' /\ delayed_unread_chars s' = []) /\
  (forall s cs,
     mode s = UserOutput -> wf s -> unread s = [] -> forallb isspace cs = true ->
     exists s1,
       op_chars cv cs s = Ret s1 /\
       Scanner_delete cv s1 = Ret tt /\
       exit_ok cv [s1] = Stop (Exits 0 Cout ("OK" ++ LF ++ LF ++ "100" ++ LF))).
Proof.
  assert (Hend : forall s cs,
            lenient (mode s) = true -> wf s -> unread s = [] -> forallb isspace cs = true ->
            exists s',
              op_eof cv (set_delayed (delayed_unread_chars s ++ map delayed_tag cs)%list s)
              = Ret s' /\ delayed_unread_chars s' = []).
  { intros s cs Hm Hwf Hu Hcs.
    destruct (op_eof_lenient_spaces cv
                (set_delayed (delayed_unread_chars s ++ map delayed_tag cs)%list s))
      as (s' & Hr & Hq & _).
    - exact Hm.
    - exact Hwf.
    - rewrite unread_set_delayed, Hu. reflexivity.
    - exists s'. auto. }
  split; [|split; [|split]].
  - intros s c. apply op_char_delayed.
  - intros s. apply op_eof_drops_delayed.
  - intros s cs Hm Hwf Hu Hcs.
    destruct (Hend s cs Hm Hwf Hu Hcs) as (s' & Hr & Hq).
    eexists _, s'. split; [apply op_chars_delayed; assumption|].
    split; [reflexivity|]. split; [reflexivity|]. auto.
  - intros s cs Hm Hwf Hu Hcs.
    assert (Hl : lenient (mode s) = true) by (rewrite Hm; reflexivity).
    destruct (Hend s cs Hl Hwf Hu Hcs) as (s' & Hr & Hq).
    eexists. split; [apply op_chars_delayed; assumption|].
    unfold Scanner_delete, exit_ok. cbn [check_all_scanners].
    unfold do_destructor_checks. cbn [mode set_delayed]. rewrite Hm.
    rewrite Hr. split; reflexivity.
Qed.

Lemma eof_discards_deferred_obligations_witness :
  exists s1,
    op_chars checker_verdict [32; 10] (Scanner_new [] UserOutput EN) = Ret s1 /\
    Scanner_delete checker_verdict s1 = Ret tt /\
    exit_ok checker_verdict [s1] = Stop (Exits 0 Cout ("OK" ++ LF ++ LF ++ "100" ++ LF)).
Proof.
  destruct (eof_discards_deferred_obligations checker_verdict) as (_ & _ & _ & H).
  apply (H (Scanner_new [] UserOutput EN) [32; 10]).
  - reflexivity.
  - apply wf_Scanner_new.
  - reflexivity.
  - reflexivity.
Defined.

Lemma op_chars_app (cv : CheckerVerdict) (cs1 cs2 : list Z) :
  forall s, op_chars cv (cs1 ++ cs2)%list s = (s1 <- op_chars cv cs1 s ;; op_chars cv cs2 s1).
Proof.
  induction cs1 as [|c cs1 IH]; intros s; cbn [app op_chars bind]; [reflexivity|].
  destruct (op_char cv c s); cbn [bind]; auto.
Qed.

Lemma delayed_tags_inline (cs : list Z) :
  forallb (fun c => negb (c =? 10)) cs = true ->
  map delayed_tag cs = List.repeat WHITESPACE (List.length cs).
Proof.
  induction cs as [|c cs IH]; intros H; [reflexivity|].
  cbn [forallb] in H. apply andb_prop in H as [Hc H].
  cbn [map List.length List.repeat]. rewrite (IH H). unfold delayed_tag.
  apply negb_true_iff in Hc. rewrite Hc. reflexivity.
Qed.

(** Draining WHITESPACE tags takes one whitespace byte other than newline
    each, whatever its kind. *)
Lemma read_delayed_each_whitespace (cv : CheckerVerdict) (ws rest : list byte) :
  forall s,
    lenient (mode s) = true -> wf s -> unread s = (ws ++ rest)%list ->
    forallb (fun w => is_space_byte w && not_newline w) ws = true ->
    exists s',
      read_delayed_each cv (List.repeat WHITESPACE (List.length ws)) s = Ret s' /\
      wf s' /\ unread s' = rest /\ mode s' = mode s /\ lang s' = lang s.
Proof.
  induction ws as [|w ws IH]; intros s Hm Hwf Hu Hws.
  - exists s. cbn. auto.
  - cbn [forallb] in Hws. apply andb_prop in Hws as [Hw Hws].
    apply andb_prop in Hw as [Hsp Hnl].
    cbn [app] in Hu. cbn [List.length List.repeat read_delayed_each].
    assert (Hone : read_delayed_one cv WHITESPACE s = Ret (consume w (ws ++ rest) s)).
    { unfold read_delayed_one, do_read_char.
      rewrite (getchar_cons 0 s w _ Hwf Hu). cbv beta iota. cbn [negb bind].
      unfold is_space_byte in Hsp. unfold not_newline in Hnl.
      apply negb_true_iff in Hnl. rewrite Hsp, Hnl. cbn [negb orb].
      destruct (mode s); try discriminate; reflexivity. }
    rewrite Hone. cbn [bind].
    destruct (IH (consume w (ws ++ rest) s)) as (s' & Hr & Hwf' & Hu' & Hm' & Hl'); auto.
    + apply wf_consume.
    + exists s'. auto.
Qed.

Lemma whitespace_literals_match (cv : CheckerVerdict) (m : Mode) (l : Lang)
    (cs : list Z) (ws : list byte) (b : byte) :
  lenient m = true -> List.length cs = List.length ws ->
  forallb (fun c => isspace c && negb (c =? 10)) cs = true ->
  forallb (fun w => is_space_byte w && not_newline w) ws = true ->
  is_space_byte b = false ->
  exists s',
    op_chars cv (cs ++ [int_of_byte b])%list (Scanner_new (ws ++ [b])%list m l) = Ret s' /\
    unread s' = [] /\ delayed_unread_chars s' = [].
Proof.
  intros Hm Hlen Hcs Hws Hb.
  assert (Hsp : forallb isspace cs = true /\ forallb (fun c => negb (c =? 10)) cs = true).
  { clear Hlen. induction cs as [|c cs IH]; [split; reflexivity|].
    cbn [forallb] in *. apply andb_prop in Hcs as [Hc Hcs].
    apply andb_prop in Hc as [Hc1 Hc2]. destruct (IH Hcs) as [I1 I2].
    rewrite Hc1, Hc2, I1, I2. split; reflexivity. }
  destruct Hsp as [Hsp Hnl].
  pose (s1 := set_delayed (List.repeat WHITESPACE (List.length ws))
                (Scanner_new (ws ++ [b])%list m l)).
  assert (Hcs1 : op_chars cv cs (Scanner_new (ws ++ [b])%list m l) = Ret s1).
  { rewrite op_chars_delayed; [|exact Hm|exact Hsp].
    rewrite (delayed_tags_inline cs Hnl), Hlen. reflexivity. }
  destruct (read_delayed_each_whitespace cv ws [b] s1 Hm (wf_Scanner_new _ _ _) eq_refl Hws)
    as (s2 & Hr & Hwf2 & Hu2 & Hm2 & Hl2).
  assert (Hrd : read_delayed_unread_chars cv s1 = Ret (set_delayed [] s2)).
  { unfold read_delayed_unread_chars.
    change (delayed_unread_chars s1) with (List.repeat WHITESPACE (List.length ws)).
    rewrite Hr. reflexivity. }
  assert (Hq2 : delayed_unread_chars (set_delayed [] s2) = []) by reflexivity.
  destruct (skip_ws_nonspace cv (set_delayed [] s2) b [] Hwf2 Hq2 Hu2 Hb)
    as (s3 & Hskip & Hwf3 & Hu3 & _ & _ & _ & Hq3 & _).
  rewrite op_chars_app, Hcs1. cbn [bind op_chars].
  unfold op_char.
  replace (match mode s1 with UserOutput | Lax => isspace (int_of_byte b) | TestInput => false end)
    with false by (unfold is_space_byte in Hb; rewrite Hb; destruct (mode s1); reflexivity).
  rewrite Hrd. cbn [bind]. rewrite Hskip. cbn [bind].
  rewrite (getchar_cons 0 s3 b [] Hwf3 Hu3). cbv beta iota. cbn [negb].
  rewrite Z.eqb_refl. cbn [negb bind].
  eexists. split; [reflexivity|]. split; [reflexivity|]. exact Hq3.
Qed.

(** C6.  The four calls [>> ' ' >> '\t' >> '\t' >> 'x'] succeed in UserOutput
    (and Lax) mode on any three whitespace bytes other than newline followed
    by 'x', in particular on " \t\fx"; in TestInput mode the same calls on
    " \t\fx" fail, at the form feed in position 3, where a tab was
    expected. *)
Theorem whitespace_kind_is_interchangeable (cv : CheckerVerdict) :
  (forall m l w1 w2 w3,
     lenient m = true ->
     is_space_byte w1 = true -> not_newline w1 = true ->
     is_space_byte w2 = true -> not_newline w2 = true ->
     is_space_byte w3 = true -> not_newline w3 = true ->
     exists s',
       op_chars cv [32; 9; 9; 120] (Scanner_new [w1; w2; w3; "x"%byte] m l) = Ret s' /\
       unread s' = [] /\ delayed_unread_chars s' = []) /\
  (forall l, exists s',
     op_chars cv [32; 9; 9; 120] (Scanner_new [x20; x09; x0c; "x"%byte] UserOutput l) = Ret s' /\
     unread s' = [] /\ delayed_unread_chars s' = []) /\
  (forall l,
     op_chars cv [32; 9; 9; 120] (Scanner_new [x20; x09; x0c; "x"%byte] TestInput l) =
     Stop (Exits 1 Cout
             match l with
             | EN => "Line 1, position 3: Read '\x0c', expected '\t'" ++ LF
             | PL => "Wiersz 1, pozycja 3: Wczytano '\x0c', oczekiwano '\t'" ++ LF
             end)).
Proof.
  assert (Hgen : forall m l w1 w2 w3,
     lenient m = true ->
     is_space_byte w1 = true -> not_newline w1 = true ->
     is_space_byte w2 = true -> not_newline w2 = true ->
     is_space_byte w3 = true -> not_newline w3 = true ->
     exists s',
       op_chars cv [32; 9; 9; 120] (Scanner_new [w1; w2; w3; "x"%byte] m l) = Ret s' /\
       unread s' = [] /\ delayed_unread_chars s' = []).
  { intros m l w1 w2 w3 Hm H1 N1 H2 N2 H3 N3.
    apply (whitespace_literals_match cv m l [32; 9; 9] [w1; w2; w3] "x"%byte Hm eq_refl eq_refl);
      [|reflexivity].
    cbn [forallb]. rewrite H1, N1, H2, N2, H3, N3. reflexivity. }
  split; [exact Hgen|]. split.
  - intros l. apply Hgen; reflexivity.
  - intros l. destruct l; vm_compute; reflexivity.
Qed.

Lemma whitespace_kind_is_interchangeable_witness :
  exists s',
    op_chars checker_verdict [32; 9; 9; 120]
      (Scanner_new [x0d; x0b; x20; "x"%byte] Lax PL) = Ret s' /\
    unread s' = [] /\ delayed_unread_chars s' = [].
Proof.
  destruct (whitespace_kind_is_interchangeable checker_verdict) as (H & _).
  apply (H Lax PL x0d x0b x20); reflexivity.
Defined.

(** ** The position named in a diagnostic *)

(** C5, as stated, fails.  A TestInput scanner over "x" consumes the byte at
    line 1, position 1; the next match meets the end of the stream and its
    diagnostic names line 1, position 2, not the position of the last byte
    consumed. *)
Lemma eof_failure_position_counterexample :
  exists s1,
    op_char checker_verdict 120 (Scanner_new (bytes "x") TestInput EN) = Ret s1 /\
    unread s1 = [] /\
    spec_failure_pos (bytes "x") = mkPos 1 1 /\
    op_char checker_verdict 120 s1 =
    Stop (Exits 1 Cout ("Line 1, position 2: Read EOF, expected 'x'" ++ LF)) /\
    op_char checker_verdict 120 s1 <>
    Stop (do_error checker_verdict TestInput
            (located EN (spec_failure_pos (bytes "x")) ++
             ["Read EOF, expected "; char_description 120])%list).
Proof.
  eexists. split; [reflexivity|]. split; [reflexivity|]. split; [reflexivity|].
  split; [reflexivity|]. vm_compute. discriminate.
Qed.

(** C5 (amended).  Every diagnostic names [last_char_pos].  Once [getchar]
    has delivered a byte this is the position of that byte, the last byte
    consumed; once [getchar] has met the end of the stream it is the position
    just past the last byte of the stream, where the next byte would have
    been, not the position of the last byte consumed.  [ungetchar] after
    [getchar] restores the position that was current before, so the position
    of a pushed-back lookahead byte is never the one named. *)
Theorem diagnostics_name_last_char_pos (cv : CheckerVerdict) :
  (forall s msg,
     error cv s msg =
     do_error cv (mode s) (located (lang s) (last_char_pos s) ++ msg)%list) /\
  (forall contents m l k,
     (k < List.length contents)%nat ->
     last_char_pos (getchar_n (S k) (Scanner_new contents m l)) =
     spec_failure_pos (firstn (S k) contents)) /\
  (forall contents m l,
     last_char_pos (getchar_n (S (List.length contents)) (Scanner_new contents m l)) =
     pos_after contents) /\
  (forall ch s,
     eofed s = false ->
     exists s',
       ungetchar (snd (fst (getchar ch s))) (snd (getchar ch s)) = Ret s' /\
       last_char_pos s' = last_char_pos s /\ next_char_pos s' = next_char_pos s) /\
  (exists s1,
     op_char cv 120 (Scanner_new (bytes "x") TestInput EN) = Ret s1 /\
     op_char cv 120 s1 =
     Stop (Exits 1 Cout ("Line 1, position 2: Read EOF, expected 'x'" ++ LF))).
Proof.
  split; [|split; [|split; [|split]]].
  - intros s msg. apply error_located.
  - intros contents m l k Hk. unfold spec_failure_pos.
    rewrite removelast_firstn by exact Hk.
    destruct (getchar_n_byte k (Scanner_new contents m l) (wf_Scanner_new _ _ _) Hk)
      as (Hp & _).
    rewrite Hp. apply byte_pos_Scanner_new.
  - intros contents m l.
    rewrite (getchar_n_end (List.length contents) (Scanner_new contents m l)
               (wf_Scanner_new _ _ _) eq_refl eq_refl).
    rewrite byte_pos_Scanner_new, firstn_all. reflexivity.
  - intros ch s He. unfold getchar. rewrite He.
    destruct (next_char s) as [c|]; [|destruct (file s)];
      cbv beta iota; cbn [fst snd]; eexists;
      (split; [apply ungetchar_pushback; reflexivity|split; reflexivity]).
  - eexists. split; [reflexivity|]. vm_compute. reflexivity.
Qed.

Lemma diagnostics_name_last_char_pos_witness :
  last_char_pos (getchar_n 3 (Scanner_new [x0a; "a"%byte; "b"%byte; "c"%byte] TestInput EN)) =
  mkPos 2 2.
Proof.
  destruct (diagnostics_name_last_char_pos checker_verdict) as (_ & H & _).
  rewrite (H [x0a; "a"%byte; "b"%byte; "c"%byte] TestInput EN 2%nat).
  - reflexivity.
  - cbn. lia.
Defined.

(** ** Random: range and uniformity *)

(** C3, as stated, fails.  For [uint8_t] the range [0, 255] spans the full
    width of the type, yet [range_len] is 256, not 0, so the rejection loop
    runs: the raw draw 2^64 - 1 is discarded and a second draw is taken,
    where the claim has the first draw converted to the type (255). *)
Lemma full_width_narrow_type_counterexample :
  Random_call "oi.h" (fun _ => "T oi::Random::operator()(T, T)") uint8_t 0 255
    [2 ^ 64 - 1; 5] = Ret (5, []) /\
  spec_full_width_sample uint8_t [2 ^ 64 - 1; 5] = Ret (255, [5]) /\
  Random_call "oi.h" (fun _ => "T oi::Random::operator()(T, T)") uint8_t 0 255
    [2 ^ 64 - 1; 5] <> spec_full_width_sample uint8_t [2 ^ 64 - 1; 5].
Proof.
  split; [vm_compute; reflexivity|]. split; [vm_compute; reflexivity|].
  vm_compute. discriminate.
Qed.

(** C3 (amended).  For an unsigned type [T] of at most 64 bits and
    [min <= max] of type [T], every value [Random::operator()] returns lies
    in [min, max].  Unless the range has 2^64 values, the result is
    [d mod range_len + min] for the first raw draw [d] below the limit
    [range_len * q], [q = (2^64 - 1) / range_len >= 1], and each value [x] of
    [min, max] comes from exactly the [q] accepted raw draws
    [k * range_len + (x - min)], [0 <= k < q]: with uniform raw draws every
    value has the same probability.  This includes a range that spans the
    full width of a type narrower than 64 bits; only for the 64-bit range
    [0, 2^64 - 1] is the result a single raw draw.  For a signed type the
    call is the unsigned call on [min - T_min, max - T_min] with [T_min]
    added back to the result, and the result lies in [min, max]. *)
Theorem sample_int_range_and_uniformity
    (file_name : string) (pretty_function : IntTy -> string) :
  (forall t min max draws v rest,
     is_signed t = false -> valid_ty t -> bits t <= 64 ->
     0 <= min <= max -> max <= T_max t -> Forall raw_draw draws ->
     Random_call file_name pretty_function t min max draws = Ret (v, rest) ->
     min <= v <= max) /\
  (forall t min max,
     is_signed t = false -> valid_ty t -> bits t <= 64 ->
     0 <= min <= max -> max <= T_max t -> max - min + 1 < 2 ^ 64 ->
     1 <= generator_range_len / (max - min + 1) /\
     (forall rejected d rest,
        Forall raw_draw rejected -> raw_draw d ->
        forallb (fun r => negb (accepted (max - min + 1) r)) rejected = true ->
        accepted (max - min + 1) d = true ->
        Random_call file_name pretty_function t min max (rejected ++ d :: rest)%list =
        Ret (d mod (max - min + 1) + min, rest)) /\
     (forall x d,
        min <= x <= max ->
        (raw_draw d /\ accepted (max - min + 1) d = true /\
         d mod (max - min + 1) + min = x) <->
        (exists k, 0 <= k < generator_range_len / (max - min + 1) /\
                   d = k * (max - min + 1) + (x - min))) /\
     (forall x k1 k2,
        k1 * (max - min + 1) + (x - min) = k2 * (max - min + 1) + (x - min) -> k1 = k2)) /\
  (forall t d rest,
     is_signed t = false -> bits t = 64 -> raw_draw d ->
     Random_call file_name pretty_function t 0 (2 ^ 64 - 1) (d :: rest)%list = Ret (d, rest)) /\
  (forall t min max draws,
     is_signed t = true -> valid_ty t -> bits t <= 64 ->
     T_min t <= min -> min <= max -> max <= T_max t -> Forall raw_draw draws ->
     Random_call file_name pretty_function t min max draws =
     ('(r, rest) <-
        Random_call file_name pretty_function (make_unsigned t)
          (min - T_min t) (max - T_min t) draws ;;
      Ret (r + T_min t, rest)) /\
     forall v rest,
       Random_call file_name pretty_function t min max draws = Ret (v, rest) ->
       min <= v <= max).
Proof.
  split; [|split; [|split]].
  - intros t min max draws v rest Hs Ht Hb Hmm Hmax Hraw.
    unfold Random_call. rewrite Hs.
    apply (Random_unsigned_range file_name pretty_function t min max draws); assumption.
  - intros t min max Hs Ht Hb Hmm Hmax Hlen.
    destruct (T_max_unsigned t Hs Ht Hb) as (HT & Hp).
    assert (HL : 0 < max - min + 1 < 2 ^ 64) by lia.
    destruct (limit_exact (max - min + 1) HL) as (Hlim & Hq & Hbound).
    split; [exact Hq|]. split; [|split].
    + intros rejected d rest Hrej Hd Hnot Hacc.
      unfold Random_call. rewrite Hs.
      rewrite Random_unsigned_partial by lia.
      rewrite (sample_loop_first t min (max - min + 1) rejected d rest Hrej Hd Hnot Hacc).
      unfold raw_draw in Hd.
      destruct (unsigned_result_exact t min max d Hs Hmm Hmax ltac:(lia)) as (-> & _).
      reflexivity.
    + intros x d Hx.
      pose proof (fibre_of_value (max - min + 1) (generator_range_len / (max - min + 1))
                    d (x - min) ltac:(lia) ltac:(lia)) as Hf.
      rewrite <- Hf. unfold raw_draw. rewrite (accepted_spec (max - min + 1) d HL).
      split.
      * intros (Hd & Ha & Hm). split; lia.
      * intros (Hd & Hm). split; [lia|]. split; lia.
    + intros x k1 k2 Hk. nia.
  - intros t d rest Hs Hb Hd. unfold Random_call. rewrite Hs.
    rewrite Random_unsigned_full. unfold wrap. rewrite Hs, Hb.
    unfold raw_draw in Hd. rewrite Z.mod_small by exact Hd. reflexivity.
  - intros t min max draws Hs Ht Hb Hlo Hmm Hhi Hraw.
    apply Random_signed_delegates; assumption.
Qed.

Lemma sample_int_range_and_uniformity_witness :
  Random_call "oi.h" (fun _ => "T oi::Random::operator()(T, T)") uint8_t 10 20
    [2 ^ 64 - 1; 25; 3] = Ret (13, [3]).
Proof.
  destruct (sample_int_range_and_uniformity "oi.h" (fun _ => "T oi::Random::operator()(T, T)"))
    as (_ & H & _).
  destruct (H uint8_t 10 20) as (_ & Hfirst & _).
  - reflexivity.
  - unfold valid_ty. cbn. lia.
  - cbn. lia.
  - lia.
  - cbn. lia.
  - lia.
  - apply (Hfirst [2 ^ 64 - 1] 25 [3]).
    + constructor; [unfold raw_draw; lia|constructor].
    + unfold raw_draw. lia.
    + reflexivity.
    + reflexivity.
Defined.

(** * Further properties of the library *)

(** ** Runs that neither abort nor hang *)

Lemma error_exits (cv : CheckerVerdict) (s : Scanner) (msg : list string) :
  exists code sink text, error cv s msg = Exits code sink text.
Proof.
  unfold error, do_error, exit_wrong, exit_with_error_msg, StreamImpl_end.
  destruct (lang s), (mode s); try destruct (partial_score cv); eauto.
Qed.

Lemma safe_error {A : Type} (P : A -> Prop) (cv : CheckerVerdict) (s : Scanner)
    (msg : list string) :
  safe P (Stop (error cv s msg)).
Proof. destruct (error_exits cv s msg) as (c & k & t & ->). exact I. Qed.

Lemma safe_error_lang {A : Type} (P : A -> Prop) (cv : CheckerVerdict) (s : Scanner)
    (msg1 msg2 : list string) :
  safe P (match lang s with
          | EN => Stop (error cv s msg1)
          | PL => Stop (error cv s msg2)
          end).
Proof. destruct (lang s); apply safe_error. Qed.

Lemma safe_bind {A B : Type} (P : A -> Prop) (Q : B -> Prop) (r : Res A) (k : A -> Res B) :
  safe P r -> (forall a, P a -> safe Q (k a)) -> safe Q (bind r k).
Proof. destruct r as [a|[c sk t|]|]; cbn; auto; contradiction. Qed.

Lemma safe_weaken {A : Type} (P Q : A -> Prop) (r : Res A) :
  safe P r -> (forall a, P a -> Q a) -> safe Q r.
Proof. destruct r as [a|[c sk t|]|]; cbn; auto. Qed.

Lemma keeps_refl (s : Scanner) : wf s -> keeps s s.
Proof. intros H. unfold keeps. auto. Qed.

Lemma keeps_trans (s1 s2 s3 : Scanner) : keeps s1 s2 -> keeps s2 s3 -> keeps s1 s3.
Proof.
  intros (_ & Hm & Hl & Hq) (Hwf & Hm' & Hl' & Hq'). unfold keeps.
  rewrite Hm', Hl', Hq'. auto.
Qed.

Lemma keeps_consume (b : byte) (r : list byte) (s : Scanner) : keeps s (consume b r s).
Proof. unfold keeps. split; [apply wf_consume|]. cbn. auto. Qed.

Lemma keeps_pushback_byte (b : byte) (s : Scanner) : keeps s (pushback (int_of_byte b) s).
Proof. unfold keeps. split; [apply wf_pushback_byte|]. cbn. auto. Qed.

Lemma keeps_pushback_EOF (s : Scanner) : keeps s (pushback EOF s).
Proof. unfold keeps. split; [apply wf_pushback_EOF|]. cbn. auto. Qed.

(** What [getchar] does, by what is unread. *)
Lemma getchar_cases (ch : Z) (s : Scanner) :
  wf s ->
  (exists b r, unread s = (b :: r)%list /\
               getchar ch s = (true, int_of_byte b, consume b r s)) \/
  (unread s = [] /\
   exists ch1 s1, getchar ch s = (false, ch1, s1) /\ next_char s1 = None /\
                  eofed s1 = true /\ keeps s s1 /\ unread s1 = []).
Proof.
  intros Hwf. destruct (unread s) as [|b r] eqn:Hu.
  - right. split; [reflexivity|].
    destruct (getchar_nil ch s Hwf Hu) as (ch1 & s1 & Hg & Hn & He & Hm & Hl & Hq & _).
    exists ch1, s1. split; [exact Hg|]. split; [exact Hn|]. split; [exact He|].
    split.
    + unfold keeps, wf. rewrite Hn. repeat split; auto; intros; discriminate.
    + unfold unread. rewrite He. reflexivity.
  - left. exists b, r. split; [reflexivity|]. apply (getchar_cons ch s b r Hwf Hu).
Qed.

Lemma safe_unexpected {A : Type} (P : A -> Prop) (cv : CheckerVerdict) (s : Scanner)
    (ch : Z) (expected : string) :
  safe P (Stop (unexpected_char_error cv s ch expected)).
Proof. unfold unexpected_char_error. destruct (lang s); apply safe_error. Qed.

Section LoopsAreSafe.

Variable cv : CheckerVerdict.

Lemma read_newline_loop_safe (fuel : nat) :
  forall s, wf s -> (List.length (unread s) < fuel)%nat ->
    safe (keeps s) (read_newline_loop cv fuel s).
Proof.
  induction fuel as [|fuel IH]; intros s Hwf Hfuel; [lia|].
  cbn [read_newline_loop]. unfold do_read_char.
  destruct (getchar_cases 0 s Hwf) as [(b & r & Hu & Hg)|(Hu & ch1 & s1 & Hg & _)];
    rewrite Hg; cbv beta iota; cbn [negb bind].
  - destruct (int_of_byte b =? 10); [apply keeps_consume|].
    destruct (isspace (int_of_byte b)).
    + apply (safe_weaken (keeps (consume b r s))).
      * apply IH; [apply wf_consume|]. rewrite unread_consume. rewrite Hu in Hfuel.
        cbn in Hfuel. lia.
      * intros s' Hk. apply (keeps_trans s (consume b r s) s'); [apply keeps_consume|exact Hk].
    + apply safe_unexpected.
  - destruct (lang s1); cbn [bind]; apply safe_error.
Qed.

Lemma inline_space_test (b : byte) :
  (int_of_byte b =? 10) || negb (isspace (int_of_byte b)) = negb (is_inline_space b).
Proof.
  unfold is_inline_space, is_space_byte, not_newline.
  destruct (int_of_byte b =? 10), (isspace (int_of_byte b)); reflexivity.
Qed.

Lemma ignore_ws_loop_skips (l : list byte) :
  forall (fuel : nat) (ch : Z) (s : Scanner),
    wf s -> unread s = l -> (List.length l < fuel)%nat ->
    exists s',
      ignore_ws_loop fuel ch s = Ret s' /\ keeps s s' /\
      unread s' = drop_while is_inline_space l /\ eofed s' = false /\
      (eofed s = false ->
       next_char_pos s' = byte_pos s (List.length (take_while is_inline_space l))).
Proof.
  induction l as [|b l IH]; intros fuel ch s Hwf Hu Hfuel;
    (destruct fuel as [|fuel]; [cbn in Hfuel; lia|]); cbn [ignore_ws_loop].
  - destruct (getchar_nil ch s Hwf Hu) as (ch1 & s1 & Hg & Hn & He & Hm & Hl & Hq & Hp).
    rewrite Hg. cbv beta iota. cbn [negb].
    rewrite (ungetchar_pushback EOF s1 Hn).
    eexists. split; [reflexivity|]. split.
    + unfold keeps. split; [apply wf_pushback_EOF|]. cbn. auto.
    + split; [reflexivity|]. split; [reflexivity|].
      intros Ee. unfold byte_pos. rewrite Hu.
      cbn [take_while List.length firstn fold_left pushback next_char_pos].
      apply (Hp Ee).
  - rewrite (getchar_cons ch s b l Hwf Hu). cbv beta iota. cbn [negb].
    rewrite inline_space_test. cbn [take_while drop_while].
    destruct (is_inline_space b) eqn:Ei; cbn [negb].
    + destruct (IH fuel (int_of_byte b) (consume b l s)) as (s' & Hr & Hk & Hu' & He' & Hp').
      * apply wf_consume.
      * reflexivity.
      * cbn [List.length] in Hfuel. lia.
      * exists s'. split; [exact Hr|]. split.
        { apply (keeps_trans s (consume b l s) s'); [apply keeps_consume|exact Hk]. }
        split; [exact Hu'|]. split; [exact He'|]. intros _. rewrite (Hp' eq_refl).
        cbn [List.length]. apply (byte_pos_consume s b l _ Hu).
    + rewrite ungetchar_pushback by reflexivity.
      eexists. split; [reflexivity|]. split.
      * apply (keeps_trans s (consume b l s)); [apply keeps_consume|apply keeps_pushback_byte].
      * split; [apply unread_pushback_byte|]. split; [reflexivity|].
        intros _. unfold byte_pos. reflexivity.
Qed.

Lemma eof_skip_loop_exact (l : list byte) :
  forall (fuel : nat) (ch : Z) (s : Scanner),
    wf s -> unread s = l -> (List.length l < fuel)%nat ->
    match drop_while is_space_byte l with
    | [] =>
        exists ch1 s1,
          eof_skip_loop fuel ch s = Ret (Returned, ch1, s1) /\ keeps s s1 /\
          eofed s1 = true /\ next_char s1 = None
    | (b :: r)%list =>
        exists s1,
          eof_skip_loop fuel ch s = Ret (Broke, int_of_byte b, s1) /\ keeps s s1 /\
          unread s1 = (b :: r)%list /\
          next_char_pos s1 = byte_pos s (List.length (take_while is_space_byte l))
    end.
Proof.
  induction l as [|b l IH]; intros fuel ch s Hwf Hu Hfuel;
    (destruct fuel as [|fuel]; [cbn in Hfuel; lia|]); cbn [eof_skip_loop].
  - destruct (getchar_cases ch s Hwf) as [(b & r & Hu' & _)|(_ & ch1 & s1 & Hg & Hn & He & Hk & _)].
    + rewrite Hu in Hu'. discriminate.
    + rewrite Hg. cbv beta iota. cbn [negb drop_while]. exists ch1, s1. auto.
  - rewrite (getchar_cons ch s b l Hwf Hu). cbv beta iota. cbn [negb].
    cbn [drop_while take_while]. unfold is_space_byte at 1 3.
    destruct (isspace (int_of_byte b)) eqn:Esp; cbn [negb].
    + specialize (IH fuel (int_of_byte b) (consume b l s) (wf_consume _ _ _) eq_refl).
      cbn [List.length] in Hfuel. specialize (IH ltac:(lia)).
      destruct (drop_while is_space_byte l) as [|c r].
      * destruct IH as (ch1 & s1 & Hr & Hk & He & Hn). exists ch1, s1.
        split; [exact Hr|]. split; [|auto].
        apply (keeps_trans s (consume b l s) s1); [apply keeps_consume|exact Hk].
      * destruct IH as (s1 & Hr & Hk & Hu1 & Hp). exists s1.
        split; [exact Hr|]. split.
        { apply (keeps_trans s (consume b l s) s1); [apply keeps_consume|exact Hk]. }
        split; [exact Hu1|]. rewrite Hp. cbn [List.length].
        apply (byte_pos_consume s b l _ Hu).
    + rewrite ungetchar_pushback by reflexivity. cbn [bind].
      eexists. split; [reflexivity|]. split.
      * apply (keeps_trans s (consume b l s)); [apply keeps_consume|apply keeps_pushback_byte].
      * split; [apply unread_pushback_byte|]. reflexivity.
Qed.

Lemma str_loop_post (max_size : Z) (fuel : nat) :
  forall (var : list byte) (ch : Z) (s : Scanner),
    wf s -> (List.length (unread s) < fuel)%nat ->
    0 <= ch < 256 -> isspace ch = false ->
    forallb (fun b => negb (is_space_byte b)) var = true ->
    safe (fun p => keeps s (snd p) /\ fst p <> [] /\
                   forallb (fun b => negb (is_space_byte b)) (fst p) = true /\
                   Z.of_nat (List.length (fst p)) <= max_size)
         (str_loop cv fuel max_size var ch s).
Proof.
  induction fuel as [|fuel IH]; intros var ch s Hwf Hfuel Hch Hsp Hvar; [lia|].
  cbn [str_loop].
  assert (Hvar1 : forallb (fun b => negb (is_space_byte b)) (var ++ [char_of_int ch]) = true).
  { rewrite forallb_app, Hvar. cbn [forallb]. unfold is_space_byte.
    rewrite (int_of_char_of_int ch Hch), Hsp. reflexivity. }
  destruct (Z.of_nat (List.length (var ++ [char_of_int ch])) >? max_size) eqn:Elen.
  - apply safe_error.
  - assert (Hlen : Z.of_nat (List.length (var ++ [char_of_int ch])) <= max_size).
    { rewrite Z.gtb_ltb in Elen. apply Z.ltb_ge in Elen. exact Elen. }
    assert (Hne : (var ++ [char_of_int ch])%list <> []).
    { intros E. apply app_eq_nil in E as [_ E]. discriminate. }
    destruct (getchar_cases ch s Hwf) as [(b & r & Hu & Hg)|(Hu & ch1 & s1 & Hg & Hn & _ & Hk & _)];
      rewrite Hg; cbv beta iota; cbn [negb].
    + destruct (isspace (int_of_byte b)) eqn:Eb.
      * rewrite ungetchar_pushback by reflexivity. cbn [bind safe fst snd].
        split; [|auto].
        apply (keeps_trans s (consume b r s)); [apply keeps_consume|apply keeps_pushback_byte].
      * apply (safe_weaken
                 (fun p => keeps (consume b r s) (snd p) /\ fst p <> [] /\
                           forallb (fun b => negb (is_space_byte b)) (fst p) = true /\
                           Z.of_nat (List.length (fst p)) <= max_size)).
        { apply IH; auto.
          - apply wf_consume.
          - rewrite unread_consume. rewrite Hu in Hfuel. cbn in Hfuel. lia.
          - apply int_of_byte_range. }
        { intros p (Hk & Hrest). split; [|exact Hrest].
          apply (keeps_trans s (consume b r s)); [apply keeps_consume|exact Hk]. }
    + rewrite (ungetchar_pushback EOF s1 Hn). cbn [bind safe fst snd].
      split; [|auto].
      apply (keeps_trans s s1); [exact Hk|apply keeps_pushback_EOF].
Qed.

Lemma scan_integer_loop_safe (t : IntTy) (minus : bool) (fuel : nat) :
  forall (val ch : Z) (s : Scanner),
    wf s -> (List.length (unread s) < fuel)%nat ->
    safe (fun p => keeps s (snd p)) (scan_integer_loop cv fuel t minus val ch s).
Proof.
  induction fuel as [|fuel IH]; intros val ch s Hwf Hfuel; [lia|].
  cbn [scan_integer_loop].
  destruct (getchar_cases ch s Hwf) as [(b & r & Hu & Hg)|(Hu & ch1 & s1 & Hg & Hn & _ & Hk & _)];
    rewrite Hg; cbv beta iota; cbn [negb].
  - destruct (isdigit (int_of_byte b)); cbn [negb].
    + unfold builtin_mul_overflow.
      destruct (negb (fits t (val * 10))); [apply safe_error|].
      destruct (if negb minus
                then builtin_add_overflow t (wrap t (val * 10)) (int_of_byte b - 48)
                else (false, wrap t (val * 10))) as [o2 v2].
      destruct o2; [apply safe_error|].
      destruct (if minus then builtin_sub_overflow t v2 (int_of_byte b - 48) else (false, v2))
        as [o3 v3].
      destruct o3; [apply safe_error|].
      apply (safe_weaken (fun p => keeps (consume b r s) (snd p))).
      * apply IH; [apply wf_consume|]. rewrite unread_consume. rewrite Hu in Hfuel.
        cbn in Hfuel. lia.
      * intros p Hp. apply (keeps_trans s (consume b r s)); [apply keeps_consume|exact Hp].
    + rewrite ungetchar_pushback by reflexivity. cbn [bind safe snd].
      apply (keeps_trans s (consume b r s)); [apply keeps_consume|apply keeps_pushback_byte].
  - rewrite (ungetchar_pushback EOF s1 Hn). cbn [bind safe snd].
    apply (keeps_trans s s1); [exact Hk|apply keeps_pushback_EOF].
Qed.

End LoopsAreSafe.

Section OpsAreSafe.

Variable cv : CheckerVerdict.

Lemma lenient_not_TestInput (s : Scanner) :
  lenient (mode s) = true -> mode s = TestInput -> False.
Proof. intros Hl Hm. rewrite Hm in Hl. discriminate. Qed.

Lemma read_delayed_one_safe (d : DelayedUnreadChars) (s : Scanner) :
  lenient (mode s) = true -> wf s -> safe (keeps s) (read_delayed_one cv d s).
Proof.
  intros Hm Hwf. unfold read_delayed_one.
  destruct d.
  - assert (Hgo : safe (keeps s)
                    ('(ch, s1) <- do_read_char cv "' '" s ;;
                     if negb (isspace ch) || (ch =? 10)
                     then Stop (unexpected_char_error cv s1 ch "' '")
                     else Ret s1)).
    { unfold do_read_char.
      destruct (getchar_cases 0 s Hwf) as [(b & r & Hu & Hg)|(Hu & ch1 & s1 & Hg & _)];
        rewrite Hg; cbv beta iota; cbn [negb bind].
      - destruct (negb (isspace (int_of_byte b)) || (int_of_byte b =? 10));
          [apply safe_unexpected|apply keeps_consume].
      - destruct (lang s1); cbn [bind]; apply safe_error. }
    destruct (mode s); try discriminate; exact Hgo.
  - destruct (mode s); try discriminate;
      apply read_newline_loop_safe; auto; apply length_unread.
Qed.

Lemma read_delayed_each_safe (q : list DelayedUnreadChars) :
  forall s, lenient (mode s) = true -> wf s -> safe (keeps s) (read_delayed_each cv q s).
Proof.
  induction q as [|d q IH]; intros s Hm Hwf; cbn [read_delayed_each].
  - apply keeps_refl. exact Hwf.
  - apply (safe_bind (keeps s)); [apply read_delayed_one_safe; assumption|].
    intros s1 Hk. apply (safe_weaken (keeps s1)).
    + destruct Hk as (Hwf1 & Hm1 & _). apply IH; [rewrite Hm1; exact Hm|exact Hwf1].
    + intros s2 Hk2. apply (keeps_trans s s1 s2); assumption.
Qed.

Lemma read_delayed_unread_chars_safe (s : Scanner) :
  inv s -> safe (keeps (set_delayed [] s)) (read_delayed_unread_chars cv s).
Proof.
  intros [Hwf Hti]. unfold read_delayed_unread_chars.
  destruct (lenient (mode s)) eqn:Hm.
  - apply (safe_bind (keeps s)); [apply read_delayed_each_safe; assumption|].
    intros s1 (Hwf1 & Hm1 & Hl1 & _). cbn [safe]. unfold keeps. cbn. auto.
  - assert (Hmode : mode s = TestInput) by (destruct (mode s); try discriminate; reflexivity).
    rewrite (Hti Hmode). cbn [read_delayed_each bind safe]. unfold keeps. cbn. auto.
Qed.

Lemma keeps_cleared_again (s s1 s2 : Scanner) :
  keeps (set_delayed [] s) s1 -> keeps (set_delayed [] s1) s2 -> keeps (set_delayed [] s) s2.
Proof.
  intros (Hwf1 & Hm1 & Hl1 & Hq1) (Hwf2 & Hm2 & Hl2 & Hq2). unfold keeps in *.
  cbn in *. rewrite Hm2, Hl2, Hq2. auto.
Qed.

Lemma keeps_cleared_inv (s s1 : Scanner) : keeps (set_delayed [] s) s1 -> inv s1.
Proof. intros (Hwf1 & _ & _ & Hq1). split; [exact Hwf1|]. intros _. exact Hq1. Qed.

Lemma keeps_after_cleared (s s1 s2 : Scanner) :
  keeps (set_delayed [] s) s1 -> keeps s1 s2 -> keeps (set_delayed [] s) s2.
Proof. intros H1 H2. apply (keeps_trans _ s1); assumption. Qed.

Lemma op_ignore_ws_safe (s : Scanner) :
  inv s -> safe (keeps (set_delayed [] s)) (op_ignore_ws cv s).
Proof.
  intros Hinv. unfold op_ignore_ws.
  apply (safe_bind (keeps (set_delayed [] s))); [apply read_delayed_unread_chars_safe; exact Hinv|].
  intros s1 Hk.
  destruct (ignore_ws_loop_skips (unread s1) (fuel_of s1) 0 s1) as (s2 & Hr & Hk2 & _).
  - apply Hk.
  - reflexivity.
  - apply length_unread.
  - rewrite Hr. cbn [safe]. apply (keeps_after_cleared s s1 s2); assumption.
Qed.

Lemma skip_ws_if_lenient_safe (s : Scanner) :
  inv s -> delayed_unread_chars s = [] ->
  safe (keeps s) (skip_ws_if_lenient cv s).
Proof.
  intros Hinv Hq. unfold skip_ws_if_lenient.
  assert (Hs : set_delayed [] s = s) by (rewrite <- Hq; apply set_delayed_same).
  pose proof (op_ignore_ws_safe s Hinv) as Hgo. rewrite Hs in Hgo.
  destruct (mode s); try exact Hgo. apply keeps_refl. apply Hinv.
Qed.

Lemma skip_after_cleared_safe (s s1 : Scanner) :
  keeps (set_delayed [] s) s1 ->
  safe (keeps (set_delayed [] s)) (skip_ws_if_lenient cv s1).
Proof.
  intros Hk. apply (safe_weaken (keeps s1)).
  - apply skip_ws_if_lenient_safe; [apply (keeps_cleared_inv s s1 Hk)|apply Hk].
  - intros s2 Hk2. apply (keeps_after_cleared s s1 s2); assumption.
Qed.

(** The common start of the extraction operators: the deferred matches,
    then the whitespace. *)
Ltac extraction_start s Hinv s2 Hk :=
  let s1 := fresh "s1" in
  let Hk1 := fresh "Hk1" in
  apply (safe_bind (keeps (set_delayed [] s)));
  [apply read_delayed_unread_chars_safe; exact Hinv|];
  intros s1 Hk1;
  apply (safe_bind (keeps (set_delayed [] s)));
  [apply (skip_after_cleared_safe s s1 Hk1)|];
  intros s2 Hk.

Lemma keeps_cleared_same (s s1 : Scanner) : keeps (set_delayed [] s) s1 -> same_scanner s s1.
Proof.
  intros Hk. split; [apply (keeps_cleared_inv s s1 Hk)|].
  destruct Hk as (_ & Hm & Hl & _). auto.
Qed.

Lemma op_char_safe (c : Z) (s : Scanner) : inv s -> safe (same_scanner s) (op_char cv c s).
Proof.
  intros Hinv. unfold op_char.
  destruct (match mode s with UserOutput | Lax => isspace c | TestInput => false end) eqn:Ed.
  - assert (Hm : mode s <> TestInput) by (intros E; rewrite E in Ed; discriminate).
    assert (Hgo : forall q, same_scanner s (set_delayed q s)).
    { intros q. split; [split; [apply Hinv|]|split; reflexivity].
      intros E. contradiction. }
    destruct (c =? 10); apply Hgo.
  - extraction_start s Hinv s2 Hk.
    destruct (getchar_cases 0 s2 (proj1 Hk)) as [(b & r & Hu & Hg)|(Hu & ch1 & s3 & Hg & _)];
      rewrite Hg; cbv beta iota; cbn [negb].
    + destruct (negb (int_of_byte b =? c)); [apply safe_error_lang|].
      apply (keeps_cleared_same s). apply (keeps_after_cleared s s2); [exact Hk|apply keeps_consume].
    + apply safe_error_lang.
Qed.

Lemma keeps_same (s s1 : Scanner) : inv s -> keeps s s1 -> same_scanner s s1.
Proof.
  intros [_ Hti] (Hwf1 & Hm & Hl & Hq). split; [|auto].
  split; [exact Hwf1|]. rewrite Hm, Hq. exact Hti.
Qed.

Lemma op_eof_safe (s : Scanner) : inv s -> safe (same_scanner s) (op_eof cv s).
Proof.
  intros Hinv. unfold op_eof.
  assert (Hlen : forall s0, wf s0 -> mode s0 = mode s -> lang s0 = lang s ->
            delayed_unread_chars s0 = [] ->
            safe (same_scanner s)
              ('(how, ch, s1) <- eof_skip_loop (fuel_of s0) 0 s0 ;;
               match how with
               | Returned => Ret s1
               | Broke => expect_eof cv ch s1
               end)).
  { intros s0 Hwf0 Hm0 Hl0 Hq0.
    pose proof (eof_skip_loop_exact (unread s0) (fuel_of s0) 0 s0 Hwf0 eq_refl
                  (length_unread s0)) as Hloop.
    destruct (drop_while is_space_byte (unread s0)) as [|b r].
    - destruct Hloop as (ch1 & s1 & Hr & (Hwf1 & Hm1 & Hl1 & Hq1) & _).
      rewrite Hr. cbn [bind safe]. split; [|rewrite Hm1, Hl1; auto].
      split; [exact Hwf1|]. intros _. rewrite Hq1. exact Hq0.
    - destruct Hloop as (s1 & Hr & (Hwf1 & _) & Hu1 & _).
      rewrite Hr. cbn [bind]. unfold expect_eof.
      rewrite (getchar_cons _ s1 b r Hwf1 Hu1). cbv beta iota. apply safe_error_lang. }
  destruct (mode s) eqn:Em.
  - apply Hlen; [apply Hinv|exact Em|reflexivity|reflexivity].
  - apply Hlen; [apply Hinv|exact Em|reflexivity|reflexivity].
  - unfold expect_eof.
    destruct (getchar_cases 0 s (proj1 Hinv)) as [(b & r & Hu & Hg)|(Hu & ch1 & s1 & Hg & _ & _ & Hk & _)];
      rewrite Hg; cbv beta iota.
    + apply safe_error_lang.
    + cbn [safe]. exact (keeps_same s s1 Hinv Hk).
Qed.

Lemma op_Line_safe (max_size : Z) (s : Scanner) :
  inv s -> safe (fun p => same_scanner s (snd p)) (op_Line cv max_size s).
Proof.
  intros Hinv. unfold op_Line.
  apply (safe_bind (keeps (set_delayed [] s))); [apply read_delayed_unread_chars_safe; exact Hinv|].
  intros s1 Hk.
  destruct (line_loop_ok (unread s1) [] (fuel_of s1) 0 s1 (proj1 Hk) eq_refl (length_unread s1))
    as (s2 & Hr & Hwf2 & _ & Hm2 & Hl2 & Hq2).
  rewrite Hr. cbn [safe snd]. apply (keeps_cleared_same s).
  apply (keeps_after_cleared s s1 s2 Hk). unfold keeps. auto.
Qed.

Lemma op_Str_safe (max_size : Z) (s : Scanner) :
  0 < max_size -> inv s ->
  safe (fun p => same_scanner s (snd p) /\ fst p <> [] /\
                 forallb (fun b => negb (is_space_byte b)) (fst p) = true /\
                 Z.of_nat (List.length (fst p)) <= max_size)
       (op_Str cv max_size s).
Proof.
  intros Hmax Hinv. unfold op_Str.
  replace (max_size >? 0) with true by (symmetry; rewrite Z.gtb_ltb; apply Z.ltb_lt; lia).
  cbn [negb]. extraction_start s Hinv s2 Hk.
  destruct (getchar_cases 0 s2 (proj1 Hk)) as [(b & r & Hu & Hg)|(Hu & ch1 & s3 & Hg & _)];
    rewrite Hg; cbv beta iota; cbn [negb].
  - destruct (isspace (int_of_byte b)) eqn:Eb; [apply safe_error_lang|].
    apply (safe_weaken
             (fun p => keeps (consume b r s2) (snd p) /\ fst p <> [] /\
                       forallb (fun b => negb (is_space_byte b)) (fst p) = true /\
                       Z.of_nat (List.length (fst p)) <= max_size)).
    + apply str_loop_post; auto.
      * apply wf_consume.
      * apply length_unread.
      * apply int_of_byte_range.
    + intros p (Hk3 & Hrest). split; [|exact Hrest].
      apply (keeps_cleared_same s). apply (keeps_after_cleared s s2 _ Hk).
      apply (keeps_trans s2 (consume b r s2)); [apply keeps_consume|exact Hk3].
  - apply safe_error.
Qed.

Lemma scan_integer_safe (t : IntTy) (s : Scanner) :
  wf s -> safe (fun p => keeps s (snd p)) (scan_integer cv t s).
Proof.
  intros Hwf. unfold scan_integer.
  assert (Hrun : forall (minus : bool) (b : byte) (r : list byte) (s1 : Scanner),
            keeps s s1 ->
            safe (fun p => keeps s (snd p))
              (if (int_of_byte b <? 48) || (57 <? int_of_byte b)
               then match lang (consume b r s1) with
                    | EN => Stop (error cv (consume b r s1)
                                    ["Read "; char_description (int_of_byte b);
                                     ", expected a number"])
                    | PL => Stop (error cv (consume b r s1)
                                    ["Wczytano "; char_description (int_of_byte b);
                                     ", oczekiwano liczby"])
                    end
               else scan_integer_loop cv (fuel_of (consume b r s1)) t minus
                      (wrap t (if minus then 48 - int_of_byte b else int_of_byte b - 48))
                      (int_of_byte b) (consume b r s1))).
  { intros minus b r s1 Hk1.
    destruct ((int_of_byte b <? 48) || (57 <? int_of_byte b)); [apply safe_error_lang|].
    apply (safe_weaken (fun p => keeps (consume b r s1) (snd p))).
    - apply scan_integer_loop_safe; [apply wf_consume|apply length_unread].
    - intros p Hp. apply (keeps_trans s s1); [exact Hk1|].
      apply (keeps_trans s1 (consume b r s1)); [apply keeps_consume|exact Hp]. }
  destruct (getchar_cases 0 s Hwf) as [(b & r & Hu & Hg)|(Hu & ch1 & s1 & Hg & _)];
    rewrite Hg; cbv beta iota; cbn [negb]; [|apply safe_error].
  destruct (int_of_byte b =? 45).
  - destruct (is_signed t); cbn [negb bind]; [|apply safe_error].
    destruct (getchar_cases (int_of_byte b) (consume b r s) (wf_consume _ _ _))
      as [(b2 & r2 & Hu2 & Hg2)|(Hu2 & ch2 & s2 & Hg2 & _)];
      rewrite Hg2; cbv beta iota; cbn [negb bind]; [|apply safe_error].
    apply (Hrun true b2 r2 (consume b r s)). apply keeps_consume.
  - cbn [bind]. apply (Hrun false b r s). apply keeps_refl. exact Hwf.
Qed.

Lemma op_Num_safe (t : IntTy) (min max : Z) (s : Scanner) :
  min <= max -> inv s ->
  safe (fun p => same_scanner s (snd p) /\ min <= fst p <= max) (op_Num cv t min max s).
Proof.
  intros Hmm Hinv. unfold op_Num.
  replace (min <=? max) with true by (symmetry; apply Z.leb_le; lia).
  cbn [negb]. extraction_start s Hinv s2 Hk.
  apply (safe_bind (fun p => keeps s2 (snd p))); [apply scan_integer_safe; apply Hk|].
  intros [var s3] Hk3. cbn [snd] in Hk3.
  destruct (var <? min) eqn:E1; cbn [orb]; [apply safe_error|].
  destruct (var >? max) eqn:E2; [apply safe_error|].
  cbn [safe fst snd]. split.
  - apply (keeps_cleared_same s). apply (keeps_after_cleared s s2 s3); assumption.
  - apply Z.ltb_ge in E1. rewrite Z.gtb_ltb in E2. apply Z.ltb_ge in E2. lia.
Qed.

Lemma strchr_found_spec (variants : list byte) (b : byte) :
  strchr_found variants (int_of_byte b) = true <-> In b variants \/ b = x00.
Proof.
  unfold strchr_found. rewrite char_of_int_of_byte, orb_true_iff, existsb_exists.
  split.
  - intros [(x & Hx & He)|He].
    + left. apply Byte.byte_dec_bl in He. subst x. exact Hx.
    + right. apply Byte.byte_dec_bl in He. exact He.
  - intros [Hin| ->].
    + left. exists b. split; [exact Hin|]. apply Byte.byte_dec_lb. reflexivity.
    + right. reflexivity.
Qed.

Lemma op_Char_safe (variants : list byte) (s : Scanner) :
  inv s ->
  safe (fun p => same_scanner s (snd p) /\ (In (fst p) variants \/ fst p = x00))
       (op_Char cv variants s).
Proof.
  intros Hinv. unfold op_Char. extraction_start s Hinv s2 Hk.
  destruct (getchar_cases 0 s2 (proj1 Hk)) as [(b & r & Hu & Hg)|(Hu & ch1 & s3 & Hg & _)];
    rewrite Hg; cbv beta iota; cbn [negb].
  - destruct (strchr_found variants (int_of_byte b)) eqn:Ef; cbn [negb];
      [|apply safe_error_lang].
    cbn [safe fst snd]. rewrite char_of_int_of_byte. split.
    + apply (keeps_cleared_same s).
      apply (keeps_after_cleared s s2 _ Hk). apply keeps_consume.
    + apply strchr_found_spec. exact Ef.
  - apply safe_error_lang.
Qed.

End OpsAreSafe.

Lemma inv_Scanner_new (contents : list byte) (m : Mode) (l : Lang) :
  inv (Scanner_new contents m l).
Proof. split; [apply wf_Scanner_new|reflexivity]. Qed.

(** X1.  A freshly constructed scanner satisfies [inv], and from a state
    satisfying [inv] no operation of the scanner aborts (neither the
    [assert] of [ungetchar] nor the [std::terminate] of
    [read_delayed_unread_chars] is reached) or loops: it either ends the
    process through [error] or returns a state that satisfies [inv] again,
    with the mode and the language unchanged. *)
Theorem scanner_operations_never_abort (cv : CheckerVerdict) :
  (forall contents m l, inv (Scanner_new contents m l)) /\
  (forall s,
     inv s ->
     (forall c, safe (same_scanner s) (op_char cv c s)) /\
     safe (same_scanner s) (op_nl cv s) /\
     safe (same_scanner s) (op_eof cv s) /\
     safe (same_scanner s) (op_ignore_ws cv s) /\
     safe (same_scanner s) (do_destructor_checks cv s) /\
     (forall cap, safe (fun p => same_scanner s (snd p)) (op_Line cv cap s)) /\
     (forall cap, 0 < cap -> safe (fun p => same_scanner s (snd p)) (op_Str cv cap s)) /\
     (forall variants, safe (fun p => same_scanner s (snd p)) (op_Char cv variants s)) /\
     (forall t min max,
        min <= max -> safe (fun p => same_scanner s (snd p)) (op_Num cv t min max s))).
Proof.
  split; [exact inv_Scanner_new|].
  intros s Hinv.
  split; [intros c; apply op_char_safe; exact Hinv|].
  split; [apply op_char_safe; exact Hinv|].
  split; [apply op_eof_safe; exact Hinv|].
  split.
  { apply (safe_weaken (keeps (set_delayed [] s))); [apply op_ignore_ws_safe; exact Hinv|].
    apply keeps_cleared_same. }
  split.
  { unfold do_destructor_checks. destruct (mode s) eqn:Em.
    - apply op_eof_safe; exact Hinv.
    - cbn [safe]. split; [exact Hinv|auto].
    - apply op_eof_safe; exact Hinv. }
  split; [intros cap; apply op_Line_safe; exact Hinv|].
  split.
  { intros cap Hcap.
    apply (safe_weaken _ _ _ (op_Str_safe cv cap s Hcap Hinv)). intros p Hp. apply Hp. }
  split.
  { intros variants.
    apply (safe_weaken _ _ _ (op_Char_safe cv variants s Hinv)). intros p Hp. apply Hp. }
  intros t min max Hmm.
  apply (safe_weaken _ _ _ (op_Num_safe cv t min max s Hmm Hinv)). intros p Hp. apply Hp.
Qed.

Lemma scanner_operations_never_abort_witness :
  safe (fun p => same_scanner (Scanner_new (bytes "12 x") UserOutput EN) (snd p))
       (op_Num checker_verdict int32_t 0 100 (Scanner_new (bytes "12 x") UserOutput EN)).
Proof.
  destruct (scanner_operations_never_abort checker_verdict) as (Hnew & H).
  destruct (H (Scanner_new (bytes "12 x") UserOutput EN) (Hnew _ _ _))
    as (_ & _ & _ & _ & _ & _ & _ & _ & Hnum).
  apply Hnum. lia.
Defined.

(** X2.  Whatever the input, when [Scanner >> Str] returns, the token is
    not empty, holds no whitespace byte and has at most [max_size] bytes;
    when [Scanner >> Num] returns, the value lies within [min, max]. *)
Theorem extraction_postconditions (cv : CheckerVerdict) (s : Scanner) :
  inv s ->
  (forall max_size tok s',
     op_Str cv max_size s = Ret (tok, s') ->
     tok <> [] /\ forallb (fun b => negb (is_space_byte b)) tok = true /\
     Z.of_nat (List.length tok) <= max_size) /\
  (forall t min max v s',
     op_Num cv t min max s = Ret (v, s') -> min <= v <= max).
Proof.
  intros Hinv. split.
  - intros max_size tok s' Hr.
    destruct (Z_lt_dec 0 max_size) as [Hmax|Hmax].
    + pose proof (op_Str_safe cv max_size s Hmax Hinv) as Hs. rewrite Hr in Hs.
      cbn [safe fst snd] in Hs. apply Hs.
    + unfold op_Str in Hr.
      replace (max_size >? 0) with false in Hr
        by (symmetry; rewrite Z.gtb_ltb; apply Z.ltb_ge; lia).
      discriminate.
  - intros t min max v s' Hr.
    destruct (Z_le_dec min max) as [Hmm|Hmm].
    + pose proof (op_Num_safe cv t min max s Hmm Hinv) as Hs. rewrite Hr in Hs.
      cbn [safe fst snd] in Hs. apply Hs.
    + unfold op_Num in Hr.
      replace (min <=? max) with false in Hr by (symmetry; apply Z.leb_gt; lia).
      discriminate.
Qed.

Lemma extraction_postconditions_witness :
  bytes "YES" <> [] /\
  forallb (fun b => negb (is_space_byte b)) (bytes "YES") = true /\
  Z.of_nat (List.length (bytes "YES")) <= 4.
Proof.
  assert (H : exists s',
             op_Str checker_verdict 4 (Scanner_new (bytes "  YES x") Lax PL) =
             Ret (bytes "YES", s')) by (vm_compute; eexists; reflexivity).
  destruct H as (s' & Hr).
  exact (proj1 (extraction_postconditions checker_verdict
                  (Scanner_new (bytes "  YES x") Lax PL) (inv_Scanner_new _ _ _))
           4 (bytes "YES") s' Hr).
Defined.

(** ** Exact behaviour of the remaining operations *)

Section ExactBehaviour.

Variable cv : CheckerVerdict.

Lemma set_delayed_nil_same (s : Scanner) :
  delayed_unread_chars s = [] -> set_delayed [] s = s.
Proof. intros H. rewrite <- H. apply set_delayed_same. Qed.

Lemma op_ignore_ws_exact (s : Scanner) :
  wf s -> delayed_unread_chars s = [] ->
  exists s',
    op_ignore_ws cv s = Ret s' /\ keeps s s' /\
    unread s' = drop_while is_inline_space (unread s) /\ eofed s' = false /\
    (eofed s = false ->
     next_char_pos s' =
     byte_pos s (List.length (take_while is_inline_space (unread s)))).
Proof.
  intros Hwf Hq. unfold op_ignore_ws.
  rewrite (read_delayed_nothing cv s Hq). cbn [bind].
  apply ignore_ws_loop_skips; [exact Hwf|reflexivity|apply length_unread].
Qed.

Lemma take_drop_while (p : byte -> bool) (l : list byte) :
  l = (take_while p l ++ drop_while p l)%list.
Proof.
  induction l as [|b l IH]; [reflexivity|]. cbn.
  destruct (p b); [cbn; rewrite <- IH|]; reflexivity.
Qed.

Lemma skip_ws_exact (s : Scanner) :
  wf s -> delayed_unread_chars s = [] -> eofed s = false ->
  exists s2,
    skip_ws_if_lenient cv s = Ret s2 /\ keeps s s2 /\
    unread s2 = after_ws s /\ eofed s2 = false /\
    next_char_pos s2 = byte_pos s (List.length (skipped_ws s)).
Proof.
  intros Hwf Hq He. unfold skip_ws_if_lenient, after_ws, skipped_ws.
  destruct (op_ignore_ws_exact s Hwf Hq) as (s2 & Hr & Hk & Hu & He2 & Hp).
  destruct (mode s) eqn:Em; cbn [lenient].
  - exists s2. rewrite Hr. pose proof (Hp He). auto.
  - exists s2. rewrite Hr. pose proof (Hp He). auto.
  - exists s. split; [reflexivity|]. split; [apply keeps_refl; exact Hwf|].
    split; [reflexivity|]. split; [exact He|]. reflexivity.
Qed.

(** The first [getchar] of an operation, with the position it leaves in
    [last_char_pos]. *)
Lemma first_read (ch : Z) (s : Scanner) :
  wf s -> eofed s = false ->
  match unread s with
  | [] =>
      exists ch1 s1,
        getchar ch s = (false, ch1, s1) /\ mode s1 = mode s /\ lang s1 = lang s /\
        last_char_pos s1 = next_char_pos s
  | (b :: r)%list => getchar ch s = (true, int_of_byte b, consume b r s)
  end.
Proof.
  intros Hwf He. destruct (unread s) as [|b r] eqn:Hu.
  - destruct (getchar_nil ch s Hwf Hu) as (ch1 & s1 & Hg & _ & _ & Hm & Hl & _ & Hp).
    exists ch1, s1. auto.
  - apply (getchar_cons ch s b r Hwf Hu).
Qed.

End ExactBehaviour.

(** X3.  [Scanner >> Char] with nothing deferred, after the whitespace the
    mode skips: at the end of the stream it fails "Read EOF, expected one of
    characters: <variants>"; it returns the next byte when that byte is one
    of [variants] or the NUL byte (which [strchr] finds in every string);
    any other byte fails, named with the list of variants, at its own
    position. *)
Theorem read_one_of_exact (cv : CheckerVerdict) (variants : list byte) (s : Scanner) :
  wf s -> delayed_unread_chars s = [] -> eofed s = false ->
  match after_ws s with
  | [] =>
      op_Char cv variants s =
      Stop (do_error cv (mode s)
              (located (lang s) (byte_pos s (List.length (skipped_ws s))) ++
               match lang s with
               | EN => ["Read EOF, expected one of characters: ";
                        string_of_list_byte variants]
               | PL => ["Wczytano EOF, oczekiwano jednego ze znakow: ";
                        string_of_list_byte variants]
               end)%list)
  | (b :: r)%list =>
      if strchr_found variants (int_of_byte b)
      then (In b variants \/ b = x00) /\
           exists s', op_Char cv variants s = Ret (b, s') /\ unread s' = r
      else
        op_Char cv variants s =
        Stop (do_error cv (mode s)
                (located (lang s) (byte_pos s (List.length (skipped_ws s))) ++
                 match lang s with
                 | EN => ["Read "; char_description (int_of_byte b);
                          ", expected one of characters: "; string_of_list_byte variants]
                 | PL => ["Wczytano "; char_description (int_of_byte b);
                          ", oczekiwano jednego ze znakow: "; string_of_list_byte variants]
                 end)%list)
  end.
Proof.
  intros Hwf Hq He.
  destruct (skip_ws_exact cv s Hwf Hq He) as (s2 & Hskip & (Hwf2 & Hm2 & Hl2 & _) & Hu2 & He2 & Hp2).
  pose proof (first_read 0 s2 Hwf2 He2) as Hfirst. rewrite Hu2 in Hfirst.
  unfold op_Char. rewrite (read_delayed_nothing cv s Hq). cbn [bind].
  rewrite Hskip. cbn [bind].
  destruct (after_ws s) as [|b r].
  - destruct Hfirst as (ch1 & s3 & Hg & Hm3 & Hl3 & Hp3). rewrite Hg. cbv beta iota.
    cbn [negb]. rewrite !error_located, Hm3, Hl3, Hp3, Hm2, Hl2, Hp2.
    destruct (lang s); reflexivity.
  - rewrite Hfirst. cbv beta iota. cbn [negb].
    destruct (strchr_found variants (int_of_byte b)) eqn:Ef; cbn [negb].
    + split; [apply strchr_found_spec; exact Ef|].
      eexists. rewrite char_of_int_of_byte. split; reflexivity.
    + rewrite !error_located. cbn [mode lang last_char_pos consume].
      rewrite Hm2, Hl2, Hp2. destruct (lang s); reflexivity.
Qed.

Lemma read_one_of_exact_witness :
  (In x00 (bytes "TN") \/ x00 = x00) /\
  exists s',
    op_Char checker_verdict (bytes "TN") (Scanner_new [" "%byte; x00; "T"%byte] Lax EN) =
    Ret (x00, s') /\ unread s' = ["T"%byte].
Proof.
  exact (read_one_of_exact checker_verdict (bytes "TN")
           (Scanner_new [" "%byte; x00; "T"%byte] Lax EN)
           (wf_Scanner_new _ _ _) eq_refl eq_refl).
Defined.

(** X4.  [Scanner >> ignore_ws] with nothing deferred never fails, in any
    mode: it consumes exactly the leading whitespace bytes other than
    newline and stops in front of the first newline, other byte or the end
    of the stream. *)
Theorem skip_whitespace_exact (cv : CheckerVerdict) (s : Scanner) :
  wf s -> delayed_unread_chars s = [] ->
  exists s',
    op_ignore_ws cv s = Ret s' /\
    unread s' = drop_while is_inline_space (unread s) /\
    unread s = (take_while is_inline_space (unread s) ++ unread s')%list /\
    wf s' /\ mode s' = mode s /\ lang s' = lang s /\ delayed_unread_chars s' = [].
Proof.
  intros Hwf Hq.
  destruct (op_ignore_ws_exact cv s Hwf Hq) as (s' & Hr & (Hwf' & Hm & Hl & Hq') & Hu & _ & _).
  exists s'. split; [exact Hr|]. split; [exact Hu|].
  split; [rewrite Hu; apply take_drop_while|].
  rewrite Hq', Hq. auto.
Qed.

Lemma skip_whitespace_exact_witness :
  exists s',
    op_ignore_ws checker_verdict (Scanner_new [" "%byte; x09; x0a; " "%byte] TestInput EN) =
    Ret s' /\
    unread s' = [x0a; " "%byte].
Proof.
  destruct (skip_whitespace_exact checker_verdict
              (Scanner_new [" "%byte; x09; x0a; " "%byte] TestInput EN)
              (wf_Scanner_new _ _ _) eq_refl) as (s' & Hr & Hu & _).
  exists s'. split; [exact Hr|exact Hu].
Defined.

(** X5.  [Scanner >> eof].  In UserOutput and Lax mode it succeeds exactly
    when every unread byte is whitespace (newlines included), and otherwise
    fails at the first byte that is not, naming that byte and its position;
    in TestInput mode it succeeds exactly when no byte is unread, and
    otherwise fails at the next byte.  Deferred matches play no part. *)
Theorem match_end_exact (cv : CheckerVerdict) (s : Scanner) :
  wf s ->
  (lenient (mode s) = true ->
   match drop_while is_space_byte (unread s) with
   | [] => exists s', op_eof cv s = Ret s' /\ eofed s' = true /\
                      delayed_unread_chars s' = []
   | (b :: _)%list =>
       op_eof cv s =
       Stop (do_error cv (mode s)
               (located (lang s)
                  (byte_pos s (List.length (take_while is_space_byte (unread s)))) ++
                match lang s with
                | EN => ["Read "; char_description (int_of_byte b); ", expected EOF"]
                | PL => ["Wczytano "; char_description (int_of_byte b); ", oczekiwano EOF"]
                end)%list)
   end) /\
  (mode s = TestInput ->
   match unread s with
   | [] => exists s', op_eof cv s = Ret s' /\ eofed s' = true
   | (b :: _)%list =>
       op_eof cv s =
       Stop (do_error cv (mode s)
               (located (lang s) (byte_pos s 0) ++
                match lang s with
                | EN => ["Read "; char_description (int_of_byte b); ", expected EOF"]
                | PL => ["Wczytano "; char_description (int_of_byte b); ", oczekiwano EOF"]
                end)%list)
   end).
Proof.
  intros Hwf. split.
  - intros Hm.
    pose proof (eof_skip_loop_exact (unread s) (fuel_of (set_delayed [] s)) 0
                  (set_delayed [] s) Hwf eq_refl (length_unread s)) as Hloop.
    assert (Hop : op_eof cv s =
                  ('(how, ch, s1) <- eof_skip_loop (fuel_of (set_delayed [] s)) 0
                                       (set_delayed [] s) ;;
                   match how with
                   | Returned => Ret s1
                   | Broke => expect_eof cv ch s1
                   end)).
    { unfold op_eof. destruct (mode s); try discriminate; reflexivity. }
    rewrite Hop. clear Hop.
    destruct (drop_while is_space_byte (unread s)) as [|b r].
    + destruct Hloop as (ch1 & s1 & Hr & (_ & _ & _ & Hq1) & He1 & _).
      rewrite Hr. cbn [bind]. exists s1. auto.
    + destruct Hloop as (s1 & Hr & (Hwf1 & Hm1 & Hl1 & _) & Hu1 & Hp1).
      rewrite Hr. cbn [bind].
      rewrite (expect_eof_byte cv _ s1 b r Hwf1 Hu1), Hm1, Hl1, Hp1. reflexivity.
  - intros Hm. unfold op_eof. rewrite Hm.
    destruct (unread s) as [|b r] eqn:Hu.
    + unfold expect_eof.
      destruct (getchar_nil 0 s Hwf Hu) as (ch1 & s1 & Hg & _ & He1 & _).
      rewrite Hg. cbv beta iota. exists s1. auto.
    + rewrite (expect_eof_byte cv 0 s b r Hwf Hu), Hm. reflexivity.
Qed.

Lemma match_end_exact_witness :
  op_eof checker_verdict
    (Scanner_new [" "%byte; " "%byte; x0a; " "%byte; " "%byte; "a"%byte] UserOutput EN) =
  Stop (Exits 0 Cout ("WRONG" ++ LF ++ "Line 2, position 3: Read 'a', expected EOF" ++ LF
                      ++ "0" ++ LF)).
Proof.
  destruct (match_end_exact checker_verdict
              (Scanner_new [" "%byte; " "%byte; x0a; " "%byte; " "%byte; "a"%byte]
                 UserOutput EN) (wf_Scanner_new _ _ _)) as (H & _).
  rewrite (H eq_refl). reflexivity.
Defined.

Lemma op_eof_returns (cv : CheckerVerdict) (s s' : Scanner) :
  wf s -> op_eof cv s = Ret s' ->
  eofed s' = true /\ mode s' = mode s /\
  (lenient (mode s) = true -> delayed_unread_chars s' = []).
Proof.
  intros Hwf. unfold op_eof.
  assert (Hlen : ('(how, ch, s1) <- eof_skip_loop (fuel_of (set_delayed [] s)) 0
                                      (set_delayed [] s) ;;
                  match how with
                  | Returned => Ret s1
                  | Broke => expect_eof cv ch s1
                  end) = Ret s' ->
                 eofed s' = true /\ mode s' = mode s /\ delayed_unread_chars s' = []).
  { pose proof (eof_skip_loop_exact (unread s) (fuel_of (set_delayed [] s)) 0
                  (set_delayed [] s) Hwf eq_refl (length_unread s)) as Hloop.
    destruct (drop_while is_space_byte (unread s)) as [|b r].
    - destruct Hloop as (ch1 & s1 & Hr & (_ & Hm1 & _ & Hq1) & He1 & _).
      rewrite Hr. cbn [bind]. intros H. injection H as <-. auto.
    - destruct Hloop as (s1 & Hr & (Hwf1 & _) & Hu1 & _).
      rewrite Hr. cbn [bind]. rewrite (expect_eof_byte cv _ s1 b r Hwf1 Hu1). discriminate. }
  destruct (mode s) eqn:Em; cbn [lenient].
  - intros H. destruct (Hlen H) as (He & Hm & Hq). auto.
  - intros H. destruct (Hlen H) as (He & Hm & Hq). auto.
  - unfold expect_eof.
    destruct (getchar_cases 0 s Hwf) as [(b & r & Hu & Hg)|(Hu & ch1 & s1 & Hg & _ & He1 & Hk & _)];
      rewrite Hg; cbv beta iota.
    + destruct (lang (consume b r s)); discriminate.
    + intros H. injection H as <-. split; [exact He1|].
      split; [rewrite <- Em; apply Hk|discriminate].
Qed.

(** X6.  After a successful [>> eof], the end of the stream has been
    delivered and every further [>> eof] succeeds without changing the
    scanner. *)
Theorem match_end_is_idempotent (cv : CheckerVerdict) (s s' : Scanner) :
  wf s -> op_eof cv s = Ret s' ->
  eofed s' = true /\ op_eof cv s' = Ret s'.
Proof.
  intros Hwf Hr.
  destruct (op_eof_returns cv s s' Hwf Hr) as (He & Hm & Hq).
  split; [exact He|].
  unfold op_eof, expect_eof. rewrite Hm.
  destruct (mode s) eqn:Em; cbn [lenient] in Hq.
  - rewrite (set_delayed_nil_same s' (Hq eq_refl)). unfold fuel_of.
    cbn [eof_skip_loop]. unfold getchar. rewrite He. reflexivity.
  - rewrite (set_delayed_nil_same s' (Hq eq_refl)). unfold fuel_of.
    cbn [eof_skip_loop]. unfold getchar. rewrite He. reflexivity.
  - unfold getchar. rewrite He. reflexivity.
Qed.

Lemma match_end_is_idempotent_witness :
  exists s',
    op_eof checker_verdict (Scanner_new [" "%byte; x0a] Lax PL) = Ret s' /\
    eofed s' = true /\ op_eof checker_verdict s' = Ret s'.
Proof.
  assert (H : exists s', op_eof checker_verdict (Scanner_new [" "%byte; x0a] Lax PL) = Ret s')
    by (vm_compute; eexists; reflexivity).
  destruct H as (s' & Hr). exists s'. split; [exact Hr|].
  exact (match_end_is_idempotent checker_verdict _ s' (wf_Scanner_new _ _ _) Hr).
Defined.

Lemma read_newline_loop_exact (cv : CheckerVerdict) (ws rest : list byte) :
  forall (fuel : nat) (s : Scanner),
    wf s -> eofed s = false -> unread s = (ws ++ rest)%list ->
    forallb is_inline_space ws = true ->
    match rest with [] => True | (b :: _)%list => is_inline_space b = false end ->
    (List.length (ws ++ rest) < fuel)%nat ->
    match rest with
    | [] =>
        read_newline_loop cv fuel s =
        Stop (do_error cv (mode s)
                (located (lang s) (byte_pos s (List.length ws)) ++
                 match lang s with
                 | EN => ["Read EOF, expected "; "'\n'"]
                 | PL => ["Wczytano EOF, oczekiwano "; "'\n'"]
                 end)%list)
    | (b :: r)%list =>
        if int_of_byte b =? 10
        then exists s', read_newline_loop cv fuel s = Ret s' /\ keeps s s' /\ unread s' = r
        else
          read_newline_loop cv fuel s =
          Stop (do_error cv (mode s)
                  (located (lang s) (byte_pos s (List.length ws)) ++
                   match lang s with
                   | EN => ["Read "; char_description (int_of_byte b); ", expected "; "'\n'"]
                   | PL => ["Wczytano "; char_description (int_of_byte b);
                            ", oczekiwano "; "'\n'"]
                   end)%list)
    end.
Proof.
  induction ws as [|w ws IH]; intros fuel s Hwf He Hu Hws Hrest Hfuel;
    (destruct fuel as [|fuel]; [cbn in Hfuel; lia|]);
    cbn [read_newline_loop]; unfold do_read_char; cbn [app] in Hu.
  - destruct rest as [|b r].
    + destruct (getchar_nil 0 s Hwf Hu) as (ch1 & s1 & Hg & _ & _ & Hm & Hl & _ & Hp).
      rewrite Hg. cbv beta iota. cbn [negb].
      rewrite !error_located, Hm, Hl, (Hp He). unfold byte_pos. rewrite Hu.
      destruct (lang s); reflexivity.
    + rewrite (getchar_cons 0 s b r Hwf Hu). cbv beta iota. cbn [negb bind].
      destruct (int_of_byte b =? 10) eqn:Enl.
      * eexists. split; [reflexivity|]. split; [apply keeps_consume|reflexivity].
      * unfold is_inline_space, is_space_byte, not_newline in Hrest.
        rewrite Enl in Hrest. cbn [negb] in Hrest. rewrite andb_true_r in Hrest.
        rewrite Hrest. unfold unexpected_char_error.
        rewrite !error_located. cbn [mode lang last_char_pos consume].
        unfold byte_pos. cbn [List.length firstn fold_left].
        destruct (lang s); reflexivity.
  - cbn [forallb] in Hws. apply andb_prop in Hws as [Hw Hws].
    rewrite (getchar_cons 0 s w _ Hwf Hu). cbv beta iota. cbn [negb bind].
    unfold is_inline_space, is_space_byte, not_newline in Hw.
    apply andb_prop in Hw as [Hsp Hnl]. apply negb_true_iff in Hnl.
    rewrite Hnl, Hsp.
    specialize (IH fuel (consume w (ws ++ rest) s) (wf_consume _ _ _) eq_refl eq_refl Hws Hrest).
    cbn [List.length app] in Hfuel. specialize (IH ltac:(lia)).
    rewrite (byte_pos_consume s w _ _ Hu) in IH. cbn [mode lang consume] in IH.
    cbn [List.length].
    destruct rest as [|b r]; [exact IH|].
    destruct (int_of_byte b =? 10); [|exact IH].
    destruct IH as (s' & Hr & Hk & Hu'). exists s'. split; [exact Hr|].
    split; [|exact Hu'].
    apply (keeps_trans s (consume w (ws ++ b :: r) s)); [apply keeps_consume|exact Hk].
Qed.

(** X7.  In UserOutput and Lax mode [>> nl] only defers the match.  The
    next operation that reads settles it: it skips whitespace other than
    newline and then takes a newline; a byte that is not whitespace fails
    "Read <byte>, expected '\n'" at that byte's position, and the end of the
    stream fails "Read EOF, expected '\n'". *)
Theorem deferred_newline_exact (cv : CheckerVerdict) (s : Scanner) (ws rest : list byte) :
  lenient (mode s) = true -> wf s -> eofed s = false ->
  delayed_unread_chars s = [] ->
  unread s = (ws ++ rest)%list -> forallb is_inline_space ws = true ->
  match rest with [] => True | (b :: _)%list => is_inline_space b = false end ->
  op_nl cv s = Ret (set_delayed [NEWLINE] s) /\
  match rest with
  | [] =>
      read_delayed_unread_chars cv (set_delayed [NEWLINE] s) =
      Stop (do_error cv (mode s)
              (located (lang s) (byte_pos s (List.length ws)) ++
               match lang s with
               | EN => ["Read EOF, expected "; "'\n'"]
               | PL => ["Wczytano EOF, oczekiwano "; "'\n'"]
               end)%list)
  | (b :: r)%list =>
      if int_of_byte b =? 10
      then exists s',
             read_delayed_unread_chars cv (set_delayed [NEWLINE] s) = Ret s' /\
             unread s' = r /\ delayed_unread_chars s' = []
      else
        read_delayed_unread_chars cv (set_delayed [NEWLINE] s) =
        Stop (do_error cv (mode s)
                (located (lang s) (byte_pos s (List.length ws)) ++
                 match lang s with
                 | EN => ["Read "; char_description (int_of_byte b); ", expected "; "'\n'"]
                 | PL => ["Wczytano "; char_description (int_of_byte b);
                          ", oczekiwano "; "'\n'"]
                 end)%list)
  end.
Proof.
  intros Hm Hwf He Hq Hu Hws Hrest. split.
  - unfold op_nl. rewrite (op_char_delayed cv 10 s Hm eq_refl), Hq. reflexivity.
  - pose proof (read_newline_loop_exact cv ws rest (fuel_of (set_delayed [NEWLINE] s))
                  (set_delayed [NEWLINE] s) Hwf He Hu Hws Hrest) as Hloop.
    rewrite <- Hu in Hloop. specialize (Hloop (length_unread s)).
    assert (Hrd : read_delayed_unread_chars cv (set_delayed [NEWLINE] s) =
                  (s1 <- read_newline_loop cv (fuel_of (set_delayed [NEWLINE] s))
                           (set_delayed [NEWLINE] s) ;;
                   Ret (set_delayed [] s1))).
    { unfold read_delayed_unread_chars.
      cbn [delayed_unread_chars set_delayed read_delayed_each read_delayed_one mode].
      destruct (mode s); try discriminate;
        destruct (read_newline_loop cv _ _); reflexivity. }
    rewrite Hrd. clear Hrd.
    destruct rest as [|b r].
    + rewrite Hloop. reflexivity.
    + destruct (int_of_byte b =? 10).
      * destruct Hloop as (s' & Hr & _ & Hu'). rewrite Hr. cbn [bind].
        eexists. split; [reflexivity|]. split; [exact Hu'|reflexivity].
      * rewrite Hloop. reflexivity.
Qed.

Lemma deferred_newline_exact_witness :
  read_delayed_unread_chars checker_verdict
    (set_delayed [NEWLINE] (Scanner_new (bytes "  2") UserOutput EN)) =
  Stop (Exits 0 Cout ("WRONG" ++ LF ++ "Line 1, position 3: Read '2', expected '\n'" ++ LF
                      ++ "0" ++ LF)).
Proof.
  destruct (deferred_newline_exact checker_verdict (Scanner_new (bytes "  2") UserOutput EN)
              (bytes "  ") (bytes "2") eq_refl (wf_Scanner_new _ _ _) eq_refl eq_refl
              eq_refl eq_refl eq_refl) as (_ & H).
  exact H.
Defined.

(** ** Lines and columns *)

Lemma pos_after_snoc (l : list byte) (b : byte) :
  pos_after (l ++ [b]) = advance (int_of_byte b) (pos_after l).
Proof. unfold pos_after. rewrite fold_left_app. reflexivity. Qed.

Lemma take_while_length (p : byte -> bool) (l : list byte) :
  (List.length (take_while p l) <= List.length l)%nat.
Proof. induction l as [|b l IH]; cbn; [lia|]. destruct (p b); cbn; lia. Qed.

Lemma newlines_le (l : list byte) : (newlines l <= List.length l)%nat.
Proof. unfold newlines. apply filter_length_le. Qed.

Lemma column_after_le (l : list byte) : (column_after l <= List.length l)%nat.
Proof.
  unfold column_after. rewrite <- (length_rev l). apply take_while_length.
Qed.

Lemma pos_after_line_column (l : list byte) :
  Z.of_nat (List.length l) < 2 ^ 64 - 1 ->
  pos_after l = mkPos (1 + Z.of_nat (newlines l)) (1 + Z.of_nat (column_after l)).
Proof.
  induction l as [|b l IH] using rev_ind; intros Hlen; [reflexivity|].
  rewrite length_app in Hlen. cbn [List.length] in Hlen.
  rewrite pos_after_snoc, IH by lia.
  pose proof (newlines_le l) as Hn. pose proof (column_after_le l) as Hc.
  assert (Hsn : newlines (l ++ [b]) =
                if int_of_byte b =? 10 then S (newlines l) else newlines l).
  { unfold newlines, not_newline. rewrite filter_app, length_app. cbn [filter].
    destruct (int_of_byte b =? 10); cbn [negb List.length]; lia. }
  assert (Hsc : column_after (l ++ [b]) =
                if int_of_byte b =? 10 then O else S (column_after l)).
  { unfold column_after. rewrite rev_unit. cbn [take_while]. unfold not_newline at 1.
    destruct (int_of_byte b =? 10); reflexivity. }
  rewrite Hsn, Hsc. unfold advance, size_incr. cbn [line pos].
  destruct (int_of_byte b =? 10).
  - rewrite Z.mod_small by lia. f_equal. lia.
  - rewrite Z.mod_small by lia. f_equal; lia.
Qed.

(** X8.  Positions are 1-indexed: the position of the [k]-th byte of a
    stream (and, for [k] the length, of its end) has as line one plus the
    number of newlines before it and as column one plus the number of bytes
    since the last of them; that is the position a diagnostic names after
    [getchar] delivered this byte. *)
Theorem positions_are_line_and_column (contents : list byte) (m : Mode) (l : Lang) (k : nat) :
  (k < List.length contents)%nat -> Z.of_nat k < 2 ^ 64 - 1 ->
  byte_pos (Scanner_new contents m l) k =
  mkPos (1 + Z.of_nat (newlines (firstn k contents)))
        (1 + Z.of_nat (column_after (firstn k contents))) /\
  last_char_pos (getchar_n (S k) (Scanner_new contents m l)) =
  mkPos (1 + Z.of_nat (newlines (firstn k contents)))
        (1 + Z.of_nat (column_after (firstn k contents))).
Proof.
  intros Hk Hsmall.
  assert (Hpos : byte_pos (Scanner_new contents m l) k =
                 mkPos (1 + Z.of_nat (newlines (firstn k contents)))
                       (1 + Z.of_nat (column_after (firstn k contents)))).
  { rewrite byte_pos_Scanner_new. apply pos_after_line_column.
    rewrite firstn_length_le by lia. exact Hsmall. }
  split; [exact Hpos|].
  destruct (getchar_n_byte k (Scanner_new contents m l) (wf_Scanner_new _ _ _) Hk) as (Hp & _).
  rewrite Hp. exact Hpos.
Qed.

Lemma positions_are_line_and_column_witness :
  byte_pos (Scanner_new [" "%byte; x0a; x0a; "a"%byte; "b"%byte] TestInput EN) 4 = mkPos 3 2.
Proof.
  destruct (positions_are_line_and_column [" "%byte; x0a; x0a; "a"%byte; "b"%byte]
              TestInput EN 4) as (H & _).
  - cbn. lia.
  - lia.
  - rewrite H. reflexivity.
Defined.

(** ** Descriptions of bytes *)

Lemma in_all_bytes (b : byte) : In b all_bytes.
Proof.
  unfold all_bytes. rewrite <- (char_of_int_of_byte b).
  pose proof (int_of_byte_range b) as Hr.
  apply in_map_iff. exists (Z.to_nat (int_of_byte b)). split.
  - rewrite Z2Nat.id by lia. reflexivity.
  - apply in_seq. lia.
Qed.

(** X9.  [char_description] tells all 256 bytes apart: two bytes with the
    same description are the same byte. *)
Theorem char_description_is_injective (b1 b2 : byte) :
  char_description (int_of_byte b1) = char_description (int_of_byte b2) -> b1 = b2.
Proof.
  assert (Hall : forallb (fun x =>
                   forallb (fun y =>
                     implb (String.eqb (char_description (int_of_byte x))
                                       (char_description (int_of_byte y)))
                           (Byte.eqb x y)) all_bytes) all_bytes = true)
    by (vm_compute; reflexivity).
  intros Heq.
  rewrite forallb_forall in Hall. specialize (Hall b1 (in_all_bytes b1)).
  rewrite forallb_forall in Hall. specialize (Hall b2 (in_all_bytes b2)).
  rewrite Heq, String.eqb_refl in Hall. apply Byte.byte_dec_bl. exact Hall.
Qed.

Lemma char_description_is_injective_witness :
  char_description (int_of_byte x0c) = "'\x0c'" /\ x0c = x0c.
Proof.
  split; [reflexivity|].
  apply (char_description_is_injective x0c x0c). reflexivity.
Defined.

(** ** How failures leave the process *)

(** X10.  A failure of a scanner is reported by the mode of the scanner: a
    TestInput scanner exits 1 with the located message on the standard
    output; a Lax scanner exits 4 with "Lax scanner: " in front, on the
    error stream; a UserOutput scanner exits 0 with the verdict WRONG and
    score 0, or, when a partial score is stored, with the verdict OK, the
    partial message, "; " and the located message, and the partial score. *)
Theorem failures_are_routed_by_mode (cv : CheckerVerdict) (s : Scanner) (msg : list string) :
  match mode s with
  | TestInput =>
      error cv s msg =
      Exits 1 Cout (print_all (located (lang s) (last_char_pos s) ++ msg) ++ LF)
  | Lax =>
      error cv s msg =
      Exits 4 ErrorOstream
        ("Lax scanner: " ++ print_all (located (lang s) (last_char_pos s) ++ msg) ++ LF)
  | UserOutput =>
      match partial_score cv with
      | None =>
          error cv s msg =
          Exits 0 Cout
            ("WRONG" ++ LF ++ print_all (located (lang s) (last_char_pos s) ++ msg)
             ++ LF ++ "0" ++ LF)
      | Some score =>
          error cv s msg =
          Exits 0 Cout
            ("OK" ++ LF ++ partial_score_msg cv ++
             (if is_empty (partial_score_msg cv) then "" else "; ") ++
             print_all (located (lang s) (last_char_pos s) ++ msg) ++ LF ++
             show_int score ++ LF)
      end
  end.
Proof.
  rewrite error_located. unfold do_error, exit_wrong, exit_with_error_msg, StreamImpl_end.
  destruct (mode s).
  - destruct (partial_score cv); [|reflexivity].
    destruct (lang s); cbn [located app List.length Nat.eqb negb];
      destruct (is_empty (partial_score_msg cv)); reflexivity.
  - unfold print_all. cbn [String.concat app located].
    destruct (lang s); reflexivity.
  - destruct (lang s); reflexivity.
Qed.

(** ** Sampling and shuffling *)

Lemma sample_loop_last_draw (t : IntTy) (min L limit : Z) (draws : list Z) (v : Z) (rest : list Z) :
  sample_loop t min L limit draws = Ret (v, rest) ->
  exists skipped d,
    draws = (skipped ++ d :: rest)%list /\
    forall rest', sample_loop t min L limit (d :: rest') = Ret (v, rest').
Proof.
  induction draws as [|d draws IH]; cbn [sample_loop]; [discriminate|].
  destruct (u64 (d - generator_min) >=? limit) eqn:E.
  - intros H. destruct (IH H) as (skipped & d' & -> & Hd').
    exists (d :: skipped)%list, d'. split; [reflexivity|exact Hd'].
  - intros H. injection H as <- <-. exists [], d. split; [reflexivity|].
    intros rest'. cbn [sample_loop]. rewrite E. reflexivity.
Qed.

Lemma Random_unsigned_last_draw (file_name : string) (pretty_function : IntTy -> string)
    (t : IntTy) (min max : Z) (draws : list Z) (v : Z) (rest : list Z) :
  Random_unsigned file_name pretty_function t min max draws = Ret (v, rest) ->
  exists skipped d,
    draws = (skipped ++ d :: rest)%list /\
    forall rest', Random_unsigned file_name pretty_function t min max (d :: rest') = Ret (v, rest').
Proof.
  unfold Random_unsigned. destruct (negb (min <=? max)); [discriminate|].
  cbv zeta. destruct (u64 (u64 (u64 max - u64 min) + 1) =? 0).
  - destruct draws as [|d draws]; [discriminate|]. intros H. injection H as <- <-.
    exists [], d. split; reflexivity.
  - apply sample_loop_last_draw.
Qed.

Lemma Random_call_last_draw (file_name : string) (pretty_function : IntTy -> string)
    (t : IntTy) (min max : Z) (draws : list Z) (v : Z) (rest : list Z) :
  Random_call file_name pretty_function t min max draws = Ret (v, rest) ->
  exists skipped d,
    draws = (skipped ++ d :: rest)%list /\
    forall rest', Random_call file_name pretty_function t min max (d :: rest') = Ret (v, rest').
Proof.
  unfold Random_call. destruct (is_signed t); [|apply Random_unsigned_last_draw].
  destruct (negb (min <=? max)); [discriminate|]. cbv zeta.
  match goal with |- context [Random_unsigned _ _ ?ut ?a ?b draws] =>
    destruct (Random_unsigned file_name pretty_function ut a b draws) as [[r rest0]| |] eqn:Eu
  end; cbn [bind]; try discriminate.
  intros H. injection H as <- <-.
  destruct (Random_unsigned_last_draw _ _ _ _ _ _ _ _ Eu) as (skipped & d & -> & Hd).
  exists skipped, d. split; [reflexivity|]. intros rest'. rewrite Hd. reflexivity.
Qed.

(** X11.  [Random::operator()] with [min > max] fails its assertion: exit
    code 3, the message on the error stream, nothing taken from the
    generator.  When it returns, it has taken a non-empty run of values from
    the generator, and its result is a function of the last of them alone:
    the values it rejected before leave no trace. *)
Theorem sampling_uses_only_the_last_draw (file_name : string) (pretty_function : IntTy -> string)
    (t : IntTy) (min max : Z) (draws : list Z) :
  (max < min ->
   Random_call file_name pretty_function t min max draws =
   Stop (Exits 3 ErrorOstream
           (file_name ++ ":988: " ++ pretty_function t ++
            ": Assertion `min <= max` failed." ++ LF))) /\
  (forall v rest,
     Random_call file_name pretty_function t min max draws = Ret (v, rest) ->
     min <= max /\
     exists skipped d,
       draws = (skipped ++ d :: rest)%list /\
       forall rest', Random_call file_name pretty_function t min max (d :: rest') = Ret (v, rest')).
Proof.
  split.
  - intros Hlt. unfold Random_call, Random_unsigned.
    replace (min <=? max) with false by (symmetry; apply Z.leb_gt; lia).
    cbn [negb]. unfold oi_assert_failed, exit_with_error_msg, print_all.
    cbn [String.concat]. change (show_int 988) with "988". norm_text.
    destruct (is_signed t); reflexivity.
  - intros v rest H. split; [|eapply Random_call_last_draw; exact H].
    unfold Random_call, Random_unsigned in H.
    destruct (min <=? max) eqn:E; [apply Z.leb_le; exact E|].
    cbn [negb] in H. destruct (is_signed t); discriminate.
Qed.

Lemma sampling_uses_only_the_last_draw_witness :
  Random_call "oi.h" (fun _ => "f") uint8_t 0 9 [2 ^ 64 - 1; 13; 5] = Ret (3, [5]) /\
  Random_call "oi.h" (fun _ => "f") uint8_t 0 9 [13] = Ret (3, []).
Proof.
  assert (H : Random_call "oi.h" (fun _ => "f") uint8_t 0 9 [2 ^ 64 - 1; 13; 5] = Ret (3, [5]))
    by (vm_compute; reflexivity).
  split; [exact H|].
  destruct (sampling_uses_only_the_last_draw "oi.h" (fun _ => "f") uint8_t 0 9 [2 ^ 64 - 1; 13; 5])
    as (_ & Hret).
  destruct (Hret 3 [5] H) as (_ & skipped & d & Hsplit & Hlast).
  vm_compute. reflexivity.
Defined.

Lemma sample_loop_no_stop (t : IntTy) (min L limit : Z) (draws : list Z) (e : Ending) :
  sample_loop t min L limit draws <> Stop e.
Proof.
  induction draws as [|d draws IH]; cbn [sample_loop]; [discriminate|].
  destruct (u64 (d - generator_min) >=? limit); [exact IH|discriminate].
Qed.

Lemma Random_call_signed_no_stop (file_name : string) (pretty_function : IntTy -> string)
    (t : IntTy) (min max : Z) (draws : list Z) (e : Ending) :
  is_signed t = true -> valid_ty t -> bits t <= 64 ->
  T_min t <= min -> min <= max -> max <= T_max t -> Forall raw_draw draws ->
  Random_call file_name pretty_function t min max draws <> Stop e.
Proof.
  intros Hs Ht Hb Hlo Hmm Hhi Hraw.
  destruct (Random_signed_delegates file_name pretty_function t min max draws
              Hs Ht Hb Hlo Hmm Hhi Hraw) as (Hd & _).
  rewrite Hd. unfold Random_call. cbn [is_signed make_unsigned]. fold (make_unsigned t).
  unfold Random_unsigned.
  replace (min - T_min t <=? max - T_min t) with true by (symmetry; apply Z.leb_le; lia).
  cbn [negb]. cbv zeta.
  destruct (u64 (u64 (u64 (max - T_min t) - u64 (min - T_min t)) + 1) =? 0).
  - destruct draws; cbn [bind]; discriminate.
  - match goal with |- context [sample_loop ?a ?b ?c ?d draws] =>
      pose proof (sample_loop_no_stop a b c d draws) as Hn;
      destruct (sample_loop a b c d draws) as [[r rest0]|e'|]
    end; cbn [bind]; try discriminate.
    exfalso. exact (Hn e' eq_refl).
Qed.

Lemma set_nth_perm {A : Type} (i : nat) (x y : A) (l : list A) :
  nth_error l i = Some x -> Permutation (y :: l) (x :: set_nth i y l).
Proof.
  revert i. induction l as [|a r IH]; intros [|i] H; cbn in H; try discriminate.
  - injection H as ->. cbn [set_nth]. apply perm_swap.
  - cbn [set_nth]. rewrite perm_swap. rewrite (IH i H). apply perm_swap.
Qed.

Lemma nth_error_set_nth {A : Type} (i j : nat) (y : A) (l : list A) :
  (i < List.length l)%nat ->
  nth_error (set_nth i y l) j = if Nat.eqb i j then Some y else nth_error l j.
Proof.
  revert i j. induction l as [|a r IH]; intros i j Hi; cbn [List.length] in Hi; [lia|].
  destruct i as [|i], j as [|j]; cbn [set_nth nth_error Nat.eqb]; try reflexivity.
  apply IH. lia.
Qed.

Lemma swap_at_perm {A : Type} (i j : nat) (l l' : list A) :
  swap_at i j l = Some l' -> Permutation l l'.
Proof.
  unfold swap_at. destruct (nth_error l i) as [x|] eqn:Ei; [|discriminate].
  destruct (nth_error l j) as [y|] eqn:Ej; [|discriminate].
  intros H. injection H as <-.
  apply (Permutation_cons_inv (a := y)).
  rewrite (set_nth_perm i x y l Ei).
  apply set_nth_perm.
  rewrite nth_error_set_nth by (apply nth_error_Some; congruence).
  destruct (Nat.eqb i j) eqn:E; [reflexivity|exact Ej].
Qed.

Lemma swap_at_in_range {A : Type} (i j : nat) (l : list A) :
  (i < List.length l)%nat -> (j < List.length l)%nat -> exists l', swap_at i j l = Some l'.
Proof.
  intros Hi Hj. unfold swap_at.
  destruct (nth_error l i) eqn:Ei; [|apply nth_error_None in Ei; lia].
  destruct (nth_error l j) eqn:Ej; [|apply nth_error_None in Ej; lia].
  eexists. reflexivity.
Qed.

Section ShuffleFacts.

Variable file_name : string.
Variable pretty_function : IntTy -> string.

Lemma ptrdiff_t_facts :
  is_signed ptrdiff_t = true /\ valid_ty ptrdiff_t /\ bits ptrdiff_t <= 64 /\
  T_min ptrdiff_t = - 2 ^ 63 /\ T_max ptrdiff_t = 2 ^ 63 - 1.
Proof. unfold valid_ty. cbn. repeat split; lia. Qed.

Lemma Random_index_range (i : Z) (draws : list Z) (v : Z) (rest : list Z) :
  0 <= i < 2 ^ 63 -> Forall raw_draw draws ->
  Random_call file_name pretty_function ptrdiff_t 0 i draws = Ret (v, rest) ->
  0 <= v <= i.
Proof.
  intros Hi Hraw H. destruct ptrdiff_t_facts as (Hs & Ht & Hb & Hmin & Hmax).
  destruct (Random_signed_delegates file_name pretty_function ptrdiff_t 0 i draws
              Hs Ht Hb ltac:(lia) ltac:(lia) ltac:(lia) Hraw) as (_ & Hr).
  exact (Hr v rest H).
Qed.

Lemma Random_index_small (i d : Z) (rest : list Z) :
  0 <= i < 2 ^ 63 -> 0 <= d < 2 ^ 63 -> Forall raw_draw rest ->
  Random_call file_name pretty_function ptrdiff_t 0 i (d :: rest) = Ret (d mod (i + 1), rest).
Proof.
  intros Hi Hd Hraw. destruct ptrdiff_t_facts as (Hs & Ht & Hb & Hmin & Hmax).
  assert (Hrd : raw_draw d) by (unfold raw_draw; lia).
  destruct (Random_signed_delegates file_name pretty_function ptrdiff_t 0 i (d :: rest)
              Hs Ht Hb ltac:(lia) ltac:(lia) ltac:(lia) (Forall_cons _ Hrd Hraw)) as (Hgo & _).
  rewrite Hgo, Hmin. unfold Random_call. cbn [is_signed make_unsigned].
  rewrite Random_unsigned_partial by lia.
  replace (i - - 2 ^ 63 - (0 - - 2 ^ 63) + 1) with (i + 1) by lia.
  assert (Hacc : accepted (i + 1) d = true).
  { apply accepted_spec; [lia|].
    destruct (limit_exact (i + 1) ltac:(lia)) as (_ & _ & _).
    unfold generator_range_len, generator_max, generator_min.
    pose proof (Z.div_mod (2 ^ 64 - 1 - 0) (i + 1) ltac:(lia)) as Hdm.
    pose proof (Z.mod_pos_bound (2 ^ 64 - 1 - 0) (i + 1) ltac:(lia)) as Hmb.
    lia. }
  rewrite (sample_loop_first _ _ (i + 1) [] d rest (Forall_nil _) Hrd eq_refl Hacc).
  cbn [bind].
  destruct (unsigned_result_exact (mkIntTy false (bits ptrdiff_t)) (0 - - 2 ^ 63) (i - - 2 ^ 63) d
              eq_refl ltac:(lia) ltac:(cbn; lia) ltac:(lia)) as (Hv & _).
  replace (i - - 2 ^ 63 - (0 - - 2 ^ 63) + 1) with (i + 1) in Hv by lia.
  change (mkIntTy false (bits ptrdiff_t)) with (make_unsigned ptrdiff_t) in Hv.
  rewrite Hv. f_equal. f_equal. lia.
Qed.

Lemma shuffle_loop_permutes {A : Type} (i : nat) :
  forall (l : list A) (draws : list Z),
    (i <= List.length l)%nat -> Z.of_nat (List.length l) <= 2 ^ 63 -> Forall raw_draw draws ->
    match shuffle_loop file_name pretty_function i l draws with
    | Ret (l', rest) =>
        Permutation l l' /\
        exists used, draws = (used ++ rest)%list /\ (i - 1 <= List.length used)%nat
    | Stop _ => False
    | OutOfFuel => True
    end.
Proof.
  induction i as [|i IH]; intros l draws Hi Hlen Hraw; cbn [shuffle_loop].
  - split; [reflexivity|]. exists []. split; [reflexivity|cbn; lia].
  - destruct (Z.of_nat (S i) >? 1) eqn:Egt.
    2:{ split; [reflexivity|]. exists []. split; [reflexivity|].
        rewrite Z.gtb_ltb in Egt. apply Z.ltb_ge in Egt. cbn [List.length]. lia. }
    destruct ptrdiff_t_facts as (Hs & Ht & Hb & Hmin & Hmax).
    destruct (Random_call file_name pretty_function ptrdiff_t 0 (Z.of_nat i) draws)
      as [[j rest]|e|] eqn:Er; cbn [bind].
    + pose proof (Random_index_range (Z.of_nat i) draws j rest ltac:(lia) Hraw Er) as Hj.
      destruct (Random_call_last_draw _ _ _ _ _ _ _ _ Er) as (skipped & d & Hsplit & _).
      assert (Hraw' : Forall raw_draw rest).
      { rewrite Hsplit in Hraw. apply Forall_app in Hraw as (_ & Hraw).
        inversion Hraw; assumption. }
      destruct (swap_at_in_range i (Z.to_nat j) l ltac:(lia) ltac:(lia)) as (l1 & Hsw).
      rewrite Hsw. pose proof (swap_at_perm _ _ _ _ Hsw) as Hperm.
      pose proof (Permutation_length Hperm) as Hl1.
      specialize (IH l1 rest ltac:(lia) ltac:(lia) Hraw').
      destruct (shuffle_loop file_name pretty_function i l1 rest) as [[l' rest']|e|]; auto.
      destruct IH as (Hp & used & Hu & Hn). split; [rewrite Hperm; exact Hp|].
      exists (skipped ++ d :: used)%list. split.
      * rewrite Hsplit, Hu, <- app_assoc. reflexivity.
      * rewrite length_app. cbn [List.length]. lia.
    + exact (Random_call_signed_no_stop file_name pretty_function ptrdiff_t 0 (Z.of_nat i) draws e
               Hs Ht Hb ltac:(lia) ltac:(lia) ltac:(lia) Hraw Er).
    + exact I.
Qed.

Lemma shuffle_loop_returns {A : Type} (i : nat) :
  forall (l : list A) (draws : list Z),
    (i <= List.length l)%nat -> Z.of_nat (List.length l) <= 2 ^ 63 ->
    Forall (fun d => 0 <= d < 2 ^ 63) draws -> (i - 1 <= List.length draws)%nat ->
    exists l', shuffle_loop file_name pretty_function i l draws = Ret (l', skipn (i - 1) draws).
Proof.
  induction i as [|i IH]; intros l draws Hi Hlen Hsmall Hn; cbn [shuffle_loop].
  - exists l. reflexivity.
  - destruct (Z.of_nat (S i) >? 1) eqn:Egt.
    2:{ rewrite Z.gtb_ltb in Egt. apply Z.ltb_ge in Egt.
        assert (i = O) as -> by lia. exists l. reflexivity. }
    rewrite Z.gtb_ltb in Egt. apply Z.ltb_lt in Egt.
    destruct draws as [|d rest]; [cbn [List.length] in Hn; lia|].
    inversion Hsmall as [|? ? Hd Hsmall']; subst.
    assert (Hraw : Forall raw_draw rest).
    { eapply Forall_impl; [|exact Hsmall']. intros a Ha. cbv beta in Ha. unfold raw_draw. lia. }
    rewrite (Random_index_small (Z.of_nat i) d rest ltac:(lia) Hd Hraw). cbn [bind].
    pose proof (Z.mod_pos_bound d (Z.of_nat i + 1) ltac:(lia)) as Hm.
    destruct (swap_at_in_range i (Z.to_nat (d mod (Z.of_nat i + 1))) l ltac:(lia) ltac:(lia))
      as (l1 & Hsw).
    rewrite Hsw. pose proof (Permutation_length (swap_at_perm _ _ _ _ Hsw)) as Hl1.
    cbn [List.length] in Hn.
    destruct (IH l1 rest ltac:(lia) ltac:(lia) Hsmall' ltac:(lia)) as (l' & Hl').
    exists l'. rewrite Hl'. destruct i as [|i]; [lia|].
    replace (S (S i) - 1)%nat with (S i) by lia. replace (S i - 1)%nat with i by lia.
    reflexivity.
Qed.

End ShuffleFacts.

(** X12.  [Random::shuffle] on a sequence of fewer than 2^63 elements (its
    length fits the difference type of the iterators) never fails an
    assertion and never swaps outside the sequence.  When it returns, the
    sequence is a permutation of the one it was given and at least
    length - 1 values were taken from the generator; and it does return,
    after exactly length - 1 values, when those are all below 2^63 (none of
    them can be rejected by the sampling loop). *)
Theorem shuffle_permutes (file_name : string) (pretty_function : IntTy -> string)
    {A : Type} (l : list A) (draws : list Z) :
  Z.of_nat (List.length l) < 2 ^ 63 -> Forall raw_draw draws ->
  match shuffle file_name pretty_function l draws with
  | Ret (l', rest) =>
      Permutation l l' /\
      exists used, draws = (used ++ rest)%list /\ (List.length l - 1 <= List.length used)%nat
  | Stop _ => False
  | OutOfFuel => True
  end /\
  (Forall (fun d => 0 <= d < 2 ^ 63) draws -> (List.length l - 1 <= List.length draws)%nat ->
   exists l', shuffle file_name pretty_function l draws =
              Ret (l', skipn (List.length l - 1) draws)).
Proof.
  intros Hlen Hraw. unfold shuffle. split.
  - apply shuffle_loop_permutes; auto; lia.
  - intros Hsmall Hn. apply shuffle_loop_returns; auto; lia.
Qed.

Lemma shuffle_permutes_witness :
  shuffle "oi.h" (fun _ => "f") [1; 2; 3; 4] [6; 2 ^ 64 - 1; 3; 0; 9] = Ret ([2; 4; 1; 3], [9]) /\
  Permutation [1; 2; 3; 4] [2; 4; 1; 3].
Proof.
  assert (H : shuffle "oi.h" (fun _ => "f") [1; 2; 3; 4] [6; 2 ^ 64 - 1; 3; 0; 9] =
              Ret ([2; 4; 1; 3], [9])) by (vm_compute; reflexivity).
  split; [exact H|].
  destruct (shuffle_permutes "oi.h" (fun _ => "f") [1; 2; 3; 4] [6; 2 ^ 64 - 1; 3; 0; 9])
    as (Hp & _).
  - cbn. lia.
  - repeat constructor; unfold raw_draw; lia.
  - rewrite H in Hp. exact (proj1 Hp).
Defined.

(** ** touchk.cpp: the cycle of the user *)

Lemma cycle_link_in_range (edges : list Edge) (cycle : list Z) (i : Z) :
  Forall (fun id => 1 <= id <= Z.of_nat (List.length edges)) cycle ->
  0 <= i < Z.of_nat (List.length cycle) ->
  exists e1 e2, cycle_link edges cycle (Z.of_nat (List.length cycle)) i = Some (e1, e2).
Proof.
  intros Hids Hi.
  assert (Hat : forall j, 0 <= j < Z.of_nat (List.length cycle) ->
                exists x e, cycle_at cycle j = Some x /\ edge_at edges x = Some e).
  { intros j Hj. unfold cycle_at, edge_at.
    replace (0 <=? j) with true by (symmetry; apply Z.leb_le; lia).
    destruct (nth_error cycle (Z.to_nat j)) as [x|] eqn:Ex;
      [|apply nth_error_None in Ex; lia].
    rewrite Forall_forall in Hids. specialize (Hids x (nth_error_In _ _ Ex)).
    cbv beta in Hids.
    destruct (nth_error edges (Z.to_nat (x - 1))) as [e|] eqn:Ee;
      [|apply nth_error_None in Ee; lia].
    exists x, e. split; [reflexivity|].
    replace (1 <=? x) with true by (symmetry; apply Z.leb_le; lia). exact Ee. }
  pose proof (Z.mod_pos_bound (i + 1) (Z.of_nat (List.length cycle)) ltac:(lia)) as Hm.
  destruct (Hat i Hi) as (x & e1 & Hx & He1).
  destruct (Hat _ Hm) as (y & e2 & Hy & He2).
  unfold cycle_link. rewrite Hx, Hy, He1, He2. exists e1, e2. reflexivity.
Qed.

Lemma cycle_loop_spec (cv : CheckerVerdict) (edges : list Edge) (cycle : list Z) (n : nat) :
  Forall (fun id => 1 <= id <= Z.of_nat (List.length edges)) cycle ->
  forall i, 0 <= i -> i + Z.of_nat n = Z.of_nat (List.length cycle) ->
  (cycle_loop cv edges cycle (Z.of_nat (List.length cycle)) i n = Ret tt /\
   forall j, i <= j < Z.of_nat (List.length cycle) -> link_ok edges cycle j) \/
  (cycle_loop cv edges cycle (Z.of_nat (List.length cycle)) i n = Stop (exit_wrong [] cv) /\
   exists j, i <= j < Z.of_nat (List.length cycle) /\ ~ link_ok edges cycle j).
Proof.
  intros Hids. induction n as [|n IH]; intros i Hi Hn; cbn [cycle_loop].
  - left. split; [reflexivity|]. intros j Hj. lia.
  - destruct (cycle_link_in_range edges cycle i Hids ltac:(lia)) as ([[a b] c] & [[d e] f] & Hl).
    rewrite Hl. destruct (negb (b =? d) || (c =? f)) eqn:Ebad.
    + right. split; [reflexivity|]. exists i. split; [lia|].
      unfold link_ok. rewrite Hl. intros [Hbd Hcf].
      apply orb_true_iff in Ebad as [Hb|Hc].
      * apply negb_true_iff, Z.eqb_neq in Hb. contradiction.
      * apply Z.eqb_eq in Hc. contradiction.
    + apply orb_false_iff in Ebad as [Hb Hc].
      apply negb_false_iff, Z.eqb_eq in Hb. apply Z.eqb_neq in Hc.
      destruct (IH (i + 1) ltac:(lia) ltac:(lia)) as [(Hr & Hall)|(Hr & j & Hj & Hbad)].
      * left. split; [exact Hr|]. intros j Hj.
        destruct (Z.eq_dec j i) as [->|Hne]; [|apply Hall; lia].
        unfold link_ok. rewrite Hl. split; assumption.
      * right. split; [exact Hr|]. exists j. split; [lia|exact Hbad].
Qed.

(** X13.  The loop of [checker] over the [k] edge ids the user printed
    (each within [1, m], as they were read) never indexes outside [edges]
    or [cycle]; it passes exactly when every edge of the cycle, the last one
    with the first included, ends at the vertex where the next one starts
    and carries another label, and otherwise the checker ends with the
    verdict WRONG and no message.  A cycle of one edge is therefore always
    rejected. *)
Theorem cycle_check_exact (cv : CheckerVerdict) (edges : list Edge) (cycle : list Z) :
  Forall (fun id => 1 <= id <= Z.of_nat (List.length edges)) cycle ->
  (check_cycle cv edges cycle = Ret tt \/
   check_cycle cv edges cycle = Stop (exit_wrong [] cv)) /\
  (check_cycle cv edges cycle = Ret tt <->
   forall i, 0 <= i < Z.of_nat (List.length cycle) -> link_ok edges cycle i) /\
  (List.length cycle = 1%nat -> check_cycle cv edges cycle = Stop (exit_wrong [] cv)).
Proof.
  intros Hids. unfold check_cycle.
  pose proof (cycle_loop_spec cv edges cycle (List.length cycle) Hids 0 ltac:(lia) ltac:(lia))
    as Hspec.
  split; [|split].
  - destruct Hspec as [(Hr & _)|(Hr & _)]; [left|right]; exact Hr.
  - destruct Hspec as [(Hr & Hall)|(Hr & j & Hj & Hbad)].
    + split; [intros _; exact Hall|intros _; exact Hr].
    + rewrite Hr. split; [discriminate|]. intros Hall. exfalso. exact (Hbad (Hall j Hj)).
  - intros Hone. destruct Hspec as [(_ & Hall)|(Hr & _)]; [|exact Hr].
    exfalso. specialize (Hall 0 ltac:(lia)). unfold link_ok in Hall.
    rewrite Hone in Hall. unfold cycle_link in Hall.
    change ((0 + 1) mod Z.of_nat 1) with 0 in Hall.
    destruct (cycle_at cycle 0) as [x|]; [|exact Hall].
    destruct (edge_at edges x) as [[[a b] c]|]; [|exact Hall].
    destruct Hall as [_ Hc]. apply Hc. reflexivity.
Qed.

Lemma cycle_check_exact_witness :
  check_cycle checker_verdict [(1, 2, 5); (2, 1, 6); (1, 1, 7)] [1; 2] = Ret tt /\
  check_cycle checker_verdict [(1, 2, 5); (2, 1, 6); (1, 1, 7)] [3] =
  Stop (Exits 0 Cout ("WRONG" ++ LF ++ LF ++ "0" ++ LF)).
Proof.
  split; [reflexivity|].
  destruct (cycle_check_exact checker_verdict [(1, 2, 5); (2, 1, 6); (1, 1, 7)] [3])
    as (_ & _ & H).
  - repeat constructor; cbn; lia.
  - rewrite (H eq_refl). reflexivity.
Defined.

(** ** Splitting a test description *)

Lemma byte_eqb_refl (b : byte) : Byte.eqb b b = true.
Proof. apply Byte.byte_dec_lb. reflexivity. Qed.

Lemma is_prefix_app (p rest : list byte) : is_prefix p (p ++ rest) = true.
Proof.
  induction p as [|x p IH]; cbn [is_prefix app]; [reflexivity|].
  rewrite byte_eqb_refl, IH. reflexivity.
Qed.

Lemma find_first_section (sec d rest : list byte) :
  Forall (fun b => b <> "@"%byte) sec ->
  find_first ("@"%byte :: d) (sec ++ ("@"%byte :: d) ++ rest) = Some (List.length sec).
Proof.
  induction 1 as [|b sec Hb _ IH].
  - cbn [app List.length]. change (("@"%byte :: d) ++ rest)%list with ("@"%byte :: (d ++ rest))%list.
    cbn [find_first is_prefix]. rewrite byte_eqb_refl, is_prefix_app. reflexivity.
  - change ((b :: sec) ++ ("@"%byte :: d) ++ rest)%list
      with (b :: (sec ++ ("@"%byte :: d) ++ rest))%list.
    cbn [find_first is_prefix].
    replace (Byte.eqb "@" b) with false.
    + cbn [andb]. rewrite IH. reflexivity.
    + symmetry. destruct (Byte.eqb "@" b) eqn:E; [|reflexivity].
      apply Byte.byte_dec_bl in E. congruence.
Qed.

Lemma find_first_none (d l : list byte) :
  Forall (fun b => b <> "@"%byte) l -> find_first ("@"%byte :: d) l = None.
Proof.
  induction 1 as [|b l Hb _ IH]; [reflexivity|].
  cbn [find_first is_prefix].
  replace (Byte.eqb "@" b) with false.
  - cbn [andb]. rewrite IH. reflexivity.
  - symmetry. destruct (Byte.eqb "@" b) eqn:E; [|reflexivity].
    apply Byte.byte_dec_bl in E. congruence.
Qed.

Lemma skipn_prefix (data pre rest : list byte) (n : nat) :
  data = (pre ++ rest)%list -> n = List.length pre -> skipn n data = rest.
Proof.
  intros -> ->. rewrite skipn_app, Nat.sub_diag, skipn_all. reflexivity.
Qed.

Lemma find_beg_of_section (data pre sec delim d rest : list byte) (start : nat) :
  delim = ("@"%byte :: d)%list ->
  data = (pre ++ sec ++ delim ++ rest)%list -> start = List.length pre ->
  Forall (fun b => b <> "@"%byte) sec ->
  find_beg_of data delim start = Ret (start + List.length sec + List.length delim)%nat.
Proof.
  intros -> Hdata Hstart Hsec. unfold find_beg_of, string_find.
  replace (Nat.leb start (List.length data)) with true.
  2:{ symmetry. apply Nat.leb_le. rewrite Hdata, length_app. lia. }
  rewrite (skipn_prefix data pre _ start Hdata Hstart).
  rewrite (find_first_section sec d rest Hsec). reflexivity.
Qed.

Lemma substring_section (data pre sec rest : list byte) (from to : nat) :
  data = (pre ++ sec ++ rest)%list -> from = List.length pre ->
  (to - from)%nat = List.length sec ->
  substring data from to = sec.
Proof.
  intros Hdata Hfrom Hto. unfold substring.
  rewrite (skipn_prefix data pre _ from Hdata Hfrom), Hto.
  rewrite firstn_app, Nat.sub_diag, firstn_all. cbn [firstn]. apply app_nil_r.
Qed.

(** X14.  [detail::checker_test] splits a test description back into its
    parts: for a description written as some text, "@test_in", the test
    input, "@test_out", the test output, "@user", the user's output,
    "@checker" and the expected output of the checker (each marker followed
    by a newline), where only the last part may contain the character '@',
    the four strings handed on are exactly those four parts.  A description
    without any '@' ends the process through [bug] with exit code 2. *)
Theorem test_description_round_trip (pre tin tout user chk : list byte) :
  Forall (fun b => b <> "@"%byte) pre -> Forall (fun b => b <> "@"%byte) tin ->
  Forall (fun b => b <> "@"%byte) tout -> Forall (fun b => b <> "@"%byte) user ->
  checker_test_parts
    (pre ++ test_in_str ++ tin ++ test_out_str ++ tout ++ user_str ++ user ++ checker_str ++ chk) =
  Ret (tin, tout, user, chk) /\
  checker_test_parts pre =
  Stop (Exits 2 ErrorOstream
          ("BUG: Could not find @test_in" ++ LF ++ " in the test string" ++ LF)).
Proof.
  intros Hpre Htin Htout Huser. split.
  - remember (pre ++ test_in_str ++ tin ++ test_out_str ++ tout ++ user_str ++ user ++
              checker_str ++ chk)%list as data eqn:Hdata.
    unfold checker_test_parts.
    change test_in_str with ("@"%byte :: bytes "test_in" ++ [x0a])%list in *.
    change test_out_str with ("@"%byte :: bytes "test_out" ++ [x0a])%list in *.
    change user_str with ("@"%byte :: bytes "user" ++ [x0a])%list in *.
    change checker_str with ("@"%byte :: bytes "checker" ++ [x0a])%list in *.
    set (D1 := ("@"%byte :: bytes "test_in" ++ [x0a])%list) in *.
    set (D2 := ("@"%byte :: bytes "test_out" ++ [x0a])%list) in *.
    set (D3 := ("@"%byte :: bytes "user" ++ [x0a])%list) in *.
    set (D4 := ("@"%byte :: bytes "checker" ++ [x0a])%list) in *.
    rewrite (find_beg_of_section data [] pre D1 _ (tin ++ D2 ++ tout ++ D3 ++ user ++ D4 ++ chk) 0
               eq_refl Hdata eq_refl Hpre).
    cbn [bind].
    rewrite (find_beg_of_section data (pre ++ D1) tin D2 _ (tout ++ D3 ++ user ++ D4 ++ chk)
               (0 + List.length pre + List.length D1) eq_refl ltac:(rewrite Hdata, <- app_assoc; reflexivity)
               ltac:(rewrite length_app; lia) Htin).
    cbn [bind].
    rewrite (find_beg_of_section data (pre ++ D1 ++ tin ++ D2) tout D3 _ (user ++ D4 ++ chk)
               (0 + List.length pre + List.length D1 + List.length tin + List.length D2)
               eq_refl ltac:(rewrite Hdata, <- !app_assoc; reflexivity)
               ltac:(rewrite !length_app; lia) Htout).
    cbn [bind].
    rewrite (find_beg_of_section data (pre ++ D1 ++ tin ++ D2 ++ tout ++ D3) user D4 _ chk
               (0 + List.length pre + List.length D1 + List.length tin + List.length D2 +
                List.length tout + List.length D3)
               eq_refl ltac:(rewrite Hdata, <- !app_assoc; reflexivity)
               ltac:(rewrite !length_app; lia) Huser).
    cbn [bind].
    rewrite (substring_section data (pre ++ D1) tin (D2 ++ tout ++ D3 ++ user ++ D4 ++ chk))
      by (try (rewrite Hdata, <- !app_assoc; reflexivity); rewrite ?length_app; lia).
    rewrite (substring_section data (pre ++ D1 ++ tin ++ D2) tout (D3 ++ user ++ D4 ++ chk))
      by (try (rewrite Hdata, <- !app_assoc; reflexivity); rewrite ?length_app; lia).
    rewrite (substring_section data (pre ++ D1 ++ tin ++ D2 ++ tout ++ D3) user (D4 ++ chk))
      by (try (rewrite Hdata, <- !app_assoc; reflexivity); rewrite ?length_app; lia).
    rewrite (skipn_prefix data (pre ++ D1 ++ tin ++ D2 ++ tout ++ D3 ++ user ++ D4) chk)
      by (try (rewrite Hdata, <- !app_assoc; reflexivity); rewrite ?length_app; lia).
    reflexivity.
  - unfold checker_test_parts, find_beg_of, string_find. cbn [Nat.leb skipn].
    change test_in_str with ("@"%byte :: bytes "test_in" ++ [x0a])%list.
    rewrite (find_first_none _ pre Hpre). reflexivity.
Qed.

Lemma test_description_round_trip_witness :
  checker_test_parts
    (bytes "first test" ++ [x0a] ++ test_in_str ++ bytes "3 1" ++ [x0a] ++ test_out_str ++
     bytes "YES" ++ [x0a] ++ user_str ++ bytes "NO" ++ [x0a] ++ checker_str ++ bytes "WRONG@") =
  Ret (bytes "3 1" ++ [x0a], bytes "YES" ++ [x0a], bytes "NO" ++ [x0a], bytes "WRONG@")%list.
Proof.
  destruct (test_description_round_trip (bytes "first test" ++ [x0a]) (bytes "3 1" ++ [x0a])
              (bytes "YES" ++ [x0a]) (bytes "NO" ++ [x0a]) (bytes "WRONG@")) as (H & _).
  - repeat constructor; discriminate.
  - repeat constructor; discriminate.
  - repeat constructor; discriminate.
  - repeat constructor; discriminate.
  - rewrite <- H. rewrite <- !app_assoc. reflexivity.
Defined.

(** ** Integers that do not start like one *)

Lemma not_digit_checks (b : byte) :
  is_digit_byte b = false -> ((int_of_byte b <? 48) || (57 <? int_of_byte b)) = true.
Proof.
  unfold is_digit_byte, isdigit. intros H. apply andb_false_iff in H.
  apply orb_true_iff. destruct H as [H|H]; apply Z.leb_gt in H; [left|right]; apply Z.ltb_lt; lia.
Qed.

Lemma unread_skipped_after (s : Scanner) : unread s = (skipped_ws s ++ after_ws s)%list.
Proof.
  unfold skipped_ws, after_ws. destruct (lenient (mode s)); [apply take_drop_while|reflexivity].
Qed.

Lemma byte_pos_next (s : Scanner) (l : list byte) (b : byte) (r : list byte) :
  unread s = (l ++ b :: r)%list ->
  byte_pos s (S (List.length l)) = advance (int_of_byte b) (byte_pos s (List.length l)).
Proof.
  intros Hu. unfold byte_pos. rewrite Hu.
  replace (firstn (S (List.length l)) (l ++ b :: r)) with (l ++ [b])%list.
  - rewrite firstn_app, Nat.sub_diag, firstn_all. cbn [firstn]. rewrite app_nil_r.
    rewrite fold_left_app. reflexivity.
  - rewrite firstn_app. replace (S (List.length l) - List.length l)%nat with 1%nat by lia.
    rewrite firstn_all2 by lia. reflexivity.
Qed.

(** X15.  [Scanner >> Num] on something that does not start like an
    integer, with nothing deferred, after the whitespace the mode skips.
    The end of the stream fails "Read EOF, expected a number"; a '-' for an
    unsigned type fails "Read '-', expected a non-negative number" at the
    '-'; a '-' for a signed type followed by the end of the stream or by a
    byte that is no digit fails at the position after the '-'; any other
    byte that is no digit (a '+', a letter, a newline) fails "Read <byte>,
    expected a number" at its own position. *)
Theorem read_integer_malformed (cv : CheckerVerdict) (t : IntTy) (min max : Z) (s : Scanner) :
  min <= max -> wf s -> delayed_unread_chars s = [] -> eofed s = false ->
  match after_ws s with
  | [] =>
      op_Num cv t min max s =
      Stop (do_error cv (mode s)
              (located (lang s) (byte_pos s (List.length (skipped_ws s))) ++
               [read_eof_expected_a_number (lang s)])%list)
  | (b :: r)%list =>
      if int_of_byte b =? 45 then
        if is_signed t then
          match r with
          | [] =>
              op_Num cv t min max s =
              Stop (do_error cv (mode s)
                      (located (lang s) (byte_pos s (S (List.length (skipped_ws s)))) ++
                       [read_eof_expected_a_number (lang s)])%list)
          | (b2 :: _)%list =>
              is_digit_byte b2 = false ->
              op_Num cv t min max s =
              Stop (do_error cv (mode s)
                      (located (lang s) (byte_pos s (S (List.length (skipped_ws s)))) ++
                       match lang s with
                       | EN => ["Read "; char_description (int_of_byte b2); ", expected a number"]
                       | PL => ["Wczytano "; char_description (int_of_byte b2);
                                ", oczekiwano liczby"]
                       end)%list)
          end
        else
          op_Num cv t min max s =
          Stop (do_error cv (mode s)
                  (located (lang s) (byte_pos s (List.length (skipped_ws s))) ++
                   [read_minus_expected_a_positive_number (lang s)])%list)
      else
        is_digit_byte b = false ->
        op_Num cv t min max s =
        Stop (do_error cv (mode s)
                (located (lang s) (byte_pos s (List.length (skipped_ws s))) ++
                 match lang s with
                 | EN => ["Read "; char_description (int_of_byte b); ", expected a number"]
                 | PL => ["Wczytano "; char_description (int_of_byte b); ", oczekiwano liczby"]
                 end)%list)
  end.
Proof.
  intros Hmm Hwf Hq He.
  destruct (skip_ws_exact cv s Hwf Hq He) as (s2 & Hskip & (Hwf2 & Hm2 & Hl2 & _) & Hu2 & He2 & Hp2).
  pose proof (first_read 0 s2 Hwf2 He2) as Hfirst. rewrite Hu2 in Hfirst.
  pose proof (unread_skipped_after s) as Hsplit.
  unfold op_Num. replace (min <=? max) with true by (symmetry; apply Z.leb_le; lia).
  cbn [negb]. rewrite (read_delayed_nothing cv s Hq). cbn [bind].
  rewrite Hskip. cbn [bind]. unfold scan_integer.
  destruct (after_ws s) as [|b r].
  - destruct Hfirst as (ch1 & s3 & Hg & Hm3 & Hl3 & Hp3). rewrite Hg. cbv beta iota.
    cbn [negb bind]. rewrite error_located, Hm3, Hl3, Hp3, Hm2, Hl2, Hp2. reflexivity.
  - rewrite Hfirst. cbv beta iota. cbn [negb].
    destruct (int_of_byte b =? 45) eqn:E45.
    + destruct (is_signed t); cbn [negb bind].
      * pose proof (byte_pos_next s _ b r Hsplit) as Hnext.
        apply Z.eqb_eq in E45.
        pose proof (first_read (int_of_byte b) (consume b r s2) (wf_consume _ _ _) eq_refl)
          as Hsecond.
        rewrite unread_consume in Hsecond.
        destruct r as [|b2 r2].
        -- destruct Hsecond as (ch1 & s3 & Hg & Hm3 & Hl3 & Hp3). rewrite Hg. cbv beta iota.
           cbn [negb bind]. rewrite error_located, Hm3, Hl3, Hp3.
           cbn [mode lang next_char_pos consume]. rewrite Hm2, Hl2, Hp2, Hnext. reflexivity.
        -- intros Hnd. rewrite Hsecond. cbv beta iota. cbn [negb bind].
           rewrite (not_digit_checks b2 Hnd).
           rewrite !error_located. cbn [mode lang last_char_pos next_char_pos consume].
           rewrite Hm2, Hl2, Hp2, Hnext. destruct (lang s); reflexivity.
      * rewrite error_located. cbn [mode lang last_char_pos consume].
        rewrite Hm2, Hl2, Hp2. reflexivity.
    + intros Hnd. cbn [bind]. rewrite (not_digit_checks b Hnd).
      rewrite !error_located. cbn [mode lang last_char_pos consume].
      rewrite Hm2, Hl2, Hp2. destruct (lang s); reflexivity.
Qed.

Lemma read_integer_malformed_witness :
  op_Num checker_verdict int32_t 0 9 (Scanner_new (bytes "  +5") UserOutput EN) =
  Stop (Exits 0 Cout
          ("WRONG" ++ LF ++ "Line 1, position 3: Read '+', expected a number" ++ LF ++
           "0" ++ LF)).
Proof.
  pose proof (read_integer_malformed checker_verdict int32_t 0 9
                (Scanner_new (bytes "  +5") UserOutput EN)
                ltac:(lia) (wf_Scanner_new _ _ _) eq_refl eq_refl) as H.
  exact (H eq_refl).
Defined.

(** ** Integers outside the bounds of the caller *)

Lemma getchar_prev_pos (ch : Z) (s : Scanner) :
  eofed s = false -> prev_last_char_pos (snd (getchar ch s)) = last_char_pos s.
Proof.
  intros He. unfold getchar. rewrite He.
  destruct (next_char s); [reflexivity|]. destruct (file s); reflexivity.
Qed.

Lemma scan_integer_loop_last_pos (cv : CheckerVerdict) (t : IntTy) (minus : bool)
    (ds rest : list byte) :
  forall (fuel : nat) (val ch : Z) (s : Scanner) (v : Z) (s' : Scanner),
    wf s -> eofed s = false -> unread s = (ds ++ rest)%list ->
    forallb is_digit_byte ds = true -> no_digit_ahead rest = true ->
    scan_integer_loop cv fuel t minus val ch s = Ret (v, s') ->
    last_char_pos s' =
    match ds with
    | [] => last_char_pos s
    | (_ :: _)%list => byte_pos s (List.length ds - 1)
    end.
Proof.
  induction ds as [|b ds IH]; intros fuel val ch s v s' Hwf He Hu Hds Hrest;
    (destruct fuel as [|fuel]; [discriminate|]); cbn [scan_integer_loop app] in *.
  - destruct rest as [|c rest'].
    + pose proof (getchar_prev_pos ch s He) as Hprev.
      destruct (getchar_nil ch s Hwf Hu) as (ch1 & s1 & Hg & Hn & _).
      rewrite Hg in Hprev |- *. cbn [snd] in Hprev. cbv beta iota. cbn [negb].
      rewrite (ungetchar_pushback EOF s1 Hn). cbn [bind].
      intros H. injection H as _ <-. exact Hprev.
    + rewrite (getchar_cons ch s c rest' Hwf Hu). cbv beta iota. cbn [negb].
      cbn [no_digit_ahead] in Hrest. unfold is_digit_byte in Hrest. rewrite Hrest.
      rewrite ungetchar_pushback by reflexivity. cbn [bind].
      intros H. injection H as _ <-. reflexivity.
  - cbn [forallb] in Hds. apply andb_prop in Hds as [Hb Hds].
    rewrite (getchar_cons ch s b (ds ++ rest) Hwf Hu). cbv beta iota. cbn [negb].
    unfold is_digit_byte in Hb. rewrite Hb. cbn [negb].
    destruct (builtin_mul_overflow t val 10) as [[|] v1]; [discriminate|].
    destruct (if negb minus then builtin_add_overflow t v1 (int_of_byte b - 48) else (false, v1))
      as [[|] v2]; [discriminate|].
    destruct (if minus then builtin_sub_overflow t v2 (int_of_byte b - 48) else (false, v2))
      as [[|] v3]; [discriminate|].
    intros H.
    rewrite (IH fuel v3 (int_of_byte b) (consume b (ds ++ rest) s) v s'
               (wf_consume _ _ _) eq_refl (unread_consume _ _ _) Hds Hrest H).
    destruct ds as [|d ds]; [reflexivity|].
    rewrite (byte_pos_consume s b _ _ Hu). cbn [List.length]. f_equal. lia.
Qed.

(** X16.  [Scanner >> Num] on an integer that its type can hold but that is
    outside the bounds [min, max] of the caller fails "Integer value out of
    range" at the position of the last digit of the number, whatever
    follows it; the token is read to its end first. *)
Theorem read_integer_out_of_bounds (cv : CheckerVerdict) (t : IntTy) (minus : bool)
    (min max : Z) (s : Scanner) (ds rest : list byte) :
  valid_ty t -> (minus = true -> is_signed t = true) ->
  min <= max -> wf s -> delayed_unread_chars s = [] ->
  unread s = (sign_bytes minus ++ ds ++ rest)%list ->
  ds <> [] -> forallb is_digit_byte ds = true -> no_digit_ahead rest = true ->
  fits t (signed_value minus ds) = true ->
  signed_value minus ds < min \/ max < signed_value minus ds ->
  op_Num cv t min max s =
  Stop (do_error cv (mode s)
          (located (lang s) (byte_pos s (List.length (sign_bytes minus ++ ds) - 1)) ++
           [integer_value_out_of_range (lang s)])%list).
Proof.
  intros Ht Hsigned Hmm Hwf Hq Hu Hne Hds Hrest Hfit Hout.
  destruct ds as [|b ds]; [contradiction|].
  cbn [forallb] in Hds. apply andb_prop in Hds as [Hb Hds].
  cbn [app] in Hu.
  destruct (sign_not_space minus b (ds ++ rest) Hb) as (c & r' & Hcr & Hc).
  rewrite Hcr in Hu.
  destruct (skip_ws_nonspace cv s c r' Hwf Hq Hu Hc)
    as (s2 & Hskip & Hwf2 & Hu2 & _ & Hm2 & Hl2 & Hq2 & Hp2).
  rewrite <- Hcr in Hu, Hu2.
  destruct (scan_integer_ok cv t Ht minus Hsigned s2 b ds rest Hwf2 Hu2 Hb Hds Hrest)
    as (s' & Hr & Hwf' & Hu' & Hm' & Hl' & Hq').
  { apply all_fit_of_final; auto. apply accum_first_sign; exact Hb. }
  destruct (scan_integer_start cv t Ht minus Hsigned s2 b (ds ++ rest) Hwf2 Hu2 Hb)
    as (s1 & Hgo & Hwf1 & Hu1 & _ & _ & _ & Hpos1).
  rewrite Hgo in Hr.
  pose proof (scan_integer_loop_last_pos cv t minus ds rest _ _ _ _ _ _
                (wf_consume _ _ _) eq_refl (unread_consume _ _ _) Hds Hrest Hr) as Hlast.
  assert (Hlast' : last_char_pos s' = byte_pos s (List.length (sign_bytes minus ++ b :: ds) - 1)).
  { rewrite Hlast. rewrite <- (byte_pos_ext s s2 _ (eq_trans Hu2 (eq_sym Hu)) Hp2).
    replace (List.length (sign_bytes minus ++ b :: ds) - 1)%nat
      with (List.length (sign_bytes minus) + List.length ds)%nat
      by (rewrite length_app; cbn [List.length]; lia).
    rewrite <- Hpos1. destruct ds as [|d ds].
    - reflexivity.
    - rewrite (byte_pos_consume s1 b _ _ Hu1). cbn [List.length]. f_equal. lia. }
  unfold op_Num.
  replace (min <=? max) with true by (symmetry; apply Z.leb_le; lia).
  cbn [negb]. rewrite (read_delayed_nothing cv s Hq). cbn [bind].
  rewrite Hskip. cbn [bind]. rewrite Hgo, Hr. cbn [bind].
  replace ((signed_value minus (b :: ds) <? min) || (signed_value minus (b :: ds) >? max))
    with true.
  - rewrite error_located, Hm', Hl', Hm2, Hl2, Hlast'. reflexivity.
  - symmetry. apply orb_true_iff. rewrite Z.gtb_ltb.
    destruct Hout; [left|right]; apply Z.ltb_lt; assumption.
Qed.

Lemma read_integer_out_of_bounds_witness :
  op_Num checker_verdict int32_t 1 100 (Scanner_new (bytes "-007 x") TestInput EN) =
  Stop (Exits 1 Cout ("Line 1, position 4: Integer value out of range" ++ LF)).
Proof.
  rewrite (read_integer_out_of_bounds checker_verdict int32_t true 1 100
             (Scanner_new (bytes "-007 x") TestInput EN) (bytes "007") (bytes " x")).
  - reflexivity.
  - unfold valid_ty. cbn. lia.
  - reflexivity.
  - lia.
  - apply wf_Scanner_new.
  - reflexivity.
  - reflexivity.
  - discriminate.
  - reflexivity.
  - reflexivity.
  - reflexivity.
  - left. vm_compute. reflexivity.
Defined.

(** ** Literal characters and tokens *)



(** X18.  [Scanner >> Str] with a positive capacity and nothing deferred,
    when no token starts after the whitespace the mode skips: at the end of
    the stream it fails "Read EOF, expected a string"; at a whitespace byte
    (a newline in UserOutput and Lax mode, any whitespace in TestInput mode)
    it fails "Read <byte>, expected a string" at the position of that
    byte. *)
Theorem read_token_missing (cv : CheckerVerdict) (max_size : Z) (s : Scanner) :
  0 < max_size -> wf s -> delayed_unread_chars s = [] -> eofed s = false ->
  match after_ws s with
  | [] =>
      op_Str cv max_size s =
      Stop (do_error cv (mode s)
              (located (lang s) (byte_pos s (List.length (skipped_ws s))) ++
               [read_eof_expected_a_string (lang s)])%list)
  | (b :: r)%list =>
      is_space_byte b = true ->
      (lenient (mode s) = true -> int_of_byte b = 10) /\
      op_Str cv max_size s =
      Stop (do_error cv (mode s)
              (located (lang s) (byte_pos s (List.length (skipped_ws s))) ++
               match lang s with
               | EN => ["Read "; char_description (int_of_byte b); ", expected a string"]
               | PL => ["Wczytano "; char_description (int_of_byte b); ", oczekiwano napisu"]
               end)%list)
  end.
Proof.
  intros Hmax Hwf Hq He.
  destruct (skip_ws_exact cv s Hwf Hq He)
    as (s2 & Hskip & (Hwf2 & Hm2 & Hl2 & Hq2) & Hu2 & He2 & Hp2).
  pose proof (first_read 0 s2 Hwf2 He2) as Hfirst. rewrite Hu2 in Hfirst.
  unfold op_Str. replace (max_size >? 0) with true by (symmetry; rewrite Z.gtb_ltb; apply Z.ltb_lt; lia).
  cbn [negb]. rewrite (read_delayed_nothing cv s Hq). cbn [bind]. rewrite Hskip. cbn [bind].
  pose proof (eq_refl (after_ws s)) as Hafter. unfold after_ws at 2 in Hafter.
  destruct (after_ws s) as [|b r].
  - destruct Hfirst as (ch1 & s3 & Hg & Hm3 & Hl3 & Hp3). rewrite Hg. cbv beta iota.
    cbn [negb]. rewrite !error_located, Hm3, Hl3, Hp3, Hm2, Hl2, Hp2. reflexivity.
  - intros Hsp. split.
    + intros Hlen. rewrite Hlen in Hafter.
      assert (Hb : is_inline_space b = false).
      { clear - Hafter. induction (unread s) as [|x l IH]; cbn [drop_while] in Hafter;
          [discriminate|].
        destruct (is_inline_space x) eqn:Ex; [exact (IH Hafter)|].
        injection Hafter as -> _. exact Ex. }
      unfold is_inline_space in Hb. rewrite Hsp in Hb. cbn [andb] in Hb.
      unfold not_newline in Hb. apply negb_false_iff, Z.eqb_eq in Hb. exact Hb.
    + rewrite Hfirst. cbv beta iota. cbn [negb].
      unfold is_space_byte in Hsp. rewrite Hsp.
      rewrite !error_located. cbn [mode lang last_char_pos consume].
      rewrite Hm2, Hl2, Hp2. destruct (lang s); reflexivity.
Qed.

Lemma read_token_missing_witness :
  op_Str checker_verdict 4 (Scanner_new [" "%byte; x0a; "N"%byte; "O"%byte] Lax EN) =
  Stop (Exits 4 ErrorOstream
          ("Lax scanner: Line 1, position 2: Read '\n', expected a string" ++ LF)).
Proof.
  pose proof (read_token_missing checker_verdict 4
                (Scanner_new [" "%byte; x0a; "N"%byte; "O"%byte] Lax EN)
                ltac:(lia) (wf_Scanner_new _ _ _) eq_refl eq_refl) as H.
  exact (proj2 (H eq_refl)).
Defined.

(** ** A deferred whitespace *)

(** X19.  In UserOutput and Lax mode [>> c] for a whitespace character other
    than newline only defers the match, and the next operation that reads
    settles it by consuming exactly one byte, which has to be a whitespace
    other than newline, whichever one [c] was.  At the end of the stream it
    fails "Read EOF, expected ' '", and at any other byte (a newline
    included) "Read <byte>, expected ' '" at that byte's position: the
    message names a space even when [c] was a tab. *)
Theorem deferred_whitespace_exact (cv : CheckerVerdict) (c : Z) (s : Scanner) :
  lenient (mode s) = true -> wf s -> eofed s = false -> delayed_unread_chars s = [] ->
  isspace c = true -> c <> 10 ->
  op_char cv c s = Ret (set_delayed [WHITESPACE] s) /\
  match unread s with
  | [] =>
      read_delayed_unread_chars cv (set_delayed [WHITESPACE] s) =
      Stop (do_error cv (mode s)
              (located (lang s) (byte_pos s 0) ++
               match lang s with
               | EN => ["Read EOF, expected "; "' '"]
               | PL => ["Wczytano EOF, oczekiwano "; "' '"]
               end)%list)
  | (b :: r)%list =>
      if is_inline_space b
      then exists s',
             read_delayed_unread_chars cv (set_delayed [WHITESPACE] s) = Ret s' /\
             unread s' = r /\ delayed_unread_chars s' = []
      else
        read_delayed_unread_chars cv (set_delayed [WHITESPACE] s) =
        Stop (do_error cv (mode s)
                (located (lang s) (byte_pos s 0) ++
                 match lang s with
                 | EN => ["Read "; char_description (int_of_byte b); ", expected "; "' '"]
                 | PL => ["Wczytano "; char_description (int_of_byte b); ", oczekiwano "; "' '"]
                 end)%list)
  end.
Proof.
  intros Hm Hwf He Hq Hc Hnl. split.
  - rewrite (op_char_delayed cv c s Hm Hc), Hq. unfold delayed_tag.
    replace (c =? 10) with false by (symmetry; apply Z.eqb_neq; exact Hnl). reflexivity.
  - assert (Hwf' : wf (set_delayed [WHITESPACE] s)) by exact Hwf.
    pose proof (first_read 0 (set_delayed [WHITESPACE] s) Hwf' He) as Hfirst.
    rewrite unread_set_delayed in Hfirst.
    assert (Hrd : read_delayed_unread_chars cv (set_delayed [WHITESPACE] s) =
                  (s2 <- ('(ch, s1) <- do_read_char cv "' '" (set_delayed [WHITESPACE] s) ;;
                          if negb (isspace ch) || (ch =? 10)
                          then Stop (unexpected_char_error cv s1 ch "' '")
                          else Ret s1) ;;
                   Ret (set_delayed [] s2))).
    { unfold read_delayed_unread_chars.
      cbn [delayed_unread_chars set_delayed read_delayed_each read_delayed_one mode].
      destruct (mode s); try discriminate;
        match goal with |- bind (bind ?x _) _ = _ => destruct x end; reflexivity. }
    rewrite Hrd. clear Hrd. unfold do_read_char.
    destruct (unread s) as [|b r].
    + destruct Hfirst as (ch1 & s3 & Hg & Hm3 & Hl3 & Hp3). rewrite Hg. cbv beta iota.
      cbn [negb]. rewrite !error_located, Hm3, Hl3, Hp3.
      destruct (lang s) eqn:El; cbn [lang set_delayed]; rewrite El; reflexivity.
    + rewrite Hfirst. cbv beta iota. cbn [negb bind].
      unfold is_inline_space, is_space_byte, not_newline.
      destruct (isspace (int_of_byte b)); destruct (int_of_byte b =? 10);
        cbn [negb andb orb bind];
        try (eexists; split; [reflexivity|]; split; reflexivity);
        unfold unexpected_char_error; rewrite !error_located;
        cbn [mode lang last_char_pos consume set_delayed next_char_pos];
        destruct (lang s); reflexivity.
Qed.

Lemma deferred_whitespace_exact_witness :
  op_char checker_verdict 9 (Scanner_new [x0a; "5"%byte] UserOutput EN) =
  Ret (set_delayed [WHITESPACE] (Scanner_new [x0a; "5"%byte] UserOutput EN)) /\
  read_delayed_unread_chars checker_verdict
    (set_delayed [WHITESPACE] (Scanner_new [x0a; "5"%byte] UserOutput EN)) =
  Stop (Exits 0 Cout ("WRONG" ++ LF ++ "Line 1, position 1: Read '\n', expected ' '" ++ LF ++
                      "0" ++ LF)).
Proof.
  exact (deferred_whitespace_exact checker_verdict 9 (Scanner_new [x0a; "5"%byte] UserOutput EN)
           eq_refl (wf_Scanner_new _ _ _) eq_refl eq_refl eq_refl ltac:(lia)).
Defined.
